(** * SchemaLink: the query-resolution pipeline, embedded and verified

    A shallow embedding of the core of the SchemaLink repository:

    - [config/settings.py]             (module [Settings])
    - [config/prompts.py]              (module [Prompts])
    - [core_logic/safe_connector.py]   (module [SafeConnector])
    - [core_logic/hybrid_retriever.py] (module [HybridRetriever])
    - [core_logic/llm_agent.py]        (module [LlmAgent])
    - [core_logic/synthesis_module.py] (module [SynthesisModule])
    - [ingestion/indexing.py]          (modules [Indexing], [Indexer])
    - [ingestion/introspection.py]     (module [Introspection])
    - [core_logic/data_models.py]      (module [DataModels])
    - [main.py]                        (module [Main])

    The definitions come first; the proofs follow, one module of proofs
    for each module of definitions, and then the modules of further
    properties of the code.

    Conventions of the embedding.

    - Python [str] values are sequences of ASCII characters ([text]);
      [str.strip], [str.upper], [str.lower] and the [re] classes [\d] and
      [\s] are the ASCII restrictions of the Python operations.
    - A Python exception is a value of [exn]; a call that may raise
      returns an [outcome].
    - External collaborators are oracles.  The database engine and the
      text generator answer as functions of the number of calls made so
      far and of the arguments of the call; the search providers and the
      content store as functions of the arguments, and they may raise.
      The calls themselves are recorded in a [trace], so that statements
      about the order and the number of effects can be made.
    - Wall-clock measurements and logging are not modelled, except for
      the alert of the security logger. *)

From Stdlib Require Import List Ascii Bool Arith ZArith Lia.
From Stdlib Require Import DecimalString.
From Stdlib Require Import SpecFloat.
From Stdlib Require Import Permutation Sorted.
Import ListNotations.

Set Implicit Arguments.
Set Warnings "-via-type-mismatch,-via-type-remapping".

(** ** Text *)

Definition text := list ascii.

Inductive text_lit : Set :=
| lit_nil
| lit_cons (a : ascii) (l : text_lit).

Fixpoint lit_of_bytes (l : list Byte.byte) : text_lit :=
  match l with
  | [] => lit_nil
  | b :: t => lit_cons (ascii_of_byte b) (lit_of_bytes t)
  end.

Fixpoint bytes_of_lit (l : text_lit) : list Byte.byte :=
  match l with
  | lit_nil => []
  | lit_cons a t => byte_of_ascii a :: bytes_of_lit t
  end.

Declare Scope text_scope.
Delimit Scope text_scope with text.
String Notation text lit_of_bytes bytes_of_lit
  (via text_lit mapping [[nil] => lit_nil, [cons] => lit_cons]) : text_scope.
Open Scope text_scope.

Module Text.

Definition code (c : ascii) : nat := nat_of_ascii c.

Definition in_range (lo hi : nat) (c : ascii) : bool :=
  (lo <=? code c) && (code c <=? hi).

(** [str.isspace] on ASCII: TAB, LF, VT, FF, CR, FS, GS, RS, US, SPACE. *)
Definition is_space (c : ascii) : bool :=
  in_range 9 13 c || in_range 28 32 c.

Definition is_digit (c : ascii) : bool := in_range 48 57 c.
Definition is_upper (c : ascii) : bool := in_range 65 90 c.
Definition is_lower (c : ascii) : bool := in_range 97 122 c.
Definition is_alpha (c : ascii) : bool := is_upper c || is_lower c.
Definition is_alnum (c : ascii) : bool := is_alpha c || is_digit c.

Definition upper_char (c : ascii) : ascii :=
  if is_lower c then ascii_of_nat (code c - 32) else c.

Definition lower_char (c : ascii) : ascii :=
  if is_upper c then ascii_of_nat (code c + 32) else c.

(** [s.upper()] and [s.lower()] *)
Definition upper (s : text) : text := map upper_char s.
Definition lower (s : text) : text := map lower_char s.

(** [s.lstrip()], [s.rstrip()], [s.strip()] *)
Fixpoint lstrip (s : text) : text :=
  match s with
  | [] => []
  | c :: t => if is_space c then lstrip t else s
  end.

Definition rstrip (s : text) : text := rev (lstrip (rev s)).

Definition strip (s : text) : text := rstrip (lstrip s).

(** [s.startswith(p)] *)
Fixpoint startswith (s p : text) {struct p} : bool :=
  match p with
  | [] => true
  | a :: p' =>
      match s with
      | [] => false
      | b :: s' => Ascii.eqb a b && startswith s' p'
      end
  end.

(** [p in s] *)
Fixpoint contains (p s : text) : bool :=
  startswith s p ||
  match s with
  | [] => false
  | _ :: t => contains p t
  end.

(** [s.replace(old, new)] for a non-empty [old]: the occurrences of [old]
    are taken leftmost first and do not overlap.  [skip] counts the
    characters of the occurrence being replaced that are still to be
    dropped. *)
Fixpoint replace_from (old new s : text) (skip : nat) : text :=
  match s with
  | [] => []
  | c :: t =>
      match skip with
      | S n => replace_from old new t n
      | O =>
          if startswith s old
          then new ++ replace_from old new t (length old - 1)
          else c :: replace_from old new t 0
      end
  end.

Definition replace (s old new : text) : text := replace_from old new s 0.

(** [str(n)] for a non-negative integer *)
Definition of_nat (n : nat) : text :=
  String.list_ascii_of_string (NilEmpty.string_of_uint (Nat.to_uint n)).

End Text.

(** ** Exceptions and outcomes *)

(** The exception classes the core raises or catches.  [ExternalError]
    stands for an exception raised inside a collaborator and not caught
    by the core. *)
Inductive exn : Type :=
| PermissionError (msg : text)
| TimeoutError (msg : text)
| ValueError (msg : text)
| RuntimeError (msg : text)
| ZeroDivisionError
| ExternalError (msg : text).

(** [str(e)] *)
Definition exn_str (e : exn) : text :=
  match e with
  | PermissionError m | TimeoutError m | ValueError m
  | RuntimeError m | ExternalError m => m
  | ZeroDivisionError => "float division by zero"
  end.

Inductive outcome (A : Type) : Type :=
| Ret (a : A)
| Raise (e : exn).

Arguments Ret {A} a.
Arguments Raise {A} e.

(** ** Insertion-ordered dictionaries

    A Python [dict] keeps its keys in the order of their first
    insertion; assigning to an existing key keeps the key's position. *)
Module Dict.

Definition key_eqb (a b : text) : bool :=
  if list_eq_dec ascii_dec a b then true else false.

Definition t (V : Type) : Type := list (text * V).

Fixpoint get {V : Type} (d : t V) (k : text) : option V :=
  match d with
  | [] => None
  | (k', v) :: rest => if key_eqb k' k then Some v else get rest k
  end.

(** [d[k] = v] *)
Fixpoint set {V : Type} (d : t V) (k : text) (v : V) : t V :=
  match d with
  | [] => [(k, v)]
  | (k', v') :: rest =>
      if key_eqb k' k then (k', v) :: rest else (k', v') :: set rest k v
  end.

(** [d.keys()] *)
Definition keys {V : Type} (d : t V) : list text := map fst d.

(** [dict(pairs)] *)
Definition of_pairs {V : Type} (l : list (text * V)) : t V :=
  fold_left (fun d kv => set d (fst kv) (snd kv)) l [].

End Dict.

(** [zip(a, b)] *)
Fixpoint zip {A B : Type} (a : list A) (b : list B) : list (A * B) :=
  match a, b with
  | x :: a', y :: b' => (x, y) :: zip a' b'
  | _, _ => []
  end.

(** Values a result-set field can hold. *)
Inductive value : Type :=
| VStr (s : text)
| VInt (n : Z)
| VFloat (f : spec_float)
| VBool (b : bool)
| VNone.

Definition row : Type := Dict.t value.

(** ** The effects of one request *)

Inductive event : Type :=
| EvSecurityAlert (sql : text)      (* security_logger.error *)
| EvConnect                         (* engine.connect() *)
| EvExecute (sql : text)            (* connection.execute(text(sql)) *)
| EvSemanticSearch (query : text)   (* vector_db.query_top_k *)
| EvKeywordSearch (query : text)    (* keyword_index.query_top_k *)
| EvGetContent (table : text)       (* vector_db.get_content *)
| EvGenerate (prompt : text).       (* llm_client.generate *)

Definition trace : Type := list event.

Definition is_connect (e : event) : bool :=
  match e with EvConnect => true | _ => false end.
Definition is_execute (e : event) : bool :=
  match e with EvExecute _ => true | _ => false end.
Definition is_generate (e : event) : bool :=
  match e with EvGenerate _ => true | _ => false end.
Definition is_search (e : event) : bool :=
  match e with EvSemanticSearch _ | EvKeywordSearch _ => true | _ => false end.
Definition is_get_content (e : event) : bool :=
  match e with EvGetContent _ => true | _ => false end.

Definition count (p : event -> bool) (tr : trace) : nat :=
  length (filter p tr).

(** ** config/settings.py *)
Module Settings.

Definition MAX_QUERY_TIMEOUT_SECONDS : nat := 5.
Definition K_SEARCH : nat := 10.
Definition RRF_K : Z := 60.
Definition TOKEN_BUDGET : nat := 500.
Definition MAX_RETRY_COUNT : nat := 1.
Definition SQL_START_TOKEN : text := "[SQL_START]".
Definition SQL_END_TOKEN : text := "[SQL_END]".

End Settings.

(** ** core_logic/safe_connector.py *)
Module SafeConnector.

(** What the database engine does on one use: an exception of class
    [sqlalchemy.exc.OperationalError], any other exception, or a result
    with its column names and rows. *)
Inductive db_error : Type :=
| OperationalError (str_e repr_e : text)
| OtherException (repr_e : text).

Inductive db_reply : Type :=
| ConnectRaises (e : db_error)
| ExecuteRaises (e : db_error)
| Rows (column_names : list text) (rows : list (list value)).

(** The engine: its reply to the statement, given the number of
    connections opened before. *)
Definition engine : Type := nat -> text -> db_reply.

Definition security_message : text :=
  "Query failed security validation. Only read (SELECT/WITH) statements are allowed.".

Definition timeout_message : text :=
  "Query execution exceeded time limits (>" ++
  Text.of_nat Settings.MAX_QUERY_TIMEOUT_SECONDS ++
  "s). Please simplify your request.".

(** The two [except] clauses of [execute_read_only_query]. *)
Definition classify (e : db_error) : exn :=
  match e with
  | OperationalError str_e repr_e =>
      if Text.contains "statement timeout" str_e
      then TimeoutError timeout_message
      else ValueError ("Database Execution Error: " ++ repr_e)
  | OtherException repr_e =>
      RuntimeError ("A general error occurred during database operation: " ++ repr_e)
  end.

(** The security check of [execute_read_only_query]. *)
Definition passes_security_check (sql_query : text) : bool :=
  let normalized_query := Text.upper (Text.strip sql_query) in
  Text.startswith normalized_query "SELECT" ||
  Text.startswith normalized_query "WITH".

Definition execute_read_only_query (db : engine) (sql_query : text)
    (tr : trace) : outcome (list row) * trace :=
  if negb (passes_security_check sql_query) then
    (Raise (PermissionError security_message), tr ++ [EvSecurityAlert sql_query])
  else
    match db (count is_connect tr) sql_query with
    | ConnectRaises e => (Raise (classify e), tr ++ [EvConnect])
    | ExecuteRaises e =>
        (Raise (classify e), tr ++ [EvConnect; EvExecute sql_query])
    | Rows column_names rows =>
        (Ret (map (fun r => Dict.of_pairs (zip column_names r)) rows),
         tr ++ [EvConnect; EvExecute sql_query])
    end.

End SafeConnector.

(** ** Regular expressions: the fragment of Python's [re] the repository uses

    A backtracking matcher in continuation-passing style, with the
    priorities of Python's engine: a greedy quantifier tries the longest
    repetition first, a lazy one the shortest, an alternation its left
    branch first.  Quantifiers range over character classes, as in the
    three patterns of the repository, which have at most one capturing
    group each. *)
Module Re.

Inductive regex : Type :=
| Eps
| Chr (p : ascii -> bool)
| Seq (r1 r2 : regex)
| Alt (r1 r2 : regex)
| Rep (greedy : bool) (p : ascii -> bool) (lo : nat) (hi : option nat)
| Group (r : regex).

Definition may_take (hi : option nat) : bool :=
  match hi with
  | Some O => false
  | _ => true
  end.

Definition dec (hi : option nat) : option nat := option_map pred hi.

Section Matcher.
Variable R : Type.

(** [p{lo,hi}] followed by the continuation [k]. *)
Fixpoint rep (greedy : bool) (p : ascii -> bool) (lo : nat) (hi : option nat)
    (s : text) (k : text -> option R) {struct s} : option R :=
  match lo with
  | S lo' =>
      match s with
      | a :: t => if p a && may_take hi then rep greedy p lo' (dec hi) t k else None
      | [] => None
      end
  | O =>
      if greedy then
        match
          match s with
          | a :: t => if p a && may_take hi then rep greedy p 0 (dec hi) t k else None
          | [] => None
          end
        with
        | Some x => Some x
        | None => k s
        end
      else
        match k s with
        | Some x => Some x
        | None =>
            match s with
            | a :: t => if p a && may_take hi then rep greedy p 0 (dec hi) t k else None
            | [] => None
            end
        end
  end.

(** [bt r s g k]: match [r] at the start of [s], then continue with [k]
    on the rest of the input; [g] is the text of group 1 so far. *)
Fixpoint bt (r : regex) (s : text) (g : option text)
    (k : text -> option text -> option R) {struct r} : option R :=
  match r with
  | Eps => k s g
  | Chr p =>
      match s with
      | a :: t => if p a then k t g else None
      | [] => None
      end
  | Seq r1 r2 => bt r1 s g (fun s' g' => bt r2 s' g' k)
  | Alt r1 r2 =>
      match bt r1 s g k with
      | Some x => Some x
      | None => bt r2 s g k
      end
  | Rep greedy p lo hi => rep greedy p lo hi s (fun s' => k s' g)
  | Group r' =>
      bt r' s g (fun s' _ => k s' (Some (firstn (length s - length s') s)))
  end.

End Matcher.

(** A match anchored at the start of [s]: the number of characters
    matched and the text of group 1. *)
Definition match_at (r : regex) (s : text) : option (nat * option text) :=
  bt r s None (fun s' g => Some (length s - length s', g)).

(** [re.search(r, s)]: the leftmost match, as (start, length, group 1). *)
Fixpoint search_from (r : regex) (s : text) (i : nat)
    : option (nat * nat * option text) :=
  match match_at r s with
  | Some (n, g) => Some (i, n, g)
  | None =>
      match s with
      | [] => None
      | _ :: t => search_from r t (S i)
      end
  end.

Definition search (r : regex) (s : text) : option (nat * nat * option text) :=
  search_from r s 0.

Definition found {A : Type} (o : option A) : bool :=
  match o with
  | Some _ => true
  | None => false
  end.

(** [re.sub(r, repl, s)] for a replacement text without escapes.  The
    matches are taken leftmost first and do not overlap; [skip] counts
    the characters of the current match that are still to be dropped.
    An empty match inserts [repl] and copies the next character. *)
Fixpoint sub_from (r : regex) (repl : text) (s : text) (skip : nat) : text :=
  match s with
  | [] =>
      match skip, match_at r [] with
      | O, Some _ => repl
      | _, _ => []
      end
  | c :: t =>
      match skip with
      | S n => sub_from r repl t n
      | O =>
          match match_at r s with
          | Some (S n, _) => repl ++ sub_from r repl t n
          | Some (O, _) => repl ++ c :: sub_from r repl t 0
          | None => c :: sub_from r repl t 0
          end
      end
  end.

Definition sub (r : regex) (repl : text) (s : text) : text :=
  sub_from r repl s 0.

(** Pattern syntax. *)
Definition chr (a : ascii) : regex := Chr (Ascii.eqb a).

(** [re.escape(w)] *)
Fixpoint literal (w : text) : regex :=
  match w with
  | [] => Eps
  | a :: w' => Seq (chr a) (literal w')
  end.

(** [re.escape(w)] under [re.IGNORECASE] *)
Fixpoint literal_ignorecase (w : text) : regex :=
  match w with
  | [] => Eps
  | a :: w' =>
      Seq (Chr (fun c => Ascii.eqb (Text.lower_char c) (Text.lower_char a)))
          (literal_ignorecase w')
  end.

Definition one_of (cs : text) (c : ascii) : bool := existsb (Ascii.eqb c) cs.
Definition any_char (c : ascii) : bool := true.

Definition star (p : ascii -> bool) : regex := Rep true p 0 None.
Definition lazy_star (p : ascii -> bool) : regex := Rep false p 0 None.
Definition plus (p : ascii -> bool) : regex := Rep true p 1 None.
Definition exactly (n : nat) (p : ascii -> bool) : regex := Rep true p n (Some n).
Definition at_least (n : nat) (p : ascii -> bool) : regex := Rep true p n None.
Definition lazy_opt (p : ascii -> bool) : regex := Rep false p 0 (Some 1).

Fixpoint seqs (rs : list regex) : regex :=
  match rs with
  | [] => Eps
  | [r] => r
  | r :: rs' => Seq r (seqs rs')
  end.

End Re.

(** ** Double-precision floats

    Python's [float] is IEEE 754 binary64; its operations are those of
    the standard library's executable specification.  The conversion of
    an integer rounds to nearest, ties to even, as Python does; Python
    refuses integers from 2^1024 on (OverflowError), which neither a rank
    nor a fusion constant reaches, and the model maps them to infinity. *)
Module Float.

Definition prec : Z := 53.
Definition emax : Z := 1024.

Definition float : Type := spec_float.

(** [float(n)] for an integer [n] of magnitude below [2 ^ 1024]; from
    there on Python raises [OverflowError], where this conversion gives
    an infinity. *)
Definition of_int (n : Z) : float := binary_normalize prec emax n 0 false.

Definition zero : float := S754_zero false.
Definition one : float := of_int 1.

Definition add (x y : float) : float := SFadd prec emax x y.
Definition ltb (x y : float) : bool := SFltb x y.

(** [x / n] for a float [x] and an integer [n]; a zero divisor raises
    [ZeroDivisionError] *)
Definition truediv_int (x : float) (n : Z) : outcome float :=
  if Z.eqb n 0 then Raise ZeroDivisionError
  else Ret (SFdiv prec emax x (of_int n)).

End Float.

(** ** core_logic/hybrid_retriever.py *)

(** [sorted(l, key=key, reverse=True)]: a stable sort in descending key
    order that compares keys with [<] only.  Each element is inserted in
    front of the already sorted elements that followed it, after those
    whose key is greater. *)
Section SortedReverse.
Variables (A K : Type) (lt : K -> K -> bool).

Fixpoint insert_desc (x : A * K) (l : list (A * K)) : list (A * K) :=
  match l with
  | [] => [x]
  | y :: t => if lt (snd x) (snd y) then y :: insert_desc x t else x :: l
  end.

Definition sorted_reverse (key : A -> K) (l : list A) : list A :=
  map fst (fold_right insert_desc [] (map (fun a => (a, key a)) l)).

End SortedReverse.

Module HybridRetriever.
Import Settings.

(** [fused_scores[doc_id]] on a [defaultdict(float)] *)
Definition score_in (fused_scores : Dict.t Float.float) (doc_id : text)
    : Float.float :=
  match Dict.get fused_scores doc_id with
  | Some v => v
  | None => Float.zero
  end.

(** [fused_scores[doc_id] += score] *)
Definition add_score (fused_scores : Dict.t Float.float) (doc_id : text)
    (score : Float.float) : Dict.t Float.float :=
  Dict.set fused_scores doc_id (Float.add (score_in fused_scores doc_id) score).

(** [for rank, doc_id in enumerate(ranks)], from position [rank] on *)
Fixpoint fuse_ranks (k : Z) (ranks : list text) (rank : nat)
    (fused_scores : Dict.t Float.float) : outcome (Dict.t Float.float) :=
  match ranks with
  | [] => Ret fused_scores
  | doc_id :: rest =>
      match Float.truediv_int Float.one (k + Z.of_nat rank + 1) with
      | Raise e => Raise e
      | Ret score => fuse_ranks k rest (S rank) (add_score fused_scores doc_id score)
      end
  end.

(** [for ranks in search_results] *)
Fixpoint fuse_all (k : Z) (search_results : list (list text))
    (fused_scores : Dict.t Float.float) : outcome (Dict.t Float.float) :=
  match search_results with
  | [] => Ret fused_scores
  | ranks :: more =>
      match fuse_ranks k ranks 0 fused_scores with
      | Raise e => Raise e
      | Ret fused_scores' => fuse_all k more fused_scores'
      end
  end.

Definition reciprocal_rank_fusion (search_results : list (list text)) (k : Z)
    : outcome (list text) :=
  match fuse_all k search_results [] with
  | Raise e => Raise e
  | Ret fused_scores =>
      Ret (sorted_reverse Float.ltb (score_in fused_scores) (Dict.keys fused_scores))
  end.

(** The two search providers and the content store, as the retriever
    sees them: each call returns or raises. *)
Record providers : Type := {
  vector_query_top_k : text -> nat -> outcome (list text);
  vector_get_content : text -> outcome text;
  keyword_query_top_k : text -> nat -> outcome (list text)
}.

Record chunk : Type := { table_name : text; content : text }.

Definition newline : text := [ascii_of_nat 10].

Definition perform {A : Type} (ev : event) (o : outcome A) (tr : trace)
    : outcome A * trace :=
  (o, tr ++ [ev]).

Definition semantic_search (p : providers) (query : text) (tr : trace)
    : outcome (list text) * trace :=
  perform (EvSemanticSearch query) (vector_query_top_k p query K_SEARCH) tr.

Definition keyword_search (p : providers) (query : text) (tr : trace)
    : outcome (list text) * trace :=
  perform (EvKeywordSearch query) (keyword_query_top_k p query K_SEARCH) tr.

Definition fetch_full_schema_content (p : providers) (table_name : text)
    (tr : trace) : outcome text * trace :=
  match perform (EvGetContent table_name) (vector_get_content p table_name) tr with
  | (Raise e, tr') => (Raise e, tr')
  | (Ret [], tr') =>
      (Ret ("# Table: " ++ table_name ++ newline ++
            "Error: Schema content missing from index."), tr')
  | (Ret content, tr') => (Ret content, tr')
  end.

(** The aggregation loop of [retrieve_schema_chunks]. *)
Fixpoint aggregate (p : providers) (fused_ranks : list text)
    (current_token_count : nat) (retrieved_context : list chunk) (tr : trace)
    : outcome (list chunk * bool) * trace :=
  match fused_ranks with
  | [] => (Ret (retrieved_context, false), tr)
  | table_name :: rest =>
      match fetch_full_schema_content p table_name tr with
      | (Raise e, tr') => (Raise e, tr')
      | (Ret schema_content, tr') =>
          let content_tokens := length schema_content / 4 in
          if current_token_count + content_tokens <=? TOKEN_BUDGET then
            aggregate p rest (current_token_count + content_tokens)
              (retrieved_context ++
               [{| table_name := table_name; content := schema_content |}]) tr'
          else (Ret (retrieved_context, true), tr')
      end
  end.

Definition retrieve_schema_chunks (p : providers) (query : text) (tr : trace)
    : outcome (list chunk * bool) * trace :=
  match semantic_search p query tr with
  | (Raise e, tr1) => (Raise e, tr1)
  | (Ret vector_ranks, tr1) =>
      match keyword_search p query tr1 with
      | (Raise e, tr2) => (Raise e, tr2)
      | (Ret keyword_ranks, tr2) =>
          match reciprocal_rank_fusion [vector_ranks; keyword_ranks] RRF_K with
          | Raise e => (Raise e, tr2)
          | Ret fused_ranks => aggregate p fused_ranks 0 [] tr2
          end
      end
  end.

End HybridRetriever.

(** ** config/prompts.py *)
Module Prompts.
Import Settings.

(** [SYSTEM_PROMPT_TEMPLATE.format(schema_context=...)] *)
Definition SYSTEM_PROMPT_TEMPLATE (schema_context : text) : text :=
  "
You are SchemaLink, an expert PostgreSQL query generator. 
Your sole task is to generate a single, accurate, and secure PostgreSQL SELECT statement 
that answers the user's question, strictly based on the provided schema context.

**CRUCIAL CONSTRAINTS:**
1.  **SQL DIALECT:** You MUST use **PostgreSQL** syntax only. DO NOT use MySQL, SQLite, or T-SQL syntax.
2.  **SECURITY:** Your query MUST start with 'SELECT' or 'WITH'. Never generate INSERT, UPDATE, DELETE, or DROP statements.
3.  **SCHEMA ACCURACY:** Use only the table and column names provided in the context below.
4.  **FOREIGN KEYS (JOINs):** Explicitly reference the Foreign Key (FK) descriptions to construct accurate JOIN statements.

**SELF-CRITIQUE STEP (LLD Requirement):**
Before outputting, analyze the query: If you select columns from two different tables, you MUST ensure they are correctly joined using the specified foreign keys.

**OUTPUT FORMAT:**
You must wrap the final, executable SQL query within the designated start and end tokens.

" ++ SQL_START_TOKEN ++ "
<Your PostgreSQL SELECT query here>
" ++ SQL_END_TOKEN ++ "

--- SCHEMA CONTEXT ---
" ++ schema_context ++ "
".

(** [CRITIC_PROMPT_TEMPLATE.format(failed_query=..., error_message=...)] *)
Definition CRITIC_PROMPT_TEMPLATE (failed_query error_message : text) : text :=
  "
The previous SQL query you generated failed execution with a database error.
You have **one chance** to revise and correct the query.

**FAILED QUERY:**
" ++ failed_query ++ "

**DATABASE ERROR MESSAGE:**
" ++ error_message ++ "

Carefully analyze the error message. It usually indicates a missing column, a forgotten JOIN, or incorrect syntax.
Based on the original user question and the provided schema (still valid), output the single, corrected PostgreSQL query.

**OUTPUT FORMAT:**
" ++ SQL_START_TOKEN ++ "
<Your corrected PostgreSQL SELECT query here>
" ++ SQL_END_TOKEN ++ "
".

End Prompts.

(** ** core_logic/llm_agent.py *)
Module LlmAgent.
Import Settings.

(** The text generator: its response to a prompt, given the number of
    generations requested before. *)
Definition generator : Type := nat -> text -> text.

Inductive status_t : Type := success | failure.

(** The dictionary [run] returns: [status] and [answer] are always
    present, the other keys only once they have been assigned. *)
Record run_result : Type := {
  status : status_t;
  answer : text;
  error_details : option (text * text);   (* query, error *)
  sql_query : option text;
  result_set : option (list row)
}.

Definition failure_result (answer : text) : run_result :=
  {| status := failure; answer := answer; error_details := None;
     sql_query := None; result_set := None |}.

Definition set_answer (r : run_result) (a : text) : run_result :=
  {| status := status r; answer := a; error_details := error_details r;
     sql_query := sql_query r; result_set := result_set r |}.

Definition set_error_details (r : run_result) (d : text * text) : run_result :=
  {| status := status r; answer := answer r; error_details := Some d;
     sql_query := sql_query r; result_set := result_set r |}.

Definition set_success (r : run_result) (sql : text) (rows : list row)
    : run_result :=
  {| status := success; answer := answer r; error_details := error_details r;
     sql_query := Some sql; result_set := Some rows |}.

(** [DynamicPromptBuilder.build_sql_prompt] *)
Definition join_lines (l : list text) : text :=
  match l with
  | [] => []
  | x :: rest => x ++ flat_map (fun y => HybridRetriever.newline ++ y) rest
  end.

Definition build_sql_prompt (user_query : text)
    (schema_context_list : list HybridRetriever.chunk) (is_retry : bool)
    (error_details : option (text * text)) : text :=
  let schema_context_str :=
    join_lines (map HybridRetriever.content schema_context_list) in
  match is_retry, error_details with
  | true, Some (failed_query, error_message) =>
      Prompts.CRITIC_PROMPT_TEMPLATE failed_query error_message ++
      "
--- SCHEMA CONTEXT (Original) ---
" ++ schema_context_str ++ "
--- USER QUESTION (Original) ---
" ++ user_query
  | _, _ =>
      Prompts.SYSTEM_PROMPT_TEMPLATE schema_context_str ++ "
--- USER QUESTION ---
" ++ user_query
  end.

(** The pattern of [_parse_sql], compiled with DOTALL and IGNORECASE. *)
Definition sql_pattern : Re.regex :=
  Re.seqs [Re.literal_ignorecase SQL_START_TOKEN;
           Re.star Text.is_space;
           Re.Group (Re.lazy_star Re.any_char);
           Re.star Text.is_space;
           Re.literal_ignorecase SQL_END_TOKEN].

Definition parse_sql (response_text : text) : option text :=
  match Re.search sql_pattern response_text with
  | Some (_, _, Some group1) => Some (Text.replace (Text.strip group1) "`" "")
  | _ => None
  end.

(** [not sql_query], for an optional text *)
Definition falsy (sql_query : option text) : bool :=
  match sql_query with
  | None | Some [] => true
  | Some (_ :: _) => false
  end.

Definition generate_sql (llm : generator) (user_query : text)
    (schema_context : list HybridRetriever.chunk) (attempt : nat)
    (error_details : option (text * text)) (tr : trace)
    : (option text * text) * trace :=
  let is_retry := 0 <? attempt in
  let prompt := build_sql_prompt user_query schema_context is_retry error_details in
  let response_text := llm (count is_generate tr) prompt in
  let tr' := tr ++ [EvGenerate prompt] in
  let sql_query := parse_sql response_text in
  if falsy sql_query then ((None, response_text), tr')
  else ((sql_query, response_text), tr').

(** The collaborators of one agent. *)
Record environment : Type := {
  retriever : HybridRetriever.providers;
  db_connector : SafeConnector.engine;
  llm_client : generator
}.

(** The [for attempt in range(MAX_RETRY_COUNT + 1)] loop of [run], over
    the attempts still to be made. *)
Fixpoint attempt_loop (env : environment) (user_query : text)
    (schema_context : list HybridRetriever.chunk) (attempts : list nat)
    (full_result : run_result) (tr : trace) : outcome run_result * trace :=
  match attempts with
  | [] => (Ret full_result, tr)
  | attempt :: later =>
      let '((sql_query, llm_response), tr1) :=
        generate_sql (llm_client env) user_query schema_context attempt
          (error_details full_result) tr in
      match sql_query with
      | None | Some [] =>
          attempt_loop env user_query schema_context later
            (set_answer full_result
               ("LLM failed to generate parseable SQL after " ++
                Text.of_nat attempt ++ " attempts.")) tr1
      | Some sql =>
          match SafeConnector.execute_read_only_query (db_connector env) sql tr1 with
          | (Ret rows, tr2) => (Ret (set_success full_result sql rows), tr2)
          | (Raise (PermissionError error_message), tr2) =>
              (Ret (failure_result
                      ("Query execution terminated by security guardrail: " ++
                       error_message)), tr2)
          | (Raise (TimeoutError error_message), tr2) =>
              (Ret (failure_result error_message), tr2)
          | (Raise (ValueError error_message), tr2) =>
              let full_result' :=
                set_error_details full_result (sql, error_message) in
              if attempt =? MAX_RETRY_COUNT then
                (Ret (set_answer full_result'
                        ("SQL failed execution after max retries. Final error: " ++
                         error_message)), tr2)
              else
                attempt_loop env user_query schema_context later full_result' tr2
          | (Raise e, tr2) => (Raise e, tr2)
          end
      end
  end.

Definition run (env : environment) (user_query : text) (tr : trace)
    : outcome run_result * trace :=
  let full_result :=
    failure_result "Could not generate or execute a valid query." in
  match HybridRetriever.retrieve_schema_chunks (retriever env) user_query tr with
  | (Raise e, tr1) => (Raise e, tr1)
  | (Ret (schema_context, truncation_warning), tr1) =>
      match schema_context with
      | [] => (Ret (failure_result "Schema retrieval failed. Context is empty."), tr1)
      | _ :: _ =>
          attempt_loop env user_query schema_context
            (seq 0 (MAX_RETRY_COUNT + 1)) full_result tr1
      end
  end.

End LlmAgent.

(** ** core_logic/synthesis_module.py *)
Module SynthesisModule.

(** [[a-zA-Z0-9._%+-]] *)
Definition email_local (c : ascii) : bool :=
  Text.is_alnum c || Re.one_of "._%+-" c.

(** [[a-zA-Z0-9.-]] *)
Definition email_domain (c : ascii) : bool :=
  Text.is_alnum c || Re.one_of ".-" c.

(** [[-\.\s]] *)
Definition phone_separator (c : ascii) : bool :=
  Re.one_of "-." c || Text.is_space c.

(** [[a-zA-Z0-9._%+-]+@[a-zA-Z0-9.-]+\.[a-zA-Z]{2,}] *)
Definition EMAIL : Re.regex :=
  Re.seqs [Re.plus email_local; Re.chr "@"; Re.plus email_domain;
           Re.chr "."; Re.at_least 2 Text.is_alpha].

(** [(\d{3}[-\.\s]??\d{3}[-\.\s]??\d{4}|\(\d{3}\)\s*\d{3}[-\.\s]??\d{4}|\d{7})] *)
Definition PHONE : Re.regex :=
  Re.Group
    (Re.Alt
       (Re.seqs [Re.exactly 3 Text.is_digit; Re.lazy_opt phone_separator;
                 Re.exactly 3 Text.is_digit; Re.lazy_opt phone_separator;
                 Re.exactly 4 Text.is_digit])
       (Re.Alt
          (Re.seqs [Re.chr "("; Re.exactly 3 Text.is_digit; Re.chr ")";
                    Re.star Text.is_space; Re.exactly 3 Text.is_digit;
                    Re.lazy_opt phone_separator; Re.exactly 4 Text.is_digit])
          (Re.exactly 7 Text.is_digit))).

Definition pii_patterns : list (text * Re.regex) :=
  [("EMAIL", EMAIL); ("PHONE", PHONE)].

(** One iteration of the loop of [_mask_value]: the pattern is searched
    in the original text and substituted in the text masked so far. *)
Definition mask_step (original : text) (masked_text : text)
    (entry : text * Re.regex) : text :=
  let '(pii_type, pattern) := entry in
  if Re.found (Re.search pattern original)
  then Re.sub pattern ("[MASKED_" ++ pii_type ++ "]") masked_text
  else masked_text.

Definition mask_value (value : text) : text :=
  let masked_text := fold_left (mask_step value) pii_patterns value in
  if Text.contains "address" (Text.lower value) ||
     Text.contains "name" (Text.lower value)
  then Text.replace value "John Doe" "[MASKED_NAME]"
  else masked_text.

Definition scrub_value (v : value) : value :=
  match v with
  | VStr s => VStr (mask_value s)
  | other => other
  end.

(** The inner loop of [scrub_results]: [new_row[key] = ...] for every
    item of the row, starting from the empty dictionary. *)
Definition scrub_row (r : row) : row :=
  fold_left (fun new_row kv => Dict.set new_row (fst kv) (scrub_value (snd kv)))
    r [].

Definition scrub_results (result_set : list row) : list row :=
  map scrub_row result_set.

End SynthesisModule.

(** ** ingestion/indexing.py and the wiring of main.py

    The mock stores and the mock generator of the repository, used as
    concrete collaborators. *)
Module Indexing.

Definition store : Type := Dict.t text.

Definition mentions (word query : text) : bool :=
  Text.contains word (Text.lower query).

(** [MockVectorDB.query_top_k] *)
Definition vector_query_top_k (st : store) (query : text) (k : nat) : list text :=
  if mentions "sales" query || mentions "revenue" query then
    ["Orders"; "Products"; "Customers"; "Shipments"]
  else if mentions "user" query || mentions "account" query then
    ["Customers"; "Orders"; "SalesLogs"; "Employees"]
  else firstn k (Dict.keys st).

(** [MockVectorDB.get_content] *)
Definition get_content (st : store) (table_name : text) : text :=
  match Dict.get st table_name with
  | Some c => c
  | None => []
  end.

(** [MockKeywordIndex.query_top_k] *)
Definition keyword_query_top_k (st : store) (query : text) (k : nat) : list text :=
  if mentions "id" query || mentions "customer" query then
    ["Customers"; "Orders"; "Employees"; "Shipments"]
  else if mentions "amount" query then
    ["Orders"; "Products"; "SalesLogs"; "Customers"]
  else firstn k (rev (Dict.keys st)).

Definition mock_providers (st : store) : HybridRetriever.providers :=
  {| HybridRetriever.vector_query_top_k := fun q k => Ret (vector_query_top_k st q k);
     HybridRetriever.vector_get_content := fun t => Ret (get_content st t);
     HybridRetriever.keyword_query_top_k := fun q k => Ret (keyword_query_top_k st q k) |}.

(** The two schema documents [main.initialize_system] ingests. *)
Definition simulated_store : store :=
  Dict.of_pairs
    [("Customers",
      "# Table: Customers...
Columns: customer_id, customer_name, account_type.");
     ("Orders",
      "# Table: Orders...
Columns: order_id, customer_id, total_amount.
JOINs: Orders links to Customers via customer_id.")].

End Indexing.

Module Scenarios.
Import Settings SafeConnector LlmAgent.

(** [MockLLMClient.generate]; [error_mode] is reset by the first call. *)
Definition mock_llm (error_mode : bool) : generator :=
  fun calls prompt =>
    if error_mode && (calls =? 0) then
      SQL_START_TOKEN ++ "SELECT non_existent_column FROM Orders;" ++ SQL_END_TOKEN
    else if Text.contains "key accounts" prompt then
      SQL_START_TOKEN ++
      "SELECT T1.total_amount, T2.customer_name FROM Orders T1 JOIN Customers T2 ON T1.customer_id = T2.customer_id WHERE T2.account_type = 'Key Account';" ++
      SQL_END_TOKEN
    else
      SQL_START_TOKEN ++ "SELECT SUM(total_amount) FROM Orders;" ++ SQL_END_TOKEN.

(** A generator that asks for a deletion. *)
Definition deleting_llm : generator :=
  fun _ _ => SQL_START_TOKEN ++ "DELETE FROM Orders;" ++ SQL_END_TOKEN.

(** A database without the column [non_existent_column]. *)
Definition orders_db : engine :=
  fun _ sql =>
    if Text.contains "non_existent_column" sql then
      ExecuteRaises
        (OperationalError "column non_existent_column does not exist"
                          "OperationalError('column non_existent_column does not exist')")
    else Rows ["sum"] [[VInt 1250]].

(** A database whose statements run into the statement timeout. *)
Definition slow_db : engine :=
  fun _ _ =>
    ExecuteRaises
      (OperationalError "canceling statement due to statement timeout"
                        "OperationalError('canceling statement due to statement timeout')").

(** A database whose driver fails with an error of another class. *)
Definition broken_db : engine :=
  fun _ _ => ExecuteRaises (OtherException "InterfaceError('connection already closed')").

(** A database that cannot be reached. *)
Definition unreachable_db : engine :=
  fun _ _ => ConnectRaises (OtherException "ConnectionRefusedError(111, 'Connection refused')").

(** The context retrieval builds from the chunk of the table Orders. *)
Definition orders_context : list HybridRetriever.chunk :=
  [{| HybridRetriever.table_name := "Orders";
      HybridRetriever.content :=
        Indexing.get_content Indexing.simulated_store "Orders" |}].

Definition env_with (db : engine) (llm : generator) : environment :=
  {| retriever := Indexing.mock_providers Indexing.simulated_store;
     db_connector := db;
     llm_client := llm |}.

(** A vector store whose search fails. *)
Definition failing_vector_providers : HybridRetriever.providers :=
  {| HybridRetriever.vector_query_top_k :=
       fun _ _ => Raise (ExternalError "vector store unavailable");
     HybridRetriever.vector_get_content :=
       fun t => Ret (Indexing.get_content Indexing.simulated_store t);
     HybridRetriever.keyword_query_top_k :=
       fun q k => Ret (Indexing.keyword_query_top_k Indexing.simulated_store q k) |}.

(** A keyword index whose search fails. *)
Definition failing_keyword_providers : HybridRetriever.providers :=
  {| HybridRetriever.vector_query_top_k :=
       fun q k => Ret (Indexing.vector_query_top_k Indexing.simulated_store q k);
     HybridRetriever.vector_get_content :=
       fun t => Ret (Indexing.get_content Indexing.simulated_store t);
     HybridRetriever.keyword_query_top_k :=
       fun _ _ => Raise (ExternalError "keyword index unavailable") |}.

End Scenarios.

(** ** More of Python's [str]: [split] and [format] *)
Module PyStr.

(** The double quote character. *)
Definition dq : text := [ascii_of_nat 34].

(** [s.split(sep)] for a non-empty [sep]: the separators are taken
    leftmost first and do not overlap.  [cur] holds, reversed, the part
    being read; [skip] counts the characters of the current separator
    still to be dropped. *)
Fixpoint split_from (sep s : text) (skip : nat) (cur : text) : list text :=
  match s with
  | [] => [rev cur]
  | c :: t =>
      match skip with
      | S n => split_from sep t n cur
      | O =>
          if Text.startswith s sep
          then rev cur :: split_from sep t (length sep - 1) []
          else split_from sep t 0 (c :: cur)
      end
  end.

Definition split (s sep : text) : list text := split_from sep s 0 [].

(** The name of a replacement field, read from just after its opening
    brace up to the closing brace.  [None]: the field is not closed, or
    it uses syntax other than a plain name (conversion, format
    specification, attribute or index access), which the templates of
    the repository do not. *)
Fixpoint field_name (s : text) : option text :=
  match s with
  | [] => None
  | c :: t =>
      if Ascii.eqb c "}" then Some []
      else if Re.one_of "{!:.[" c then None
      else option_map (cons c) (field_name t)
  end.

(** A field that refers to a positional argument: empty or a number. *)
Definition positional (name : text) : bool := forallb Text.is_digit name.

(** [template.format(...)] with keyword arguments [kwargs].  [None]
    stands for the exceptions of
    [str.format]: a single brace (ValueError), a positional field
    (IndexError, no positional argument is ever passed), a name that is
    not among the keyword arguments (KeyError). *)
Fixpoint format_from (kwargs : Dict.t text) (s : text) (skip : nat)
    : option text :=
  match s with
  | [] => Some []
  | c :: t =>
      match skip with
      | S n => format_from kwargs t n
      | O =>
          if Ascii.eqb c "{" then
            match t with
            | "{"%char :: _ => option_map (cons c) (format_from kwargs t 1)
            | _ =>
                match field_name t with
                | None => None
                | Some name =>
                    if positional name then None
                    else
                      match Dict.get kwargs name with
                      | None => None
                      | Some v =>
                          option_map (app v)
                            (format_from kwargs t (S (length name)))
                      end
                end
            end
          else if Ascii.eqb c "}" then
            match t with
            | "}"%char :: _ => option_map (cons c) (format_from kwargs t 1)
            | _ => None
            end
          else option_map (cons c) (format_from kwargs t 0)
      end
  end.

Definition format (template : text) (kwargs : Dict.t text) : option text :=
  format_from kwargs template 0.

End PyStr.

(** ** core_logic/synthesis_module.py: [SynthesisLLM]

    [json_dumps] stands for [json.dumps(rows, indent=2)] of the standard
    library.  A result of [None] stands for an exception. *)
Module SynthesisLLM.
Import PyStr.

(** The two templates of config/prompts.py that are plain strings: their
    doubled braces reach [str.format] as they are written. *)
Definition SYNTHESIS_PROMPT_TEMPLATE : text :=
  "
A user asked the question: " ++ dq ++ "{{user_question}}" ++ dq ++ "
The executed SQL query returned the following result set (JSON format):
{{result_set_json}}

**TASK:** Synthesize a concise, natural language answer for the user.

**GROUNDEDNESS CONSTRAINT (Extremist LLD Requirement):**
Your answer must ONLY be derived from the data presented in the result set. 
DO NOT infer, invent, or speculate about future sales, trends, or external factors not present in the data. 
If the data does not explicitly contain the full answer, you must state: " ++ dq ++
  "The result set does not contain sufficient information to fully answer that." ++ dq ++ "
".

Definition EMPTY_RESULT_PROMPT_TEMPLATE : text :=
  "
The query executed successfully but returned zero rows. 
The user's question was: " ++ dq ++ "{{user_question}}" ++ dq ++ "
Based on this outcome, explain clearly to the user why no data was found, without making assumptions about why the query failed (it did not fail, it was just empty). 
Example: " ++ dq ++ "The data shows no sales matching your criteria for Q3." ++ dq ++ "
".

Section Synthesis.
Variable json_dumps : list row -> text.

(** The prompt [synthesize_answer] builds in its first conditional. *)
Definition synthesis_prompt (user_question : text) (scrubbed_results : list row)
    : option text :=
  match scrubbed_results with
  | [] =>
      format EMPTY_RESULT_PROMPT_TEMPLATE [("user_question", user_question)]
  | _ :: _ =>
      format SYNTHESIS_PROMPT_TEMPLATE
        [("user_question", user_question);
         ("result_set_json", json_dumps scrubbed_results)]
  end.

Definition synthesize_answer (user_question : text) (result_set : list row)
    : option text :=
  let scrubbed_results := SynthesisModule.scrub_results result_set in
  match synthesis_prompt user_question scrubbed_results with
  | None => None
  | Some prompt =>
      match scrubbed_results with
      | _ :: _ =>
          Some ("Answer successfully synthesized. The query results were:
```json
" ++ json_dumps scrubbed_results ++ "
```")
      | [] =>
          match nth_error (split prompt "Example:") 1 with
          | None => None
          | Some part => Some ("**No Results Found:** " ++ Text.strip part)
          end
      end
  end.

End Synthesis.

End SynthesisLLM.

(** ** core_logic/data_models.py: the schema records *)
Module DataModels.

Record ColumnSchema : Type := {
  name : text;
  data_type : text;
  business_context : text
}.

Record ForeignKey : Type := {
  source_table : text;
  source_column : text;
  target_table : text;
  target_column : text;
  description : text
}.

Record TableSchema : Type := {
  table_name : text;
  columns : list ColumnSchema;
  foreign_keys : list ForeignKey;
  descriptive_text : text
}.

End DataModels.

(** ** ingestion/indexing.py: filling the stores *)
Module Indexer.
Import DataModels.

(** [MockVectorDB.add] and [MockKeywordIndex.add] *)
Definition add (st : Indexing.store) (table_name content : text)
    : Indexing.store :=
  Dict.set st table_name content.

(** [SchemaVectorDBIndexer.ingest_schema], on the pair of the vector
    store and the keyword store. *)
Definition ingest_schema (stores : Indexing.store * Indexing.store)
    (schemas : list TableSchema) : Indexing.store * Indexing.store :=
  fold_left
    (fun st s =>
       (add (fst st) (table_name s) (descriptive_text s),
        add (snd st) (table_name s) (descriptive_text s)))
    schemas stores.

End Indexer.

(** ** ingestion/introspection.py

    The reflection interface of the database is an oracle; a result of
    [None] stands for an exception. *)
Module Introspection.
Import DataModels.

(** One entry of [inspector.get_foreign_keys(table)]. *)
Record fk_data : Type := {
  referred_table : text;
  constrained_columns : list text;
  referred_columns : list text
}.

(** One entry of [inspector.get_columns(table)]: the name of the column
    and [str(col['type'])]. *)
Record column_data : Type := {
  col_name : text;
  col_type : text
}.

Record inspector : Type := {
  get_table_names : option (list text);
  get_columns : text -> option (list column_data);
  get_foreign_keys : text -> option (list fk_data)
}.

(** [_get_fk_description]; indexing an empty list raises. *)
Definition get_fk_description (fk : fk_data) (source_table : text)
    : option ForeignKey :=
  let target_table := referred_table fk in
  match constrained_columns fk with
  | [] => None
  | source_column :: _ =>
      match referred_columns fk with
      | [] => None
      | target_column :: _ =>
          Some {| DataModels.source_table := source_table;
                  DataModels.source_column := source_column;
                  DataModels.target_table := target_table;
                  DataModels.target_column := target_column;
                  description :=
                    "The '" ++ source_table ++ "' table is linked to the '" ++
                    target_table ++ "' table " ++
                    "via the Foreign Key relationship between its column '" ++
                    source_column ++ "' " ++
                    "and the target column '" ++ target_column ++ "'." |}
      end
  end.

(** [_add_business_context] *)
Definition add_business_context (col_name raw_context : text) : text :=
  if Dict.key_eqb (Text.lower col_name) "prod_cat" then
    "Product category, used for sales reporting and inventory segmentation."
  else if Dict.key_eqb (Text.lower col_name) "cust_id" then
    "Unique identifier for the customer, used to track loyalty."
  else raw_context.

(** [_generate_descriptive_text] *)
Definition column_line (c : ColumnSchema) : text :=
  "- " ++ name c ++ " (" ++ data_type c ++ "): " ++ business_context c.

Definition fk_line (fk : ForeignKey) : text := "- " ++ description fk.

Definition generate_descriptive_text (table_name : text)
    (columns : list ColumnSchema) (fks : list ForeignKey) : text :=
  let col_desc := LlmAgent.join_lines (map column_line columns) in
  let fk_desc := LlmAgent.join_lines (map fk_line fks) in
  "
        # Table: " ++ table_name ++ "
        ## Descriptive Schema for SQL Generation
        
        ## Columns and Types:
        " ++ col_desc ++ "
        
        ## Foreign Key Relationships (JOINs):
        " ++
  match fks with
  | [] => "No explicit foreign key links defined in schema metadata."
  | _ :: _ => fk_desc
  end ++ "
        ".

(** [[f(x) for x in l]] for an [f] that may raise *)
Fixpoint map_option {A B : Type} (f : A -> option B) (l : list A)
    : option (list B) :=
  match l with
  | [] => Some []
  | x :: t =>
      match f x with
      | None => None
      | Some y => option_map (cons y) (map_option f t)
      end
  end.

(** The body of the loop of [get_full_schema], for one table. *)
Definition table_schema (insp : inspector) (table_name : text)
    : option TableSchema :=
  match get_columns insp table_name with
  | None => None
  | Some columns_data =>
      match get_foreign_keys insp table_name with
      | None => None
      | Some fks_data =>
          let columns :=
            map (fun col =>
                   {| name := col_name col;
                      data_type := col_type col;
                      business_context :=
                        add_business_context (col_name col)
                          ("Column data type is " ++ col_type col ++ ".") |})
                columns_data in
          match map_option (fun fk => get_fk_description fk table_name)
                  fks_data with
          | None => None
          | Some foreign_keys =>
              Some {| DataModels.table_name := table_name;
                      DataModels.columns := columns;
                      DataModels.foreign_keys := foreign_keys;
                      descriptive_text :=
                        generate_descriptive_text table_name columns
                          foreign_keys |}
          end
      end
  end.

(** [get_full_schema] *)
Definition get_full_schema (insp : inspector) : option (list TableSchema) :=
  match get_table_names insp with
  | None => None
  | Some table_names => map_option (table_schema insp) table_names
  end.

End Introspection.

(** ** main.py *)
Module Main.
Import DataModels LlmAgent.

(** The schemas [initialize_system] ingests. *)
Definition simulated_schemas : list TableSchema :=
  [{| table_name := "Customers";
      columns :=
        [{| name := "customer_id"; data_type := "INT";
            business_context := "Primary key." |};
         {| name := "customer_name"; data_type := "VARCHAR";
            business_context := "Full name of the customer." |};
         {| name := "account_type"; data_type := "VARCHAR";
            business_context := "e.g., 'Key Account' or 'Standard'." |}];
      foreign_keys := [];
      descriptive_text := "# Table: Customers...
Columns: customer_id, customer_name, account_type." |};
   {| table_name := "Orders";
      columns :=
        [{| name := "order_id"; data_type := "INT";
            business_context := "Primary key." |};
         {| name := "customer_id"; data_type := "INT";
            business_context := "FK to Customers table." |};
         {| name := "total_amount"; data_type := "NUMERIC";
            business_context := "Total sale amount." |}];
      foreign_keys :=
        [{| source_table := "Orders"; source_column := "customer_id";
            target_table := "Customers"; target_column := "customer_id";
            description := "Orders links to Customers." |}];
      descriptive_text := "# Table: Orders...
Columns: order_id, customer_id, total_amount.
JOINs: Orders links to Customers via customer_id." |}].

(** The two stores [initialize_system] fills, starting from empty ones. *)
Definition initialize_system : Indexing.store * Indexing.store :=
  Indexer.ingest_schema ([], []) simulated_schemas.



End Main.

(** * Proofs *)

Module SafeConnectorProofs.
Import SafeConnector.

Definition is_db_event (e : event) : bool := is_connect e || is_execute e.

Lemma count_app p (a b : trace) : count p (a ++ b) = count p a + count p b.
Proof. unfold count. now rewrite filter_app, length_app. Qed.

(** C1. A statement whose trimmed, upper-cased form begins neither with
    SELECT nor with WITH makes [execute_read_only_query] raise
    [PermissionError] (the SecurityViolation of the specification); the
    only effect is the security alert, so no connection is opened and
    nothing is executed, whatever the engine would have done.  The
    statement [DROP TABLE Orders;] is such a statement. *)
Theorem security_violation_before_any_connection :
  (forall (db : engine) (sql_query : text) (tr : trace),
      Text.startswith (Text.upper (Text.strip sql_query)) "SELECT" = false ->
      Text.startswith (Text.upper (Text.strip sql_query)) "WITH" = false ->
      execute_read_only_query db sql_query tr
      = (Raise (PermissionError security_message),
         tr ++ [EvSecurityAlert sql_query])
      /\ count is_db_event (snd (execute_read_only_query db sql_query tr))
         = count is_db_event tr)
  /\ (forall (db : engine) (tr : trace),
      fst (execute_read_only_query db "DROP TABLE Orders;" tr)
      = Raise (PermissionError security_message)).
Proof.
  split.
  - intros db sql_query tr Hs Hw.
    unfold execute_read_only_query, passes_security_check.
    rewrite Hs, Hw. cbn [orb negb]. split; [reflexivity|].
    cbn [snd]. rewrite count_app. cbn. lia.
  - intros db tr. reflexivity.
Qed.

Lemma security_violation_before_any_connection_witness :
  execute_read_only_query (fun _ _ => Rows [] []) "  delete from Orders" []
  = (Raise (PermissionError security_message),
     [EvSecurityAlert "  delete from Orders"]).
Proof.
  apply (proj1 security_violation_before_any_connection
           (fun _ _ => Rows [] []) "  delete from Orders" []);
    reflexivity.
Defined.

(** The exceptions [execute_read_only_query] builds from an engine
    error are never [PermissionError]. *)
Lemma classify_not_permission (e : db_error) (msg : text) :
  classify e <> PermissionError msg.
Proof.
  destruct e as [str_e repr_e | repr_e]; cbn.
  - destruct (Text.contains _ str_e); discriminate.
  - discriminate.
Qed.

Lemma passes_security_check_iff (sql_query : text) :
  passes_security_check sql_query = true <->
  Text.startswith (Text.upper (Text.strip sql_query)) "SELECT" = true \/
  Text.startswith (Text.upper (Text.strip sql_query)) "WITH" = true.
Proof. unfold passes_security_check. now rewrite orb_true_iff. Qed.

(** C10. The security check is a test on the leading characters: when
    the trimmed, upper-cased statement begins with the characters SELECT
    or WITH, [execute_read_only_query] raises no [PermissionError] and
    logs no security alert, it opens a connection, and unless opening
    the connection fails it sends the statement, unchanged, to the
    engine.  The statements [WITHDRAW x] and [SELECTION y] pass the check
    although they do not start with the SQL keywords. *)
Theorem security_check_is_prefix_test :
  (forall (db : engine) (sql_query : text) (tr : trace),
      Text.startswith (Text.upper (Text.strip sql_query)) "SELECT" = true \/
      Text.startswith (Text.upper (Text.strip sql_query)) "WITH" = true ->
      (forall msg, fst (execute_read_only_query db sql_query tr)
                   <> Raise (PermissionError msg))
      /\ (exists rest, snd (execute_read_only_query db sql_query tr)
                       = tr ++ EvConnect :: rest
                       /\ (rest = [] \/ rest = [EvExecute sql_query]))
      /\ ((forall e, db (count is_connect tr) sql_query <> ConnectRaises e) ->
          snd (execute_read_only_query db sql_query tr)
          = tr ++ [EvConnect; EvExecute sql_query]))
  /\ passes_security_check "WITHDRAW x" = true
  /\ passes_security_check "SELECTION y" = true.
Proof.
  split; [|split; reflexivity].
  intros db sql_query tr H. apply passes_security_check_iff in H.
  unfold execute_read_only_query. rewrite H. cbn [negb].
  destruct (db (count is_connect tr) sql_query) as [e | e | cols rows] eqn:E;
    cbn [fst snd]; repeat split.
  - intros msg Hm. injection Hm as Hm. now apply classify_not_permission in Hm.
  - exists []. auto.
  - intros Hn. now destruct (Hn e).
  - intros msg Hm. injection Hm as Hm. now apply classify_not_permission in Hm.
  - exists [EvExecute sql_query]. auto.
  - discriminate.
  - exists [EvExecute sql_query]. auto.
Qed.

Lemma security_check_is_prefix_test_witness :
  snd (execute_read_only_query (fun _ _ => Rows [] []) "withdraw 5 from t" [])
  = [EvConnect; EvExecute "withdraw 5 from t"].
Proof.
  apply (proj1 security_check_is_prefix_test
           (fun _ _ => Rows [] []) "withdraw 5 from t" []).
  - right. reflexivity.
  - intros e. discriminate.
Defined.


End SafeConnectorProofs.

Module LlmAgentProofs.
Import Settings SafeConnector HybridRetriever LlmAgent.
Import SafeConnectorProofs.

(** *** Effects of the steps of the loop *)

Lemma generate_sql_trace llm q ctx attempt details tr :
  snd (generate_sql llm q ctx attempt details tr)
  = tr ++ [EvGenerate (build_sql_prompt q ctx (0 <? attempt) details)].
Proof.
  unfold generate_sql. now destruct (falsy _).
Qed.

Lemma generate_sql_some llm q ctx attempt details tr sql resp tr1 :
  generate_sql llm q ctx attempt details tr = ((Some sql, resp), tr1) ->
  sql <> [].
Proof.
  unfold generate_sql.
  destruct (parse_sql _) as [[|c s]|]; cbn; intros H; inversion H; subst.
  discriminate.
Qed.

Lemma count_snoc p (tr : trace) (e : event) :
  count p (tr ++ [e]) = count p tr + (if p e then 1 else 0).
Proof. rewrite count_app. unfold count. cbn. now destruct (p e). Qed.

Lemma execute_generations db sql tr :
  count is_generate (snd (execute_read_only_query db sql tr))
  = count is_generate tr.
Proof.
  unfold execute_read_only_query.
  destruct (negb _); [|destruct (db _ _)]; cbn [snd];
    rewrite count_app; cbn; lia.
Qed.

(** The exceptions [execute_read_only_query] can raise. *)
Inductive connector_exn : exn -> Prop :=
| CePermission : connector_exn (PermissionError security_message)
| CeTimeout : connector_exn (TimeoutError timeout_message)
| CeValue repr_e :
    connector_exn (ValueError ("Database Execution Error: " ++ repr_e))
| CeRuntime repr_e :
    connector_exn
      (RuntimeError ("A general error occurred during database operation: " ++ repr_e)).

Lemma classify_connector_exn e : connector_exn (classify e).
Proof.
  destruct e as [str_e repr_e | repr_e]; cbn.
  - destruct (Text.contains _ str_e); constructor.
  - constructor.
Qed.

Lemma execute_raises db sql tr e tr' :
  execute_read_only_query db sql tr = (Raise e, tr') -> connector_exn e.
Proof.
  unfold execute_read_only_query.
  destruct (negb _).
  - intros H. inversion H. constructor.
  - destruct (db _ _); intros H; inversion H; apply classify_connector_exn.
Qed.

(** An engine that raises nothing but [OperationalError]. *)
Definition only_operational_errors (db : engine) : Prop :=
  forall n sql repr_e,
    db n sql <> ConnectRaises (OtherException repr_e) /\
    db n sql <> ExecuteRaises (OtherException repr_e).

Lemma execute_no_runtime db sql tr msg tr' :
  only_operational_errors db ->
  execute_read_only_query db sql tr <> (Raise (RuntimeError msg), tr').
Proof.
  intros Hdb. unfold execute_read_only_query.
  destruct (negb _); [discriminate|].
  destruct (db _ _) as [[s r|r]|[s r|r]|cols rows] eqn:E; cbn;
    try discriminate;
    try (destruct (Text.contains _ s); discriminate).
  - now destruct (proj1 (Hdb _ _ r) E).
  - now destruct (proj2 (Hdb _ _ r) E).
Qed.

(** *** Retrieval makes no generation *)

Lemma fetch_generations p t tr :
  count is_generate (snd (fetch_full_schema_content p t tr))
  = count is_generate tr.
Proof.
  unfold fetch_full_schema_content, perform.
  destruct (vector_get_content p t) as [[|c s]|e]; cbn [snd];
    rewrite count_snoc; cbn; lia.
Qed.

Lemma aggregate_generations p fused n ctx tr :
  count is_generate (snd (aggregate p fused n ctx tr)) = count is_generate tr.
Proof.
  revert n ctx tr.
  induction fused as [|t rest IH]; intros n ctx tr; cbn [aggregate]; [reflexivity|].
  pose proof (fetch_generations p t tr) as Hf.
  destruct (fetch_full_schema_content p t tr) as [[c|e] tr']; cbn [snd] in *.
  - destruct (_ <=? _); [rewrite IH|cbn [snd]]; exact Hf.
  - exact Hf.
Qed.

Lemma retrieve_generations p q tr :
  count is_generate (snd (retrieve_schema_chunks p q tr)) = count is_generate tr.
Proof.
  unfold retrieve_schema_chunks, semantic_search, keyword_search, perform.
  destruct (vector_query_top_k p q K_SEARCH) as [v|e]; cbn [snd].
  2: { rewrite count_snoc. cbn. lia. }
  destruct (keyword_query_top_k p q K_SEARCH) as [kw|e]; cbn [snd].
  2: { rewrite !count_snoc. cbn. lia. }
  destruct (reciprocal_rank_fusion _ _) as [fused|e]; cbn [snd].
  - rewrite aggregate_generations, !count_snoc. cbn. lia.
  - rewrite !count_snoc. cbn. lia.
Qed.

(** *** The loop *)

Lemma attempt_loop_generations env q ctx attempts full_result tr :
  count is_generate (snd (attempt_loop env q ctx attempts full_result tr))
  <= count is_generate tr + length attempts.
Proof.
  revert full_result tr.
  induction attempts as [|attempt later IH]; intros full_result tr;
    cbn [attempt_loop length snd]; [lia|].
  pose proof (generate_sql_trace (llm_client env) q ctx attempt
                (error_details full_result) tr) as Hg.
  destruct (generate_sql _ _ _ _ _ _) as [[sql_query resp] tr1].
  cbn [snd] in Hg.
  assert (Hc : count is_generate tr1 = count is_generate tr + 1)
    by (subst tr1; rewrite count_snoc; reflexivity).
  destruct sql_query as [[|c sql]|].
  - specialize (IH (set_answer full_result
       ("LLM failed to generate parseable SQL after " ++
        Text.of_nat attempt ++ " attempts.")) tr1). lia.
  - pose proof (execute_generations (db_connector env) (c :: sql) tr1) as He.
    destruct (execute_read_only_query _ _ _) as [[rows|e] tr2].
    + cbn [snd] in *. lia.
    + cbn [snd] in He.
      destruct e; cbn [snd]; try lia.
      destruct (attempt =? MAX_RETRY_COUNT); cbn [snd]; [lia|].
      eapply Nat.le_trans; [apply IH|lia].
  - specialize (IH (set_answer full_result
       ("LLM failed to generate parseable SQL after " ++
        Text.of_nat attempt ++ " attempts.")) tr1). lia.
Qed.

Lemma attempt_loop_returns env q ctx attempts full_result tr :
  only_operational_errors (db_connector env) ->
  exists r, fst (attempt_loop env q ctx attempts full_result tr) = Ret r.
Proof.
  intros Hdb. revert full_result tr.
  induction attempts as [|attempt later IH]; intros full_result tr;
    cbn [attempt_loop]; [now eexists|].
  destruct (generate_sql _ _ _ _ _ _) as [[sql_query resp] tr1].
  destruct sql_query as [[|c sql]|]; [apply IH| |apply IH].
  pose proof (@execute_raises (db_connector env) (c :: sql) tr1) as He.
  pose proof (@execute_no_runtime (db_connector env) (c :: sql) tr1) as Hr.
  destruct (execute_read_only_query _ _ _) as [[rows|e] tr2].
  - now eexists.
  - specialize (He e tr2 eq_refl).
    destruct He; cbn [fst]; try (now eexists).
    + destruct (attempt =? MAX_RETRY_COUNT); [now eexists|apply IH].
    + now destruct (Hr _ tr2 Hdb eq_refl).
Qed.

(** After a retrieval with a non-empty context, [run] is the loop over
    the attempts [0 .. MAX_RETRY_COUNT], and returns what the loop
    returns. *)
Lemma run_enters_loop env q tr c ctx trunc tr1 :
  retrieve_schema_chunks (retriever env) q tr = (Ret (c :: ctx, trunc), tr1) ->
  run env q tr
  = attempt_loop env q (c :: ctx) (seq 0 (MAX_RETRY_COUNT + 1))
      (failure_result "Could not generate or execute a valid query.") tr1.
Proof. intros H. unfold run. now rewrite H. Qed.

(** The two guardrail failures: the security violation and the timeout. *)
Definition is_guardrail (e : exn) : bool :=
  match e with
  | PermissionError _ | TimeoutError _ => true
  | _ => false
  end.

(** The answer [run] gives for a guardrail failure. *)
Definition guardrail_answer (e : exn) : text :=
  match e with
  | PermissionError m =>
      "Query execution terminated by security guardrail: " ++ m
  | other => exn_str other
  end.

(** C2. In any iteration of the correction loop, whatever attempts remain
    in the retry budget ([later]) and whatever the loop has accumulated so
    far ([full_result]): when the statement generated in this iteration
    makes the connector raise [PermissionError] or [TimeoutError], the
    loop, and so [run], returns at once.  The value returned is a failure
    outcome carrying the error text, it holds no [error_details] to feed
    back to the generator, and the trace ends with this execution: the
    generation of this iteration is the last one made. *)
Theorem guardrail_failure_is_terminal
    (env : environment) (q : text) (ctx : list chunk)
    (attempt : nat) (later : list nat) (full_result : run_result) (tr : trace)
    (sql resp : text) (tr1 : trace) (e : exn) (tr2 : trace) :
  generate_sql (llm_client env) q ctx attempt (error_details full_result) tr
  = ((Some sql, resp), tr1) ->
  execute_read_only_query (db_connector env) sql tr1 = (Raise e, tr2) ->
  is_guardrail e = true ->
  attempt_loop env q ctx (attempt :: later) full_result tr
  = (Ret (failure_result (guardrail_answer e)), tr2)
  /\ status (failure_result (guardrail_answer e)) = failure
  /\ error_details (failure_result (guardrail_answer e)) = None
  /\ count is_generate tr2 = S (count is_generate tr).
Proof.
  intros Hgen Hexec Hguard.
  pose proof (generate_sql_some _ _ _ _ _ _ Hgen) as Hne.
  pose proof (generate_sql_trace (llm_client env) q ctx attempt
                (error_details full_result) tr) as Htr.
  pose proof (execute_generations (db_connector env) sql tr1) as Hcount.
  rewrite Hgen in Htr. rewrite Hexec in Hcount. cbn [snd] in Htr, Hcount.
  repeat split.
  - cbn [attempt_loop]. rewrite Hgen.
    destruct sql as [|c sql]; [now destruct Hne|].
    rewrite Hexec. destruct e; try discriminate; reflexivity.
  - rewrite Hcount, Htr, count_snoc. cbn. lia.
Qed.

Lemma guardrail_failure_is_terminal_witness :
  exists tr2,
    attempt_loop (Scenarios.env_with Scenarios.orders_db Scenarios.deleting_llm)
      "How many orders are there?" Scenarios.orders_context [0; 1]
      (failure_result "Could not generate or execute a valid query.") []
    = (Ret (failure_result
              ("Query execution terminated by security guardrail: " ++
               security_message)), tr2)
    /\ count is_generate tr2 = 1.
Proof.
  eexists.
  refine (let H := guardrail_failure_is_terminal
            (Scenarios.env_with Scenarios.orders_db Scenarios.deleting_llm)
            "How many orders are there?" Scenarios.orders_context 0 [1]
            (failure_result "Could not generate or execute a valid query.") []
            (sql := "DELETE FROM Orders;")
            (e := PermissionError security_message) _ _ _ in
          conj (proj1 H) (proj2 (proj2 (proj2 H))));
    vm_compute; reflexivity.
Defined.

(** Retrieval returns: neither a search provider nor the content store
    raises during [retrieve_schema_chunks]. *)
Definition retrieval_returns (env : environment) (q : text) (tr : trace) : Prop :=
  exists ctx tr1,
    retrieve_schema_chunks (retriever env) q tr = (Ret ctx, tr1).

(** C3 (as the code has it). [run] is a total function: it makes at most
    [MAX_RETRY_COUNT + 1 = 2] generation attempts, whatever the
    collaborators do.  When retrieval returns and the engine raises no
    exception outside [OperationalError], it returns an outcome whose
    status is success or failure. *)
Theorem run_attempts_bounded (env : environment) (q : text) (tr : trace) :
  count is_generate (snd (run env q tr))
  <= count is_generate tr + (MAX_RETRY_COUNT + 1)
  /\ MAX_RETRY_COUNT + 1 = 2
  /\ (retrieval_returns env q tr ->
      only_operational_errors (db_connector env) ->
      exists r, fst (run env q tr) = Ret r
                /\ (status r = success \/ status r = failure)).
Proof.
  split; [|split; [reflexivity|]].
  - unfold run.
    pose proof (retrieve_generations (retriever env) q tr) as Hr.
    destruct (retrieve_schema_chunks _ _ _) as [[[ctx trunc]|e] tr1];
      cbn [snd] in *; [|lia].
    destruct ctx as [|c ctx]; cbn [snd]; [lia|].
    rewrite <- Hr.
    eapply Nat.le_trans; [apply attempt_loop_generations|].
    rewrite length_seq. lia.
  - intros (ctx & tr1 & Hret) Hdb. unfold run. rewrite Hret.
    destruct ctx as [[|c ctx] trunc].
    + eexists. split; [reflexivity|]. now right.
    + destruct (attempt_loop_returns env q (c :: ctx)
                  (seq 0 (MAX_RETRY_COUNT + 1))
                  (failure_result "Could not generate or execute a valid query.")
                  tr1 Hdb) as [r Hr].
      exists r. split; [exact Hr|].
      destruct (status r); auto.
Qed.

Lemma run_attempts_bounded_witness :
  exists r,
    fst (run (Scenarios.env_with Scenarios.orders_db (Scenarios.mock_llm true))
           "What was the total amount of sales across all customers?" [])
    = Ret r
    /\ (status r = success \/ status r = failure).
Proof.
  apply (proj2 (proj2 (run_attempts_bounded
           (Scenarios.env_with Scenarios.orders_db (Scenarios.mock_llm true))
           "What was the total amount of sales across all customers?" []))).
  - eexists. eexists. vm_compute. reflexivity.
  - intros n sql repr_e. unfold Scenarios.env_with, Scenarios.orders_db.
    cbn [db_connector]. destruct (Text.contains _ sql); split; discriminate.
Defined.

(** The claim of C3 fails where the engine raises an exception of
    another class: the connector turns it into [RuntimeError], which
    [run] does not catch, so [run] returns no outcome. *)
Lemma run_raises_on_internal_failure :
  fst (run (Scenarios.env_with Scenarios.broken_db (Scenarios.mock_llm false))
         "What was the total amount of sales across all customers?" [])
  = Raise (RuntimeError
      "A general error occurred during database operation: InterfaceError('connection already closed')").
Proof. vm_compute. reflexivity. Qed.

(** The outcome of the loop, started from a failure result that has an
    answer: a returned result is a success or a failure with an answer,
    and the only exception that leaves the loop is the connector's
    [RuntimeError]. *)
Lemma attempt_loop_outcome env q ctx attempts full_result tr :
  status full_result = failure ->
  answer full_result <> [] ->
  match attempt_loop env q ctx attempts full_result tr with
  | (Ret r, _) => status r = success \/ (status r = failure /\ answer r <> [])
  | (Raise e, _) =>
      exists repr_e,
        e = RuntimeError
              ("A general error occurred during database operation: " ++ repr_e)
  end.
Proof.
  revert full_result tr.
  induction attempts as [|attempt later IH]; intros full_result tr Hs Ha;
    cbn [attempt_loop]; [now right|].
  destruct (generate_sql _ _ _ _ _ _) as [[sql_query resp] tr1].
  destruct sql_query as [[|c sql]|];
    [apply IH; [exact Hs|discriminate] | | apply IH; [exact Hs|discriminate]].
  pose proof (@execute_raises (db_connector env) (c :: sql) tr1) as He.
  destruct (execute_read_only_query _ _ _) as [[rows|e] tr2]; [now left|].
  specialize (He e tr2 eq_refl).
  destruct He.
  - right. split; [reflexivity|discriminate].
  - right. split; [reflexivity|discriminate].
  - destruct (attempt =? MAX_RETRY_COUNT).
    + right. split; [exact Hs|discriminate].
    + apply IH; [exact Hs|exact Ha].
  - now eexists.
Qed.

(** The answers of the failures [run] handles inside the loop, for the
    attempts [attempts]. *)
Definition loop_answer (attempts : list nat) (a : text) : Prop :=
  (exists attempt,
      In attempt attempts
      /\ a = "LLM failed to generate parseable SQL after " ++
             Text.of_nat attempt ++ " attempts.")
  \/ a = "Query execution terminated by security guardrail: " ++
         security_message
  \/ a = timeout_message
  \/ exists repr_e,
       a = "SQL failed execution after max retries. Final error: Database Execution Error: "
           ++ repr_e.

(** The answers of the failures [run] handles. *)
Definition failure_answer (a : text) : Prop :=
  a = "Schema retrieval failed. Context is empty."
  \/ loop_answer (seq 0 (MAX_RETRY_COUNT + 1)) a.

Lemma loop_answer_later attempt later a :
  loop_answer later a -> loop_answer (attempt :: later) a.
Proof.
  intros [(k & Hk & H)|H]; [|now right].
  left. exists k. split; [now right|exact H].
Qed.

(** A failure that leaves the loop carries one of the answers of the
    loop, unless no attempt was the last one of the retry budget. *)
Lemma attempt_loop_failure_answer env q ctx attempts full_result tr r tr' :
  attempt_loop env q ctx attempts full_result tr = (Ret r, tr') ->
  status r = failure ->
  loop_answer attempts (answer r)
  \/ (answer r = answer full_result /\ ~ In MAX_RETRY_COUNT attempts).
Proof.
  revert full_result tr.
  induction attempts as [|attempt later IH]; intros full_result tr;
    cbn [attempt_loop].
  - intros H _. injection H as <- <-. right. split; [reflexivity|intros []].
  - destruct (generate_sql _ _ _ _ _ _) as [[sql_query resp] tr1].
    assert (Hskip : forall next,
              answer next
              = "LLM failed to generate parseable SQL after " ++
                Text.of_nat attempt ++ " attempts." ->
              attempt_loop env q ctx later next tr1 = (Ret r, tr') ->
              status r = failure ->
              loop_answer (attempt :: later) (answer r)
              \/ (answer r = answer full_result
                  /\ ~ In MAX_RETRY_COUNT (attempt :: later))).
    { intros next Hn H Hs. left.
      destruct (IH _ _ H Hs) as [Hl|[Ha _]];
        [now apply loop_answer_later|].
      left. exists attempt. split; [now left|]. now rewrite Ha. }
    destruct sql_query as [[|c sql]|];
      [now apply Hskip| |now apply Hskip].
    pose proof (@execute_raises (db_connector env) (c :: sql) tr1) as He.
    destruct (execute_read_only_query _ _ _) as [[rows|e] tr2].
    + intros H Hs. injection H as <- <-. discriminate.
    + specialize (He e tr2 eq_refl). destruct He as [| |repr_e|repr_e].
      * intros H _. injection H as <- <-. left. right. now left.
      * intros H _. injection H as <- <-. left. right. right. now left.
      * destruct (Nat.eqb_spec attempt MAX_RETRY_COUNT) as [E|E].
        -- intros H _. injection H as <- <-. left. right. right. right.
           now exists repr_e.
        -- intros H Hs. destruct (IH _ _ H Hs) as [Hl|[Ha Hn]].
           ++ left. now apply loop_answer_later.
           ++ right. split; [exact Ha|]. intros [Hin|Hin]; [|contradiction].
              now apply E.
      * discriminate.
Qed.

Lemma failure_answer_nonempty a : failure_answer a -> a <> [].
Proof.
  intros [->|[(k & _ & ->)|[->|[->|(repr_e & ->)]]]]; discriminate.
Qed.

(** C7 (as the code has it).  The failures [run] handles are returned as
    outcomes, the others leave it as exceptions.

    - A value returned by [run] is a success, or it has status failure
      and one of five answer texts, none of them empty.  An exception
      that leaves [run] was raised during retrieval, or it is the
      [RuntimeError] the connector builds from an engine error outside
      [OperationalError].
    - An empty context gives a failure outcome.
    - A context that is not empty starts the loop from a result whose
      status is failure, and the status stays failure in every state the
      loop continues from.
    - In any iteration: when no statement can be parsed from the
      response, the answer is set and the loop goes on, and on the last
      attempt this failure result is returned.
    - In any iteration: a [PermissionError] or a [TimeoutError] of the
      connector gives a failure outcome at once; a [ValueError] gives a
      failure outcome on the last attempt of the retry budget, and leads
      to the next attempt before; any other exception of the connector
      leaves the loop, and so [run], uncaught.
    - An exception raised during retrieval leaves [run] as it is. *)
Theorem run_failure_outcomes (env : environment) (q : text) (tr : trace) :
  match run env q tr with
  | (Ret r, _) =>
      status r = success
      \/ (status r = failure /\ answer r <> [] /\ failure_answer (answer r))
  | (Raise e, tr') =>
      retrieve_schema_chunks (retriever env) q tr = (Raise e, tr')
      \/ exists repr_e,
           e = RuntimeError
                 ("A general error occurred during database operation: " ++ repr_e)
  end
  /\ (forall trunc tr1,
        retrieve_schema_chunks (retriever env) q tr = (Ret ([], trunc), tr1) ->
        exists r,
          run env q tr = (Ret r, tr1)
          /\ status r = failure
          /\ answer r = "Schema retrieval failed. Context is empty.")
  /\ (forall c ctx trunc tr1,
        retrieve_schema_chunks (retriever env) q tr
        = (Ret (c :: ctx, trunc), tr1) ->
        exists full_result,
          run env q tr
          = attempt_loop env q (c :: ctx) (seq 0 (MAX_RETRY_COUNT + 1))
              full_result tr1
          /\ status full_result = failure)
  /\ (forall ctx attempt later full_result tr0 resp tr1,
        status full_result = failure ->
        generate_sql (llm_client env) q ctx attempt
          (error_details full_result) tr0
        = ((None, resp), tr1) ->
        exists next,
          status next = failure
          /\ answer next
             = "LLM failed to generate parseable SQL after " ++
               Text.of_nat attempt ++ " attempts."
          /\ attempt_loop env q ctx (attempt :: later) full_result tr0
             = attempt_loop env q ctx later next tr1
          /\ attempt_loop env q ctx [attempt] full_result tr0
             = (Ret next, tr1))
  /\ (forall ctx attempt later full_result tr0 sql resp tr1 e tr2,
        status full_result = failure ->
        generate_sql (llm_client env) q ctx attempt
          (error_details full_result) tr0
        = ((Some sql, resp), tr1) ->
        execute_read_only_query (db_connector env) sql tr1 = (Raise e, tr2) ->
        match e with
        | PermissionError m =>
            exists r,
              attempt_loop env q ctx (attempt :: later) full_result tr0
              = (Ret r, tr2)
              /\ status r = failure
              /\ answer r
                 = "Query execution terminated by security guardrail: " ++ m
        | TimeoutError m =>
            exists r,
              attempt_loop env q ctx (attempt :: later) full_result tr0
              = (Ret r, tr2)
              /\ status r = failure
              /\ answer r = m
              /\ m <> []
        | ValueError m =>
            if attempt =? MAX_RETRY_COUNT then
              exists r,
                attempt_loop env q ctx (attempt :: later) full_result tr0
                = (Ret r, tr2)
                /\ status r = failure
                /\ answer r
                   = "SQL failed execution after max retries. Final error: "
                     ++ m
                /\ error_details r = Some (sql, m)
            else
              exists next,
                status next = failure
                /\ error_details next = Some (sql, m)
                /\ attempt_loop env q ctx (attempt :: later) full_result tr0
                   = attempt_loop env q ctx later next tr2
        | other =>
            attempt_loop env q ctx (attempt :: later) full_result tr0
            = (Raise other, tr2)
        end)
  /\ (forall e tr1,
        retrieve_schema_chunks (retriever env) q tr = (Raise e, tr1) ->
        run env q tr = (Raise e, tr1)).
Proof.
  split; [|split; [|split; [|split; [|split]]]].
  - unfold run.
    destruct (retrieve_schema_chunks _ _ _) as [[[ctx trunc]|e] tr1];
      [|now left].
    destruct ctx as [|c ctx].
    + right. split; [reflexivity|]. split; [discriminate|now left].
    + pose proof (attempt_loop_outcome env q (c :: ctx)
                    (seq 0 (MAX_RETRY_COUNT + 1))
                    (failure_result "Could not generate or execute a valid query.")
                    tr1 eq_refl) as H.
      pose proof (@attempt_loop_failure_answer env q (c :: ctx)
                    (seq 0 (MAX_RETRY_COUNT + 1))
                    (failure_result "Could not generate or execute a valid query.")
                    tr1) as Ha.
      destruct (attempt_loop _ _ _ _ _ _) as [[r|e] tr2].
      * destruct (H ltac:(discriminate)) as [Hs|[Hs Hne]]; [now left|].
        right. split; [exact Hs|]. split; [exact Hne|].
        destruct (Ha r tr2 eq_refl Hs) as [Hl|[_ Hn]]; [now right|].
        exfalso. apply Hn. cbn. auto.
      * right. apply H. discriminate.
  - intros trunc tr1 Hr. unfold run. rewrite Hr.
    eexists. split; [reflexivity|]. split; reflexivity.
  - intros c ctx trunc tr1 Hr. eexists.
    split; [exact (@run_enters_loop env q tr c ctx trunc tr1 Hr)|reflexivity].
  - intros ctx attempt later full_result tr0 resp tr1 Hs Hg.
    exists (set_answer full_result
              ("LLM failed to generate parseable SQL after " ++
               Text.of_nat attempt ++ " attempts.")).
    cbn [attempt_loop]. rewrite Hg.
    split; [exact Hs|]. split; [reflexivity|]. split; reflexivity.
  - intros ctx attempt later full_result tr0 sql resp tr1 e tr2 Hs Hg Hx.
    pose proof (@generate_sql_some _ _ _ _ _ _ _ _ _ Hg) as Hne.
    pose proof (@execute_raises _ _ _ _ _ Hx) as He.
    cbn [attempt_loop]. rewrite Hg.
    destruct sql as [|c sql]; [congruence|]. rewrite Hx.
    destruct e as [m|m|m|m| |m].
    + eexists. split; [reflexivity|]. split; reflexivity.
    + eexists. split; [reflexivity|]. split; [reflexivity|].
      split; [reflexivity|]. inversion He. discriminate.
    + destruct (attempt =? MAX_RETRY_COUNT).
      * eexists. split; [reflexivity|]. split; [exact Hs|].
        split; reflexivity.
      * exists (set_error_details full_result (c :: sql, m)).
        split; [exact Hs|]. split; reflexivity.
    + reflexivity.
    + reflexivity.
    + reflexivity.
  - intros e tr1 Hr. unfold run. now rewrite Hr.
Qed.

Lemma run_failure_outcomes_witness :
  exists tr2 r,
    attempt_loop
      (Scenarios.env_with Scenarios.orders_db (Scenarios.mock_llm true))
      "What was the total amount of sales across all customers?"
      Scenarios.orders_context [1]
      (failure_result "Could not generate or execute a valid query.") []
    = (Ret r, tr2)
    /\ status r = failure
    /\ answer r
       = "SQL failed execution after max retries. Final error: " ++
         "Database Execution Error: OperationalError('column non_existent_column does not exist')"
    /\ error_details r
       = Some ("SELECT non_existent_column FROM Orders;",
               "Database Execution Error: OperationalError('column non_existent_column does not exist')").
Proof.
  eexists.
  refine (let H :=
            proj1 (proj2 (proj2 (proj2 (proj2
              (run_failure_outcomes
                 (Scenarios.env_with Scenarios.orders_db
                    (Scenarios.mock_llm true))
                 "What was the total amount of sales across all customers?"
                 [])))))
              Scenarios.orders_context 1 []
              (failure_result "Could not generate or execute a valid query.")
              [] "SELECT non_existent_column FROM Orders;" _ _
              (ValueError
                 "Database Execution Error: OperationalError('column non_existent_column does not exist')")
              _ eq_refl _ _ in H);
    vm_compute; reflexivity.
Defined.

(** The claim of C7 fails for an engine that cannot be reached: the
    exception of the driver leaves [run] as a [RuntimeError]. *)
Lemma run_lets_internal_failure_escape :
  fst (run (Scenarios.env_with Scenarios.unreachable_db (Scenarios.mock_llm false))
         "What was the total order amount for all key accounts?" [])
  = Raise (RuntimeError
      "A general error occurred during database operation: ConnectionRefusedError(111, 'Connection refused')").
Proof. vm_compute. reflexivity. Qed.

End LlmAgentProofs.

(** ** Floats: the scores of the fusion are ordered *)
Module FloatProofs.
Import Float.

(** The floats the fusion computes with: not NaN, with a positive sign. *)
Definition nonneg (f : float) : Prop :=
  match f with
  | S754_nan => False
  | S754_zero s | S754_infinity s | S754_finite s _ _ => s = false
  end.

Lemma iter_pos_invariant (A : Type) (P : A -> Prop) (f : A -> A) :
  (forall x, P x -> P (f x)) ->
  forall n x, P x -> P (iter_pos f n x).
Proof.
  intros Hf. induction n as [n IH|n IH|]; intros x Hx; cbn; auto.
Qed.

Lemma shr_1_nonneg mrs : (0 <= shr_m mrs)%Z -> (0 <= shr_m (shr_1 mrs))%Z.
Proof.
  destruct mrs as [m r s]. cbn.
  destruct m as [|[p|p|]|[p|p|]]; cbn; lia.
Qed.

Lemma shr_nonneg mrs e n :
  (0 <= shr_m mrs)%Z -> (0 <= shr_m (fst (shr mrs e n)))%Z.
Proof.
  intros H. unfold shr. destruct n; cbn [fst]; auto.
  apply iter_pos_invariant with (P := fun x => (0 <= shr_m x)%Z); auto.
  apply shr_1_nonneg.
Qed.

Lemma shr_record_of_loc_m m l : shr_m (shr_record_of_loc m l) = m.
Proof. now destruct l as [|[]]. Qed.

Lemma shr_fexp_nonneg m e l :
  (0 <= m)%Z -> (0 <= shr_m (fst (shr_fexp prec emax m e l)))%Z.
Proof.
  intros H. unfold shr_fexp. apply shr_nonneg.
  now rewrite shr_record_of_loc_m.
Qed.

Lemma round_nearest_even_nonneg m l :
  (0 <= m)%Z -> (0 <= round_nearest_even m l)%Z.
Proof.
  intros H. unfold round_nearest_even.
  destruct l as [|[]]; try destruct (Z.even m); lia.
Qed.

Lemma binary_round_aux_nonneg m e l :
  (0 <= m)%Z -> nonneg (binary_round_aux prec emax false m e l).
Proof.
  intros H. unfold binary_round_aux.
  pose proof (shr_fexp_nonneg e l H) as H1.
  destruct (shr_fexp prec emax m e l) as [mrs' e'] eqn:E1. cbn [fst] in H1.
  pose proof (shr_fexp_nonneg e' loc_Exact
                (round_nearest_even_nonneg (loc_of_shr_record mrs') H1)) as H2.
  destruct (shr_fexp prec emax (round_nearest_even _ _) e' loc_Exact)
    as [mrs'' e''] eqn:E2.
  cbn [fst] in H2.
  destruct (shr_m mrs'') as [|p|p]; [reflexivity| |lia].
  destruct (Z.leb _ _); reflexivity.
Qed.

Lemma binary_round_nonneg m e : nonneg (binary_round prec emax false m e).
Proof.
  unfold binary_round.
  destruct (shl_align _ _ _) as [mz ez].
  apply binary_round_aux_nonneg. lia.
Qed.

Lemma of_int_nonneg n : (0 <= n)%Z -> nonneg (of_int n).
Proof.
  intros H. unfold of_int, binary_normalize.
  destruct n as [|p|p]; [reflexivity|apply binary_round_nonneg|lia].
Qed.

Lemma add_nonneg x y : nonneg x -> nonneg y -> nonneg (add x y).
Proof.
  unfold add.
  destruct x as [sx|sx| |sx mx ex], y as [sy|sy| |sy my ey]; cbn;
    intros Hx Hy; subst; try tauto; try reflexivity.
  unfold binary_normalize.
    destruct (shl_align mx ex (Z.min ex ey)) as [mx' ex'].
    destruct (shl_align my ey (Z.min ex ey)) as [my' ey'].
  cbn. apply binary_round_nonneg.
Qed.

Lemma div_eucl_nonneg a b :
  (0 <= a)%Z -> (0 < b)%Z -> (0 <= fst (Z.div_eucl a b))%Z.
Proof.
  intros Ha Hb.
  pose proof (Z_div_mod a b ltac:(lia)) as H.
  destruct (Z.div_eucl a b) as [q r]. cbn. nia.
Qed.

Lemma div_nonneg mx ex y :
  nonneg y -> nonneg (SFdiv prec emax (S754_finite false mx ex) y).
Proof.
  destruct y as [sy|sy| |sy my ey]; cbn; intros Hy; subst; try tauto;
    try reflexivity.
  unfold SFdiv_core_binary.
  set (a := match _ with Zpos _ => _ | Z0 => _ | Zneg _ => _ end).
  assert (Ha : (0 <= a)%Z).
  { subst a. destruct (_ - _ - _)%Z; try lia.
    apply Z.shiftl_nonneg. lia. }
  pose proof (div_eucl_nonneg (b := Zpos my) Ha ltac:(lia)) as Hq.
  destruct (Z.div_eucl a (Zpos my)) as [q r]. cbn [fst] in Hq.
  now apply binary_round_aux_nonneg.
Qed.

Lemma one_finite : one = S754_finite false 4503599627370496 (-52).
Proof. reflexivity. Qed.

Lemma reciprocal_nonneg n :
  (0 < n)%Z -> nonneg (SFdiv prec emax one (of_int n)).
Proof.
  intros H. rewrite one_finite. apply div_nonneg, of_int_nonneg. lia.
Qed.

(** On these floats [<] is asymmetric and its complement transitive. *)
Lemma ltb_asym x y : nonneg x -> nonneg y -> ltb x y = true -> ltb y x = false.
Proof.
  unfold ltb, SFltb.
  destruct x as [sx|sx| |sx mx ex], y as [sy|sy| |sy my ey]; cbn;
    intros Hx Hy; subst; try tauto; try discriminate; try reflexivity.
  rewrite !Pos.compare_cont_spec. cbn.
  rewrite (Z.compare_antisym ex ey), (Pos.compare_antisym mx my).
  destruct (ex ?= ey)%Z, (mx ?= my)%positive; cbn; congruence.
Qed.

Lemma ltb_finite_false mx ex my ey :
  ltb (S754_finite false mx ex) (S754_finite false my ey) = false <->
  (ey < ex)%Z \/ (ey = ex /\ (my <= mx)%positive).
Proof.
  unfold ltb, SFltb. cbn. rewrite Pos.compare_cont_spec. cbn.
  destruct (Z.compare_spec ex ey); destruct (Pos.compare_spec mx my);
    split; intros; try discriminate; try reflexivity; lia.
Qed.

Lemma ltb_negtrans x y z :
  nonneg x -> nonneg y -> nonneg z ->
  ltb x y = false -> ltb y z = false -> ltb x z = false.
Proof.
  destruct x as [sx|sx| |sx mx ex], y as [sy|sy| |sy my ey],
           z as [sz|sz| |sz mz ez]; cbn [nonneg];
    intros Hx Hy Hz; subst; try tauto;
    try (intros; reflexivity); try (intros; discriminate).
  rewrite !ltb_finite_false. lia.
Qed.

End FloatProofs.

(** ** Dictionaries, positions and the stable sort *)
Module DictProofs.
Import Dict.

Lemma key_eqb_eq a b : key_eqb a b = true <-> a = b.
Proof.
  unfold key_eqb. destruct (list_eq_dec ascii_dec a b); split;
    congruence.
Qed.

Lemma key_eqb_refl a : key_eqb a a = true.
Proof. now apply key_eqb_eq. Qed.

Lemma key_eqb_neq a b : key_eqb a b = false <-> a <> b.
Proof.
  unfold key_eqb. destruct (list_eq_dec ascii_dec a b); split;
    congruence.
Qed.

Lemma key_eqb_sym a b : key_eqb a b = key_eqb b a.
Proof.
  destruct (key_eqb b a) eqn:E.
  - apply key_eqb_eq in E. subst. apply key_eqb_refl.
  - apply key_eqb_neq in E. apply key_eqb_neq. congruence.
Qed.

(** Membership test on a list of keys. *)
Definition mem (k : text) (ks : list text) : bool := existsb (key_eqb k) ks.

Lemma mem_In k ks : mem k ks = true <-> In k ks.
Proof.
  unfold mem. rewrite existsb_exists. split.
  - intros (x & Hx & E). apply key_eqb_eq in E. now subst.
  - intros H. exists k. split; [exact H|apply key_eqb_refl].
Qed.

Lemma mem_not_In k ks : mem k ks = false <-> ~ In k ks.
Proof.
  rewrite <- mem_In. destruct (mem k ks); split; congruence.
Qed.

(** The keys after an assignment: a new key goes to the end. *)
Definition add_key (ks : list text) (k : text) : list text :=
  if mem k ks then ks else ks ++ [k].

Lemma keys_set (V : Type) (d : Dict.t V) k v :
  keys (set d k v) = add_key (keys d) k.
Proof.
  unfold add_key, keys, mem.
  induction d as [|[k' v'] rest IH]; cbn; [reflexivity|].
  rewrite (key_eqb_sym k k').
  destruct (key_eqb k' k); cbn; [reflexivity|].
  rewrite IH. now destruct (existsb _ _).
Qed.

Lemma get_set (V : Type) (d : Dict.t V) k v k' :
  get (set d k v) k' = if key_eqb k k' then Some v else get d k'.
Proof.
  induction d as [|[k0 v0] rest IH]; cbn.
  - reflexivity.
  - destruct (key_eqb k0 k) eqn:E0; cbn.
    + apply key_eqb_eq in E0. subst k0.
      now destruct (key_eqb k k').
    + rewrite IH. destruct (key_eqb k0 k') eqn:E1; [|reflexivity].
      apply key_eqb_eq in E1. subst k0. now rewrite key_eqb_sym, E0.
Qed.

Lemma get_In_keys (V : Type) (d : Dict.t V) k :
  get d k <> None <-> In k (keys d).
Proof.
  unfold keys. induction d as [|[k0 v0] rest IH]; cbn; [tauto|].
  destruct (key_eqb k0 k) eqn:E.
  - apply key_eqb_eq in E. split; [auto|discriminate].
  - apply key_eqb_neq in E. rewrite IH. tauto.
Qed.

End DictProofs.

Module OrderProofs.
Import Dict DictProofs.

(** [l.index(d)]: the position of the first occurrence of [d] in [l]
    (the length of [l] when there is none). *)
Fixpoint position (d : text) (l : list text) : nat :=
  match l with
  | [] => 0
  | x :: t => if key_eqb x d then 0 else S (position d t)
  end.

Lemma position_le d l : position d l <= length l.
Proof. induction l as [|x t IH]; cbn; [lia|]. destruct (key_eqb x d); lia. Qed.

Lemma position_lt_In d l : position d l < length l <-> In d l.
Proof.
  induction l as [|x t IH]; cbn; [lia|].
  destruct (key_eqb x d) eqn:E.
  - apply key_eqb_eq in E. split; [auto|lia].
  - apply key_eqb_neq in E. rewrite <- IH. split; [intros; right; lia|].
    intros [H|H]; [congruence|lia].
Qed.

Lemma position_app_In d l l' : In d l -> position d (l ++ l') = position d l.
Proof.
  induction l as [|x t IH]; cbn; [tauto|].
  destruct (key_eqb x d) eqn:E; [reflexivity|].
  apply key_eqb_neq in E. intros [H|H]; [congruence|]. now rewrite IH.
Qed.

Lemma position_app_not_In d l l' :
  ~ In d l -> position d (l ++ l') = length l + position d l'.
Proof.
  induction l as [|x t IH]; cbn; [reflexivity|].
  intros H. destruct (key_eqb x d) eqn:E.
  - apply key_eqb_eq in E. tauto.
  - rewrite IH; tauto.
Qed.

(** The keys of a dictionary filled in the order of [l] are the distinct
    elements of [l] in the order of their first occurrence. *)
Record first_seen (ks done : list text) : Prop := {
  fs_nodup : NoDup ks;
  fs_in : forall d, In d ks <-> In d done;
  fs_order : forall a b, In a ks -> In b ks ->
      position a ks < position b ks -> position a done < position b done
}.

Lemma first_seen_nil : first_seen [] [].
Proof. split; [constructor|tauto|cbn; lia]. Qed.

Lemma first_seen_step ks done x :
  first_seen ks done -> first_seen (add_key ks x) (done ++ [x]).
Proof.
  intros [Hn Hi Ho]. unfold add_key.
  destruct (mem x ks) eqn:E.
  - apply mem_In in E. split; [exact Hn| |].
    + intros d. rewrite in_app_iff, Hi. cbn. split; [tauto|].
      intros [H|[H|[]]]; [exact H|subst; now apply Hi].
    + intros a b Ha Hb Hlt.
      rewrite !position_app_In by now apply Hi. now apply Ho.
  - apply mem_not_In in E.
    assert (Ex : ~ In x done) by now rewrite <- Hi.
    split.
    + apply NoDup_app; [exact Hn|repeat constructor; cbn; tauto|].
      intros y Hy [H|[]]. congruence.
    + intros d. rewrite !in_app_iff, Hi. tauto.
    + intros a b Ha Hb.
      apply in_app_iff in Ha, Hb. cbn in Ha, Hb.
      destruct Ha as [Ha|[Ha|[]]], Hb as [Hb|[Hb|[]]]; subst.
      * rewrite !position_app_In by (auto; now apply Hi). now apply Ho.
      * intros _. rewrite (@position_app_not_In b done [b] Ex).
        rewrite (@position_app_In a done [b]) by now apply Hi.
        apply (proj1 (Hi a)), position_lt_In in Ha. lia.
      * rewrite (@position_app_not_In a ks [a] E).
        rewrite (@position_app_In b ks [a] Hb).
        apply position_lt_In in Hb. lia.
      * lia.
Qed.

Lemma first_seen_fold l ks done :
  first_seen ks done -> first_seen (fold_left add_key l ks) (done ++ l).
Proof.
  revert ks done.
  induction l as [|x l IH]; intros ks done H; cbn.
  - now rewrite app_nil_r.
  - replace (done ++ x :: l) with ((done ++ [x]) ++ l)
      by now rewrite <- app_assoc.
    apply IH, first_seen_step, H.
Qed.

(** *** The stable descending sort *)
Section Sorting.
Variables (K : Type) (lt : K -> K -> bool) (good : K -> Prop).
Hypothesis lt_asym :
  forall x y, good x -> good y -> lt x y = true -> lt y x = false.
Hypothesis lt_negtrans :
  forall x y z, good x -> good y -> good z ->
    lt x y = false -> lt y z = false -> lt x z = false.

(** [p] may stand before [q]: its key is not smaller, and when the keys
    tie it comes first in [ks]. *)
Definition precedes (ks : list text) (p q : text * K) : Prop :=
  lt (snd p) (snd q) = false /\
  (lt (snd q) (snd p) = false -> position (fst p) ks < position (fst q) ks).

Lemma insert_desc_In (x : text * K) l p :
  In p (insert_desc lt x l) <-> p = x \/ In p l.
Proof.
  induction l as [|y t IH]; cbn.
  - intuition congruence.
  - destruct (lt (snd x) (snd y)); cbn; [rewrite IH|]; intuition congruence.
Qed.

Lemma insert_desc_perm (x : text * K) l :
  Permutation (insert_desc lt x l) (x :: l).
Proof.
  induction l as [|y t IH]; cbn; [reflexivity|].
  destruct (lt (snd x) (snd y)); [|reflexivity].
  rewrite IH. apply perm_swap.
Qed.

Lemma insert_desc_sorted ks (x : text * K) l :
  StronglySorted (precedes ks) l ->
  good (snd x) -> Forall (fun p => good (snd p)) l ->
  Forall (fun q => position (fst x) ks < position (fst q) ks) l ->
  StronglySorted (precedes ks) (insert_desc lt x l).
Proof.
  intros Hs Hx Hg Hb.
  induction l as [|y t IH]; cbn.
  - repeat constructor.
  - inversion Hs as [|? ? Hst Hyt]; subst.
    inversion Hg as [|? ? Hy Hgt]; subst.
    inversion Hb as [|? ? Hxy Hbt]; subst.
    destruct (lt (snd x) (snd y)) eqn:E.
    + constructor; [now apply IH|].
      apply Forall_forall. intros p Hp. apply insert_desc_In in Hp.
      destruct Hp as [->|Hp].
      * split; [now apply lt_asym|congruence].
      * now apply (proj1 (Forall_forall _ _) Hyt).
    + constructor; [exact Hs|].
      constructor; [split; auto|].
      apply Forall_forall. intros q Hq. split.
      * apply lt_negtrans with (y := snd y); auto.
        -- now apply (proj1 (Forall_forall _ _) Hgt).
        -- now apply (proj1 (Forall_forall _ _) Hyt).
      * intros _. now apply (proj1 (Forall_forall _ _) Hbt).
Qed.

Lemma StronglySorted_weaken (A : Type) (R R' : A -> A -> Prop) l :
  (forall a b, In a l -> In b l -> R a b -> R' a b) ->
  StronglySorted R l -> StronglySorted R' l.
Proof.
  intros H Hs. induction Hs as [|a l Hs IH Ha]; constructor.
  - apply IH. intros; apply H; cbn; auto.
  - apply Forall_forall. intros b Hb. apply H; cbn; auto.
    now apply (proj1 (Forall_forall _ _) Ha).
Qed.

Variable key : text -> K.

Definition decorated (ks : list text) : list (text * K) :=
  fold_right (insert_desc lt) [] (map (fun a => (a, key a)) ks).

Lemma decorated_In ks p : In p (decorated ks) <-> In (fst p) ks /\ snd p = key (fst p).
Proof.
  unfold decorated. induction ks as [|x t IH]; cbn; [tauto|].
  rewrite insert_desc_In, IH. destruct p as [a k]; cbn. split.
  - intros [H|H]; [inversion H; auto|tauto].
  - intros [[H|H] E]; subst; auto.
Qed.

Lemma decorated_perm ks : Permutation (map fst (decorated ks)) ks.
Proof.
  unfold decorated. induction ks as [|x t IH]; cbn; [reflexivity|].
  rewrite insert_desc_perm. cbn. now constructor.
Qed.

Lemma decorated_sorted ks :
  NoDup ks -> Forall (fun a => good (key a)) ks ->
  StronglySorted (precedes ks) (decorated ks).
Proof.
  intros Hn Hg. induction ks as [|x t IH]; [constructor|].
  inversion Hn as [|? ? Hx Hnt]; subst.
  inversion Hg as [|? ? Hgx Hgt]; subst.
  change (decorated (x :: t))
    with (insert_desc lt (x, key x) (decorated t)).
  assert (Hne : forall p, In p (decorated t) -> key_eqb x (fst p) = false).
  { intros p Hp. apply decorated_In in Hp. apply key_eqb_neq.
    intros ->. tauto. }
  apply insert_desc_sorted.
  - apply StronglySorted_weaken with (R := precedes t); [|now apply IH].
    intros a b Ha Hb [H1 H2]. split; [exact H1|].
    intros H. specialize (H2 H). cbn.
    rewrite (Hne a Ha), (Hne b Hb). lia.
  - exact Hgx.
  - apply Forall_forall. intros p Hp. apply decorated_In in Hp.
    destruct Hp as [Hp ->].
    now apply (proj1 (Forall_forall _ _) Hgt).
  - apply Forall_forall. intros p Hp. cbn.
    rewrite key_eqb_refl, (Hne p Hp). lia.
Qed.

Lemma StronglySorted_split (A : Type) (R : A -> A -> Prop) l1 a l2 b l3 :
  StronglySorted R (l1 ++ a :: l2 ++ b :: l3) -> R a b.
Proof.
  induction l1 as [|c l1 IH]; cbn; intros H; inversion H as [|? ? Hs Hf]; subst.
  - apply (proj1 (Forall_forall _ _) Hf). rewrite in_app_iff. cbn. auto.
  - now apply IH.
Qed.

(** The specification of [sorted(ks, key=key, reverse=True)]. *)
Lemma sorted_reverse_spec ks :
  NoDup ks -> Forall (fun a => good (key a)) ks ->
  Permutation (sorted_reverse lt key ks) ks /\
  forall l1 a l2 b l3,
    sorted_reverse lt key ks = l1 ++ a :: l2 ++ b :: l3 ->
    lt (key a) (key b) = false /\
    (lt (key b) (key a) = false -> position a ks < position b ks).
Proof.
  intros Hn Hg. split; [apply decorated_perm|].
  pose proof (decorated_sorted Hn Hg) as Hs.
  unfold sorted_reverse. fold (decorated ks).
  intros l1 a l2 b l3 E.
  apply map_eq_app in E. destruct E as (d1 & r1 & E & E1 & E2).
  apply map_eq_cons in E2. destruct E2 as (p & r2 & -> & Ep & E2).
  apply map_eq_app in E2. destruct E2 as (d2 & r3 & -> & E2 & E3).
  apply map_eq_cons in E3. destruct E3 as (q & d3 & -> & Eq & E3).
  assert (Hp : In p (decorated ks))
    by (rewrite E, in_app_iff; cbn; auto).
  assert (Hq : In q (decorated ks))
    by (rewrite E, !in_app_iff; cbn; rewrite in_app_iff; cbn; auto).
  apply decorated_In in Hp, Hq.
  rewrite E in Hs. apply StronglySorted_split in Hs.
  destruct Hs as [H1 H2].
  rewrite (proj2 Hp), (proj2 Hq), Ep, Eq in H1, H2. auto.
Qed.

End Sorting.

End OrderProofs.

(** ** Rank fusion and retrieval *)
Module HybridRetrieverProofs.
Import Settings HybridRetriever Dict DictProofs OrderProofs FloatProofs.

(** The score of the specification: [1 / (k + rank + 1)], as a float, for
    every rank at which [d] stands in a list, added up from [0.0] in the
    order of the lists. *)
Definition reciprocal (n : Z) : Float.float :=
  SFdiv Float.prec Float.emax Float.one (Float.of_int n).

Fixpoint denominators (k : Z) (d : text) (ranks : list text) (rank : nat)
    : list Z :=
  match ranks with
  | [] => []
  | x :: rest =>
      if key_eqb x d
      then (k + Z.of_nat rank + 1)%Z :: denominators k d rest (S rank)
      else denominators k d rest (S rank)
  end.

Definition all_denominators (k : Z) (d : text) (search_results : list (list text))
    : list Z :=
  flat_map (fun ranks => denominators k d ranks 0) search_results.

Definition sum_from (start : Float.float) (ns : list Z) : Float.float :=
  fold_left (fun acc n => Float.add acc (reciprocal n)) ns start.

Definition rrf_score (k : Z) (search_results : list (list text)) (d : text)
    : Float.float :=
  sum_from Float.zero (all_denominators k d search_results).

Lemma score_in_add_score fused d s d' :
  score_in (add_score fused d s) d'
  = if key_eqb d d' then Float.add (score_in fused d) s else score_in fused d'.
Proof.
  unfold add_score, score_in at 1. rewrite get_set.
  now destruct (key_eqb d d').
Qed.

Lemma sum_from_nonneg ns start :
  Forall (fun n => (0 < n)%Z) ns -> nonneg start -> nonneg (sum_from start ns).
Proof.
  unfold sum_from. revert start.
  induction ns as [|n ns IH]; intros start Hn Hs; cbn; [exact Hs|].
  inversion Hn; subst. apply IH; [assumption|].
  apply add_nonneg; [exact Hs|now apply reciprocal_nonneg].
Qed.

Lemma denominators_pos k d ranks rank :
  (0 <= k)%Z -> Forall (fun n => (0 < n)%Z) (denominators k d ranks rank).
Proof.
  intros Hk. revert rank.
  induction ranks as [|x rest IH]; intros rank; cbn; [constructor|].
  destruct (key_eqb x d); [constructor; [lia|]|]; apply IH.
Qed.

Lemma all_denominators_pos k d search_results :
  (0 <= k)%Z -> Forall (fun n => (0 < n)%Z) (all_denominators k d search_results).
Proof.
  intros Hk. unfold all_denominators.
  induction search_results as [|ranks more IH]; cbn; [constructor|].
  apply Forall_app. split; [now apply denominators_pos|exact IH].
Qed.

(** One list of ranks, with a non-negative fusion constant. *)
Lemma fuse_ranks_spec k ranks rank fused :
  (0 <= k)%Z ->
  exists fused',
    fuse_ranks k ranks rank fused = Ret fused'
    /\ keys fused' = fold_left add_key ranks (keys fused)
    /\ forall d, score_in fused' d
                 = sum_from (score_in fused d) (denominators k d ranks rank).
Proof.
  intros Hk. revert rank fused.
  induction ranks as [|x rest IH]; intros rank fused; cbn [fuse_ranks].
  - exists fused. repeat split.
  - unfold Float.truediv_int.
    destruct (Z.eqb_spec (k + Z.of_nat rank + 1) 0) as [E|_]; [lia|].
    fold (reciprocal (k + Z.of_nat rank + 1)).
    destruct (IH (S rank)
                (add_score fused x (reciprocal (k + Z.of_nat rank + 1))))
      as (fused' & Hr & Hk' & Hs).
    exists fused'. split; [exact Hr|]. split.
    + rewrite Hk'. cbn [fold_left]. unfold add_score. now rewrite keys_set.
    + intros d. rewrite Hs, score_in_add_score. cbn [denominators].
      destruct (key_eqb x d) eqn:E; [|reflexivity].
      apply key_eqb_eq in E. now subst.
Qed.

Lemma sum_from_app start ns ms :
  sum_from start (ns ++ ms) = sum_from (sum_from start ns) ms.
Proof. unfold sum_from. apply fold_left_app. Qed.

Lemma fuse_all_spec k search_results fused :
  (0 <= k)%Z ->
  exists fused',
    fuse_all k search_results fused = Ret fused'
    /\ keys fused' = fold_left add_key (concat search_results) (keys fused)
    /\ forall d, score_in fused' d
                 = sum_from (score_in fused d) (all_denominators k d search_results).
Proof.
  intros Hk. revert fused.
  induction search_results as [|ranks more IH]; intros fused; cbn [fuse_all].
  - exists fused. repeat split.
  - destruct (fuse_ranks_spec ranks 0 fused Hk) as (f1 & Hr1 & Hk1 & Hs1).
    rewrite Hr1.
    destruct (IH f1) as (f2 & Hr2 & Hk2 & Hs2).
    exists f2. split; [exact Hr2|]. split.
    + rewrite Hk2, Hk1. cbn [concat]. now rewrite fold_left_app.
    + intros d. rewrite Hs2, Hs1. unfold all_denominators. cbn [flat_map].
      now rewrite sum_from_app.
Qed.



(** The dictionary of the fusion, for a non-negative fusion constant:
    its keys are the identifiers in first-seen order and its values the
    scores, which are ordered floats. *)
Lemma fusion_scores (search_results : list (list text)) (k : Z) :
  (0 <= k)%Z ->
  exists fused,
    fuse_all k search_results [] = Ret fused
    /\ first_seen (keys fused) (concat search_results)
    /\ (forall d, score_in fused d = rrf_score k search_results d)
    /\ Forall (fun a => nonneg (score_in fused a)) (keys fused).
Proof.
  intros Hk.
  destruct (fuse_all_spec search_results [] Hk) as (fused & Hr & Hkeys & Hs).
  pose proof (first_seen_fold (concat search_results) first_seen_nil) as Hfs.
  cbn [app] in Hfs.
  change (@nil text) with (keys (@nil (text * Float.float))) in Hfs.
  rewrite <- Hkeys in Hfs.
  assert (Hscore : forall d, score_in fused d = rrf_score k search_results d).
  { intros d. now rewrite Hs. }
  exists fused. split; [exact Hr|]. split; [exact Hfs|]. split; [exact Hscore|].
  apply Forall_forall. intros d _. rewrite Hscore.
  apply sum_from_nonneg; [now apply all_denominators_pos|reflexivity].
Qed.

(** The fused ranking repeats no identifier. *)
Lemma fusion_NoDup (search_results : list (list text)) (k : Z) :
  (0 <= k)%Z ->
  exists out, reciprocal_rank_fusion search_results k = Ret out /\ NoDup out.
Proof.
  intros Hk.
  destruct (fusion_scores search_results Hk) as (fused & Hr & [Hn _ _] & _ & Hgood).
  destruct (@sorted_reverse_spec _ Float.ltb nonneg ltb_asym ltb_negtrans
              (score_in fused) (keys fused) Hn Hgood) as [Hperm _].
  unfold reciprocal_rank_fusion. rewrite Hr. eexists. split; [reflexivity|].
  eapply Permutation_NoDup; [symmetry; exact Hperm|exact Hn].
Qed.



(** *** The aggregation loop *)

(** The estimated token cost of a context: [len(content) // 4] per chunk. *)
Definition estimated_tokens (ctx : list chunk) : nat :=
  list_sum (map (fun c => length (content c) / 4) ctx).

Lemma estimated_tokens_snoc ctx c :
  estimated_tokens (ctx ++ [c]) = estimated_tokens ctx + length (content c) / 4.
Proof.
  unfold estimated_tokens. rewrite map_app, list_sum_app. cbn. lia.
Qed.

Lemma fetch_returns_content p t tr :
  (exists c, vector_get_content p t = Ret c) ->
  exists c, fetch_full_schema_content p t tr = (Ret c, tr ++ [EvGetContent t]).
Proof.
  intros [c Hc]. unfold fetch_full_schema_content, perform. rewrite Hc.
  destruct c; eexists; reflexivity.
Qed.

Lemma aggregate_spec p fused n ctx tr ctx' trunc tr' :
  aggregate p fused n ctx tr = (Ret (ctx', trunc), tr') ->
  n = estimated_tokens ctx -> n <= TOKEN_BUDGET ->
  estimated_tokens ctx' <= TOKEN_BUDGET
  /\ exists taken rest,
       fused = taken ++ rest
       /\ map table_name ctx' = map table_name ctx ++ taken
       /\ (trunc = true <-> rest <> []).
Proof.
  revert n ctx tr.
  induction fused as [|t more IH]; intros n ctx tr; cbn [aggregate].
  - intros H Hn Hb. inversion H; subst. split; [exact Hb|].
    exists [], []. rewrite !app_nil_r.
    split; [reflexivity|]. split; [reflexivity|].
    split; [discriminate|]. intros Hne. now destruct Hne.
  - destruct (fetch_full_schema_content p t tr) as [[c|e] tr1]; [|discriminate].
    destruct (n + length c / 4 <=? TOKEN_BUDGET) eqn:E.
    + apply Nat.leb_le in E. intros H Hn Hb.
      apply IH in H; [|rewrite estimated_tokens_snoc; cbn; lia|exact E].
      destruct H as (Hb' & taken & rest & Hf & Hnames & Htr).
      split; [exact Hb'|]. exists (t :: taken), rest.
      split; [cbn; congruence|]. split; [|exact Htr].
      rewrite Hnames, map_app. cbn. now rewrite <- app_assoc.
    + intros H Hn Hb. inversion H; subst. split; [exact Hb|].
      exists [], (t :: more). rewrite app_nil_r.
      split; [reflexivity|]. split; [reflexivity|].
      split; [discriminate|reflexivity].
Qed.

Lemma aggregate_returns p fused n ctx tr :
  (forall t, exists c, vector_get_content p t = Ret c) ->
  exists ctx' trunc tr', aggregate p fused n ctx tr = (Ret (ctx', trunc), tr').
Proof.
  intros Hc. revert n ctx tr.
  induction fused as [|t more IH]; intros n ctx tr; cbn [aggregate].
  - now repeat eexists.
  - destruct (fetch_returns_content p t tr (Hc t)) as [c ->].
    destruct (_ <=? _); [apply IH|now repeat eexists].
Qed.

(** C4. Whenever [retrieve_schema_chunks] returns a context and a
    truncation flag, the estimated token costs of the chunks of the
    context, [len(content) // 4] each, add up to at most [TOKEN_BUDGET],
    and the flag is set exactly when some identifier of the fused ranking
    has no chunk in the context.  It does return whenever the two
    searches and the content lookups return. *)
Theorem retrieved_context_within_budget
    (p : providers) (query : text) (tr : trace) :
  (forall ctx trunc tr',
      retrieve_schema_chunks p query tr = (Ret (ctx, trunc), tr') ->
      estimated_tokens ctx <= TOKEN_BUDGET
      /\ exists vector_ranks keyword_ranks fused_ranks,
           vector_query_top_k p query K_SEARCH = Ret vector_ranks
           /\ keyword_query_top_k p query K_SEARCH = Ret keyword_ranks
           /\ reciprocal_rank_fusion [vector_ranks; keyword_ranks] RRF_K
              = Ret fused_ranks
           /\ (trunc = true <->
               exists id, In id fused_ranks /\ ~ In id (map table_name ctx)))
  /\ (forall vector_ranks keyword_ranks,
        vector_query_top_k p query K_SEARCH = Ret vector_ranks ->
        keyword_query_top_k p query K_SEARCH = Ret keyword_ranks ->
        (forall t, exists c, vector_get_content p t = Ret c) ->
        exists ctx trunc tr',
          retrieve_schema_chunks p query tr = (Ret (ctx, trunc), tr')).
Proof.
  split.
  - intros ctx trunc tr'.
    unfold retrieve_schema_chunks, semantic_search, keyword_search, perform.
    destruct (vector_query_top_k p query K_SEARCH) as [v|e]; [|discriminate].
    destruct (keyword_query_top_k p query K_SEARCH) as [kw|e]; [|discriminate].
    destruct (@fusion_NoDup [v; kw] RRF_K ltac:(unfold RRF_K; lia))
      as (fused & Hrrf & Hnodup).
    rewrite Hrrf. intros H.
    apply aggregate_spec in H; [|reflexivity|cbn; lia].
    destruct H as (Hb & taken & rest & Hf & Hnames & Htr).
    split; [exact Hb|]. exists v, kw, fused.
    split; [reflexivity|]. split; [reflexivity|]. split; [exact Hrrf|].
    cbn [map app] in Hnames.
    split.
    + intros Ht. apply Htr in Ht. destruct rest as [|id rest]; [congruence|].
      exists id. rewrite Hnames, Hf. cbn [map app]. split.
      * rewrite in_app_iff. cbn. auto.
      * rewrite Hf in Hnodup. apply NoDup_remove_2 in Hnodup.
        rewrite in_app_iff in Hnodup. tauto.
    + intros (id & Hin & Hout). apply Htr. intros ->.
      rewrite app_nil_r in Hf. subst taken. now rewrite Hnames in Hout.
  - intros v kw Hv Hkw Hc.
    unfold retrieve_schema_chunks, semantic_search, keyword_search, perform.
    rewrite Hv, Hkw.
    destruct (@fusion_NoDup [v; kw] RRF_K ltac:(unfold RRF_K; lia))
      as (fused & Hrrf & _).
    rewrite Hrrf. now apply aggregate_returns.
Qed.

Lemma retrieved_context_within_budget_witness :
  exists ctx trunc tr',
    retrieve_schema_chunks (Indexing.mock_providers Indexing.simulated_store)
      "Which customer has the largest revenue?" [] = (Ret (ctx, trunc), tr')
    /\ estimated_tokens ctx <= TOKEN_BUDGET.
Proof.
  destruct (proj2 (retrieved_context_within_budget
                     (Indexing.mock_providers Indexing.simulated_store)
                     "Which customer has the largest revenue?" [])
              _ _ eq_refl eq_refl (fun t => ex_intro _ _ eq_refl))
    as (ctx & trunc & tr' & H).
  exists ctx, trunc, tr'. split; [exact H|].
  exact (proj1 (proj1 (retrieved_context_within_budget
                         (Indexing.mock_providers Indexing.simulated_store)
                         "Which customer has the largest revenue?" [])
                  ctx trunc tr' H)).
Defined.

(** C6 (as the code has it). The searches are not guarded: when the
    semantic search raises, [retrieve_schema_chunks] raises the same
    exception without asking the keyword index; when the semantic search
    returns and the keyword search raises, it raises that exception.  In
    both cases nothing is fused and no content is fetched. *)
Theorem provider_error_aborts_retrieval
    (p : providers) (query : text) (tr : trace) (e : exn) :
  (vector_query_top_k p query K_SEARCH = Raise e ->
   retrieve_schema_chunks p query tr = (Raise e, tr ++ [EvSemanticSearch query]))
  /\ (forall vector_ranks,
        vector_query_top_k p query K_SEARCH = Ret vector_ranks ->
        keyword_query_top_k p query K_SEARCH = Raise e ->
        retrieve_schema_chunks p query tr
        = (Raise e, (tr ++ [EvSemanticSearch query]) ++ [EvKeywordSearch query])).
Proof.
  unfold retrieve_schema_chunks, semantic_search, keyword_search, perform.
  split.
  - intros ->. reflexivity.
  - intros v -> ->. reflexivity.
Qed.

Lemma provider_error_aborts_retrieval_witness :
  retrieve_schema_chunks Scenarios.failing_vector_providers
    "total order amount" []
  = (Raise (ExternalError "vector store unavailable"),
     [EvSemanticSearch "total order amount"])
  /\ retrieve_schema_chunks Scenarios.failing_keyword_providers
       "total order amount" []
     = (Raise (ExternalError "keyword index unavailable"),
        [EvSemanticSearch "total order amount";
         EvKeywordSearch "total order amount"]).
Proof.
  split.
  - apply (proj1 (provider_error_aborts_retrieval
                    Scenarios.failing_vector_providers "total order amount" []
                    (ExternalError "vector store unavailable"))).
    reflexivity.
  - apply (proj2 (provider_error_aborts_retrieval
                    Scenarios.failing_keyword_providers "total order amount" []
                    (ExternalError "keyword index unavailable"))
             ["Customers"; "Orders"]);
      reflexivity.
Defined.

(** The claim of C6 fails on a vector store whose search raises: the
    keyword ranking is never computed and retrieval ends with the error. *)
Lemma retrieval_aborts_on_provider_error :
  fst (retrieve_schema_chunks Scenarios.failing_vector_providers
         "What was the total order amount for all key accounts?" [])
  = Raise (ExternalError "vector store unavailable")
  /\ count is_search
       (snd (retrieve_schema_chunks Scenarios.failing_vector_providers
               "What was the total order amount for all key accounts?" []))
     = 1.
Proof. split; reflexivity. Qed.

End HybridRetrieverProofs.

(** ** The matcher against the language of a pattern *)
Module ReProofs.
Import Re.

Definition within (hi : option nat) (n : nat) : Prop :=
  match hi with
  | None => True
  | Some h => n <= h
  end.

(** The words a pattern denotes. *)
Fixpoint lang (r : regex) (w : text) : Prop :=
  match r with
  | Eps => w = []
  | Chr p => exists a, w = [a] /\ p a = true
  | Seq r1 r2 => exists w1 w2, w = w1 ++ w2 /\ lang r1 w1 /\ lang r2 w2
  | Alt r1 r2 => lang r1 w \/ lang r2 w
  | Rep _ p lo hi =>
      Forall (fun a => p a = true) w /\ lo <= length w /\ within hi (length w)
  | Group r' => lang r' w
  end.

(** The characters a word of the pattern can contain. *)
Fixpoint charset (r : regex) (c : ascii) : bool :=
  match r with
  | Eps => false
  | Chr p => p c
  | Seq r1 r2 | Alt r1 r2 => charset r1 c || charset r2 c
  | Rep _ p _ _ => p c
  | Group r' => charset r' c
  end.

(** Whether the pattern can match the empty word. *)
Fixpoint nullable (r : regex) : bool :=
  match r with
  | Eps => true
  | Chr _ => false
  | Seq r1 r2 => nullable r1 && nullable r2
  | Alt r1 r2 => nullable r1 || nullable r2
  | Rep _ _ lo _ => match lo with O => true | S _ => false end
  | Group r' => nullable r'
  end.

Lemma lang_charset r w : lang r w -> Forall (fun c => charset r c = true) w.
Proof.
  revert w. induction r as [|p|r1 IH1 r2 IH2|r1 IH1 r2 IH2|g p lo hi|r IH];
    intros w; cbn.
  - intros ->. constructor.
  - intros (a & -> & Ha). now repeat constructor.
  - intros (w1 & w2 & -> & H1 & H2). apply Forall_app. split.
    + eapply Forall_impl; [|apply IH1, H1]. cbn. intros c ->. reflexivity.
    + eapply Forall_impl; [|apply IH2, H2]. cbn. intros c ->.
      apply orb_true_r.
  - intros [H|H].
    + eapply Forall_impl; [|apply IH1, H]. cbn. intros c ->. reflexivity.
    + eapply Forall_impl; [|apply IH2, H]. cbn. intros c ->.
      apply orb_true_r.
  - tauto.
  - apply IH.
Qed.

Lemma lang_nullable r : lang r [] -> nullable r = true.
Proof.
  induction r as [|p|r1 IH1 r2 IH2|r1 IH1 r2 IH2|g p lo hi|r IH]; cbn.
  - reflexivity.
  - intros (a & H & _). discriminate.
  - intros (w1 & w2 & E & H1 & H2). symmetry in E.
    apply app_eq_nil in E. destruct E; subst.
    now rewrite IH1, IH2.
  - intros [H|H]; [rewrite IH1|rewrite IH2]; auto using orb_true_r.
  - intros (_ & H & _). destruct lo; [reflexivity|cbn in H; lia].
  - exact IH.
Qed.

Section Matcher.
Variable R : Type.

Lemma rep_eq greedy p lo hi s (k : text -> option R) :
  rep greedy p lo hi s k =
  match lo with
  | S lo' =>
      match s with
      | a :: t => if p a && may_take hi then rep greedy p lo' (dec hi) t k else None
      | [] => None
      end
  | O =>
      if greedy then
        match
          match s with
          | a :: t => if p a && may_take hi then rep greedy p 0 (dec hi) t k else None
          | [] => None
          end
        with
        | Some x => Some x
        | None => k s
        end
      else
        match k s with
        | Some x => Some x
        | None =>
            match s with
            | a :: t => if p a && may_take hi then rep greedy p 0 (dec hi) t k else None
            | [] => None
            end
        end
  end.
Proof. destruct s; reflexivity. Qed.

Lemma within_dec hi n : may_take hi = true -> within (dec hi) n -> within hi (S n).
Proof. destruct hi as [[|h]|]; cbn; try discriminate; intros; lia. Qed.

Lemma within_S hi n : within hi (S n) -> may_take hi = true /\ within (dec hi) n.
Proof. destruct hi as [[|h]|]; cbn; intros; split; auto; lia. Qed.

Lemma rep_sound greedy p lo hi s (k : text -> option R) x :
  rep greedy p lo hi s k = Some x ->
  exists w s', s = w ++ s'
    /\ Forall (fun a => p a = true) w /\ lo <= length w /\ within hi (length w)
    /\ k s' = Some x.
Proof.
  revert lo hi.
  assert (Hstop : forall hi, k s = Some x ->
            exists w s', s = w ++ s'
              /\ Forall (fun a => p a = true) w /\ 0 <= length w
              /\ within hi (length w) /\ k s' = Some x).
  { intros hi Hk. exists [], s. repeat split; auto.
    destruct hi; cbn; lia. }
  induction s as [|a t IH]; intros lo hi; rewrite rep_eq.
  - destruct lo; [|discriminate].
    destruct greedy; [intros H; now apply Hstop|].
    destruct (k []) eqn:Ek; [|discriminate].
    intros H. apply Hstop. congruence.
  - assert (Htake : forall lo',
              (if p a && may_take hi then rep greedy p lo' (dec hi) t k else None)
              = Some x ->
              exists w s', a :: t = w ++ s'
                /\ Forall (fun a => p a = true) w /\ S lo' <= length w
                /\ within hi (length w) /\ k s' = Some x).
    { intros lo'. destruct (p a) eqn:Ep; [|discriminate].
      destruct (may_take hi) eqn:Em; [|discriminate]. cbn [andb].
      intros H. apply IH in H; [|intros hi' Hk'].
      - destruct H as (w & s' & -> & Hw & Hlo & Hhi & Hk).
        exists (a :: w), s'. repeat split; auto; cbn; [lia|].
        now apply within_dec.
      - exists [], t. repeat split; auto. destruct hi'; cbn; lia. }
    destruct lo as [|lo'].
    + destruct greedy.
      * destruct (if p a && may_take hi then _ else None) eqn:E.
        -- intros H. injection H as ->.
           destruct (Htake 0 E) as (w & s' & Hs & Hw & Hlo & Hr).
           exists w, s'. repeat split; auto; try apply Hr. lia.
        -- intros H. now apply Hstop.
      * destruct (k (a :: t)) eqn:Ek.
        -- intros H. apply Hstop. congruence.
        -- intros H. destruct (Htake 0 H) as (w & s' & Hs & Hw & Hlo & Hr).
           exists w, s'. repeat split; auto; try apply Hr. lia.
    + apply Htake.
Qed.

Lemma rep_complete greedy p lo hi w s' (k : text -> option R) :
  Forall (fun a => p a = true) w -> lo <= length w -> within hi (length w) ->
  k s' <> None ->
  rep greedy p lo hi (w ++ s') k <> None.
Proof.
  intros Hw. revert lo hi.
  induction Hw as [|a w Ha Hw IH]; intros lo hi Hlo Hhi Hk; rewrite rep_eq.
  - cbn in Hlo. destruct lo; [|lia]. cbn [app].
    destruct greedy.
    + destruct (match s' with [] => None | _ :: _ => _ end); congruence.
    + destruct (k s'); congruence.
  - cbn [app]. cbn [length] in Hlo, Hhi.
    apply within_S in Hhi. destruct Hhi as [Hm Hhi].
    rewrite Ha, Hm. cbn [andb].
    destruct lo as [|lo'].
    + specialize (IH 0 (dec hi) ltac:(lia) Hhi Hk).
      destruct greedy.
      * destruct (rep true p 0 (dec hi) (w ++ s') k); congruence.
      * destruct (k (a :: w ++ s')); congruence.
    + apply IH; auto. lia.
Qed.

Lemma bt_sound r s g (k : text -> option text -> option R) x :
  bt r s g k = Some x ->
  exists w s' g', s = w ++ s' /\ lang r w /\ k s' g' = Some x.
Proof.
  revert s g k.
  induction r as [|p|r1 IH1 r2 IH2|r1 IH1 r2 IH2|gr p lo hi|r IH];
    intros s g k; cbn [bt lang].
  - intros H. now exists [], s, g.
  - destruct s as [|a t]; [discriminate|].
    destruct (p a) eqn:Ep; [|discriminate].
    intros H. exists [a], t, g.
    split; [reflexivity|]. split; [now exists a|exact H].
  - intros H. apply IH1 in H. destruct H as (w1 & s1 & g1 & -> & H1 & H).
    apply IH2 in H. destruct H as (w2 & s2 & g2 & -> & H2 & H).
    exists (w1 ++ w2), s2, g2. rewrite <- app_assoc.
    split; [reflexivity|]. split; [now exists w1, w2|exact H].
  - destruct (bt r1 s g k) eqn:E.
    + intros H. injection H as ->. apply IH1 in E.
      destruct E as (w & s' & g' & -> & H1 & H). exists w, s', g'. auto.
    + intros H. apply IH2 in H.
      destruct H as (w & s' & g' & -> & H1 & H). exists w, s', g'. auto.
  - intros H. apply rep_sound in H.
    destruct H as (w & s' & -> & Hw & Hlo & Hhi & Hk).
    exists w, s', g. auto.
  - intros H. apply IH in H. destruct H as (w & s' & g' & -> & H1 & H).
    now exists w, s', (Some (firstn (length (w ++ s') - length s') (w ++ s'))).
Qed.

Lemma bt_complete r w s' g (k : text -> option text -> option R) :
  lang r w -> (forall g', k s' g' <> None) ->
  bt r (w ++ s') g k <> None.
Proof.
  revert w s' g k.
  induction r as [|p|r1 IH1 r2 IH2|r1 IH1 r2 IH2|gr p lo hi|r IH];
    intros w s' g k; cbn [bt lang].
  - intros -> Hk. apply Hk.
  - intros (a & -> & Ha) Hk. cbn. rewrite Ha. apply Hk.
  - intros (w1 & w2 & -> & H1 & H2) Hk. rewrite <- app_assoc.
    apply IH1; [exact H1|]. intros g'. now apply IH2.
  - intros [H|H] Hk.
    + specialize (IH1 w s' g k H Hk).
      destruct (bt r1 (w ++ s') g k); congruence.
    + destruct (bt r1 (w ++ s') g k); [congruence|]. now apply IH2.
  - intros (Hw & Hlo & Hhi) Hk. apply rep_complete; auto.
  - intros H Hk. apply IH; [exact H|]. intros g'. apply Hk.
Qed.

End Matcher.

Lemma match_at_sound r s n g :
  match_at r s = Some (n, g) ->
  exists w s', s = w ++ s' /\ lang r w /\ n = length w.
Proof.
  unfold match_at. intros H. apply bt_sound in H.
  destruct H as (w & s' & g' & -> & Hl & H). injection H as <- _.
  exists w, s'. repeat split; auto. rewrite length_app. lia.
Qed.

Lemma match_at_complete r w s' : lang r w -> match_at r (w ++ s') <> None.
Proof.
  intros H. unfold match_at. apply bt_complete; [exact H|discriminate].
Qed.

End ReProofs.

(** ** Substitution scans

    [re.sub] and [str.replace] are the same left-to-right scan, with a
    different test at each position.  The text a scan produces holds no
    occurrence of a pattern that the replacement text cannot take part
    in, when the copied positions held none. *)
Module ScanProofs.
Import Re ReProofs.

Fixpoint take_while (C : ascii -> bool) (x : text) : text :=
  match x with
  | [] => []
  | c :: t => if C c then c :: take_while C t else []
  end.

(** The non-empty suffixes of a text. *)
Fixpoint suffixes (x : text) : list text :=
  match x with
  | [] => []
  | _ :: t => x :: suffixes t
  end.

(** The scan: [m s] is the length of the match at the start of [s]. *)
Fixpoint scan (m : text -> option nat) (repl s : text) (skip : nat) : text :=
  match s with
  | [] => []
  | c :: t =>
      match skip with
      | S n => scan m repl t n
      | O =>
          match m s with
          | Some (S n) => repl ++ scan m repl t n
          | _ => c :: scan m repl t 0
          end
      end
  end.

(** Whether the scan replaces at the start of [s]. *)
Definition hit (m : text -> option nat) (s : text) : bool :=
  match m s with
  | Some (S _) => true
  | _ => false
  end.

(** [pm] holds at no position of [s]. *)
Definition free (pm : text -> bool) (s : text) : Prop :=
  forall i, pm (skipn i s) = false.

(** A test [pm] for an occurrence at the start of a text, whose
    occurrences are non-empty words over the characters [C]. *)
Record probe (pm : text -> bool) (C : ascii -> bool) : Prop := {
  probe_word : forall s, pm s = true ->
      exists w s', s = w ++ s' /\ w <> []
        /\ Forall (fun c => C c = true) w /\ pm w = true;
  probe_extend : forall u z, pm u = true -> pm (u ++ z) = true
}.

(** The replacement text [repl] cannot take part in an occurrence. *)
Definition inert (pm : text -> bool) (C : ascii -> bool) (repl : text) : bool :=
  match repl with
  | [] => false
  | h :: _ => negb (C h)
  end &&
  forallb (fun x => negb (pm (take_while C x)) &&
                    negb (length (take_while C x) =? length x))
          (suffixes repl).

Lemma free_tail pm c t : free pm (c :: t) -> free pm t.
Proof. intros H i. apply (H (S i)). Qed.

Lemma free_cons pm c t : pm (c :: t) = false -> free pm t -> free pm (c :: t).
Proof. intros H0 Ht [|i]; [exact H0|apply Ht]. Qed.

Lemma suffixes_skipn x i : i < length x -> In (skipn i x) (suffixes x).
Proof.
  revert i. induction x as [|c t IH]; intros i; cbn [length]; [lia|].
  destruct i as [|i]; cbn [skipn suffixes]; [now left|].
  intros H. right. apply IH. lia.
Qed.

Lemma take_while_prefix C w s' x z :
  Forall (fun c => C c = true) w -> w ++ s' = x ++ z ->
  length (take_while C x) <> length x ->
  exists u, take_while C x = w ++ u.
Proof.
  intros Hw. revert x.
  induction Hw as [|a w Ha Hw IH]; intros x E Hx; [now eexists|].
  destruct x as [|c x]; [cbn in Hx; lia|].
  cbn in E. injection E as -> E. cbn [take_while] in *. rewrite Ha in *.
  destruct (IH x E) as [u Hu]; [cbn in Hx; lia|].
  exists u. cbn. now rewrite Hu.
Qed.

Section Scan.
Variables (m : text -> option nat) (repl : text).
Variables (pm : text -> bool) (C : ascii -> bool).
Hypothesis Hprobe : probe pm C.
Hypothesis Hinert : inert pm C repl = true.

Lemma probe_nil : pm [] = false.
Proof.
  destruct (pm []) eqn:E; [|reflexivity].
  apply (probe_word Hprobe) in E.
  destruct E as (w & s' & E & Hw & _). symmetry in E.
  apply app_eq_nil in E. tauto.
Qed.

Lemma inert_head : exists h rest, repl = h :: rest /\ C h = false.
Proof.
  pose proof Hinert as H0. unfold inert in H0. apply andb_true_iff in H0.
  destruct H0 as [H _]. destruct repl as [|h rest]; [discriminate|].
  exists h, rest. split; [reflexivity|]. now apply negb_true_iff.
Qed.

Lemma inert_inside i z : i < length repl -> pm (skipn i repl ++ z) = false.
Proof.
  intros Hi. pose proof Hinert as H0. unfold inert in H0.
  apply andb_true_iff in H0.
  destruct H0 as [_ H]. rewrite forallb_forall in H.
  specialize (H _ (suffixes_skipn repl Hi)).
  apply andb_true_iff in H. destruct H as [H1 H2].
  apply negb_true_iff in H1, H2. apply Nat.eqb_neq in H2.
  destruct (pm (skipn i repl ++ z)) eqn:E; [|reflexivity].
  apply (probe_word Hprobe) in E.
  destruct E as (w & s' & E & _ & Hw & Hpm).
  destruct (@take_while_prefix C w s' (skipn i repl) z Hw (eq_sym E) H2)
    as [u Hu].
  apply (probe_extend Hprobe) with (z := u) in Hpm. congruence.
Qed.

(** A word over [C] at the start of the scanned text was already at
    the start of the text. *)
Lemma scan_prefix w s1 s :
  Forall (fun c => C c = true) w -> w ++ s1 = scan m repl s 0 ->
  exists s2, w ++ s2 = s.
Proof.
  intros Hw. revert s1 s.
  induction Hw as [|a w Ha Hw IH]; intros s1 s E; [now eexists|].
  destruct s as [|c t]; [discriminate|]. cbn [scan] in E.
  destruct inert_head as (h & rest & Hr & Hh).
  assert (Hcopy : (a :: w) ++ s1 = c :: scan m repl t 0 ->
                  exists s2, (a :: w) ++ s2 = c :: t).
  { cbn. intros H. injection H as -> H. destruct (IH _ _ H) as [s2 <-].
    now exists s2. }
  destruct (m (c :: t)) as [[|n]|]; auto.
  rewrite Hr in E. cbn in E. injection E as -> _. congruence.
Qed.

(** The copied positions of [s] hold no occurrence. *)
Definition copied_free (s : text) : Prop :=
  forall i, hit m (skipn i s) = false -> pm (skipn i s) = false.

Lemma copied_free_tail c t : copied_free (c :: t) -> copied_free t.
Proof. intros H i. apply (H (S i)). Qed.

Lemma scan_free s skip : copied_free s -> free pm (scan m repl s skip).
Proof.
  revert skip. induction s as [|c t IH]; intros skip Hq.
  - intros i. cbn. rewrite skipn_nil. apply probe_nil.
  - pose proof (copied_free_tail Hq) as Hq'.
    destruct skip as [|n]; cbn [scan]; [|now apply IH].
    assert (Hcopy : hit m (c :: t) = false ->
                    free pm (c :: scan m repl t 0)).
    { intros Hh. apply free_cons; [|now apply IH].
      destruct (pm (c :: scan m repl t 0)) eqn:E; [|reflexivity].
      apply (probe_word Hprobe) in E.
      destruct E as (w & s' & E & Hne & Hw & Hpm).
      destruct w as [|a w]; [congruence|].
      cbn in E. injection E as <- E.
      inversion Hw as [|? ? Ha Hw']; subst.
      destruct (@scan_prefix w s' t Hw' (eq_sym E)) as [s2 <-].
      apply (probe_extend Hprobe) with (z := s2) in Hpm.
      rewrite <- Hpm. apply (Hq 0). exact Hh. }
    unfold hit in Hcopy.
    destruct (m (c :: t)) as [[|n]|]; auto.
    intros i. destruct (Nat.lt_ge_cases i (length repl)) as [Hi|Hi].
    + rewrite skipn_app.
      replace (i - length repl) with 0 by lia. cbn [skipn].
      now apply inert_inside.
    + rewrite skipn_app, skipn_all2 by exact Hi. cbn [app].
      now apply IH.
Qed.

End Scan.

(** A scan that finds nothing copies its input. *)
Lemma scan_id m repl s : free (hit m) s -> scan m repl s 0 = s.
Proof.
  induction s as [|c t IH]; intros H; [reflexivity|].
  cbn [scan]. pose proof (H 0) as H0. cbn in H0. unfold hit in H0.
  rewrite IH by exact (free_tail H).
  now destruct (m (c :: t)) as [[|n]|].
Qed.

(** Either nothing is replaced or the result holds the replacement. *)
Lemma scan_cases m repl s skip :
  scan m repl s skip = skipn skip s \/
  exists a b, scan m repl s skip = a ++ repl ++ b.
Proof.
  revert skip. induction s as [|c t IH]; intros skip.
  - left. now rewrite skipn_nil.
  - destruct skip as [|n]; cbn [scan skipn]; [|apply IH].
    destruct (m (c :: t)) as [[|n]|].
    + destruct (IH 0) as [->|(a & b & ->)]; [now left|].
      right. now exists (c :: a), b.
    + right. now exists [], (scan m repl t n).
    + destruct (IH 0) as [->|(a & b & ->)]; [now left|].
      right. now exists (c :: a), b.
Qed.

(** *** The scans of the repository *)

(** [re.sub] with a pattern that does not match the empty word. *)
Definition re_length (r : regex) (s : text) : option nat :=
  option_map fst (match_at r s).

Definition re_matches (r : regex) (s : text) : bool := found (match_at r s).

Lemma match_at_nonempty r s g : nullable r = false -> match_at r s <> Some (0, g).
Proof.
  intros Hn H. apply match_at_sound in H.
  destruct H as (w & s' & _ & Hl & Hw).
  destruct w; [|discriminate]. apply lang_nullable in Hl. congruence.
Qed.

Lemma hit_re r s : nullable r = false -> hit (re_length r) s = re_matches r s.
Proof.
  intros Hn. unfold hit, re_length, re_matches.
  pose proof (@match_at_nonempty r s) as H.
  destruct (match_at r s) as [[[|n] g]|]; cbn; auto.
  now destruct (H g Hn).
Qed.

Lemma sub_from_scan r repl s skip :
  nullable r = false -> sub_from r repl s skip = scan (re_length r) repl s skip.
Proof.
  intros Hn. revert skip. induction s as [|c t IH]; intros skip; cbn [sub_from scan].
  - destruct skip; [|reflexivity].
    pose proof (@match_at_nonempty r []) as H.
    destruct (match_at r []) as [[n g]|] eqn:E; [|reflexivity].
    apply match_at_sound in E. destruct E as (w & s' & E & Hl & Hw).
    symmetry in E. apply app_eq_nil in E. destruct E; subst.
    apply lang_nullable in Hl. congruence.
  - destruct skip as [|n]; [|apply IH].
    unfold re_length.
    pose proof (@match_at_nonempty r (c :: t)) as H.
    destruct (match_at r (c :: t)) as [[[|n] g]|]; cbn [option_map fst].
    + now destruct (H g Hn).
    + now rewrite IH.
    + now rewrite IH.
Qed.

Lemma search_from_free r s i :
  found (search_from r s i) = false <-> free (re_matches r) s.
Proof.
  revert i. induction s as [|c t IH]; intros i; cbn [search_from].
  - unfold free, re_matches. split.
    + intros H j. rewrite skipn_nil. now destruct (match_at r []) as [[n g]|].
    + intros H. specialize (H 0). cbn in H.
      now destruct (match_at r []) as [[n g]|].
  - split.
    + intros H. destruct (match_at r (c :: t)) as [[n g]|] eqn:E; [discriminate|].
      apply free_cons; [unfold re_matches; now rewrite E|].
      now apply (IH (S i)).
    + intros H. pose proof (H 0) as H0. cbn in H0. unfold re_matches in H0.
      destruct (match_at r (c :: t)) as [[n g]|]; [discriminate|].
      apply IH. exact (free_tail H).
Qed.

Lemma re_probe r : nullable r = false -> probe (re_matches r) (charset r).
Proof.
  intros Hn. unfold re_matches. split.
  - intros s H. destruct (match_at r s) as [[n g]|] eqn:E; [|discriminate].
    apply match_at_sound in E. destruct E as (w & s' & -> & Hl & _).
    exists w, s'. split; [reflexivity|]. split; [|split].
    + intros ->. apply lang_nullable in Hl. congruence.
    + now apply lang_charset.
    + pose proof (@match_at_complete r w [] Hl) as Hc.
      rewrite app_nil_r in Hc. now destruct (match_at r w).
  - intros u z H. destruct (match_at r u) as [[n g]|] eqn:E; [|discriminate].
    apply match_at_sound in E. destruct E as (w & s' & -> & Hl & _).
    pose proof (@match_at_complete r w (s' ++ z) Hl) as Hc.
    rewrite <- app_assoc. now destruct (match_at r (w ++ s' ++ z)).
Qed.

(** [str.replace] and [in], on the text seen through a character map. *)
Definition lit_length (old : text) (s : text) : option nat :=
  if Text.startswith s old then Some (length old) else None.

Definition lit_matches (f : ascii -> ascii) (word : text) (s : text) : bool :=
  Text.startswith (map f s) word.

Definition lit_chars (f : ascii -> ascii) (word : text) (c : ascii) : bool :=
  one_of word (f c).

Lemma replace_from_scan old new s skip :
  old <> [] -> Text.replace_from old new s skip = scan (lit_length old) new s skip.
Proof.
  intros Ho. destruct old as [|a old]; [congruence|].
  revert skip. induction s as [|c t IH]; intros skip;
    cbn [Text.replace_from scan]; [reflexivity|].
  destruct skip as [|n]; [|apply IH].
  unfold lit_length.
  destruct (Text.startswith (c :: t) (a :: old)); rewrite IH; [|reflexivity].
  cbn [length Nat.sub]. now rewrite ?Nat.sub_0_r.
Qed.

Lemma hit_lit old s :
  old <> [] -> hit (lit_length old) s = lit_matches (fun c => c) old s.
Proof.
  intros Ho. unfold hit, lit_length, lit_matches. rewrite map_id.
  destruct old as [|a old]; [congruence|].
  now destruct (Text.startswith s (a :: old)).
Qed.

Lemma contains_free f word s :
  Text.contains word (map f s) = false <-> free (lit_matches f word) s.
Proof.
  unfold lit_matches. induction s as [|c t IH]; cbn [map Text.contains].
  - rewrite orb_false_r. split.
    + intros H i. now rewrite skipn_nil.
    + intros H. apply (H 0).
  - rewrite orb_false_iff, IH. split.
    + intros [H0 Ht]. now apply free_cons.
    + intros H. split; [apply (H 0)|exact (free_tail H)].
Qed.

Lemma startswith_app s p : Text.startswith (p ++ s) p = true.
Proof.
  induction p as [|a p IH]; cbn; [reflexivity|].
  now rewrite Ascii.eqb_refl, IH.
Qed.

Lemma startswith_split s p :
  Text.startswith s p = true -> exists s', s = p ++ s'.
Proof.
  revert s. induction p as [|a p IH]; intros s; cbn; [now eexists|].
  destruct s as [|b s]; [discriminate|].
  intros H. apply andb_true_iff in H. destruct H as [H1 H2].
  apply Ascii.eqb_eq in H1. subst b.
  destruct (IH s H2) as [s' ->]. now exists s'.
Qed.

Lemma lit_probe f word :
  word <> [] -> probe (lit_matches f word) (lit_chars f word).
Proof.
  intros Hw. unfold lit_matches, lit_chars. split.
  - intros s H. apply startswith_split in H. destruct H as [s1 H].
    apply map_eq_app in H. destruct H as (w & s' & -> & Ew & _).
    exists w, s'. split; [reflexivity|]. split; [|split].
    + intros ->. cbn in Ew. congruence.
    + subst word. apply Forall_forall. intros c Hc.
      unfold one_of. apply existsb_exists. exists (f c).
      split; [now apply in_map|apply Ascii.eqb_refl].
    + rewrite Ew. pose proof (startswith_app [] word) as H.
      now rewrite app_nil_r in H.
  - intros u z H. apply startswith_split in H. destruct H as [s1 H].
    rewrite map_app, H, <- app_assoc. apply startswith_app.
Qed.

End ScanProofs.

(** ** The result sanitizer *)
Module SynthesisProofs.
Import Re ReProofs ScanProofs SynthesisModule.
Import Dict DictProofs.

Definition email_mask : text := "[MASKED_EMAIL]".
Definition phone_mask : text := "[MASKED_PHONE]".
Definition name_mask : text := "[MASKED_NAME]".

(** The test of the last branch of [_mask_value]. *)
Definition mentions_name_or_address (value : text) : bool :=
  Text.contains "address" (Text.lower value) ||
  Text.contains "name" (Text.lower value).

(** The text [_mask_value] has computed when its loop ends. *)
Definition regex_masked (value : text) : text :=
  sub PHONE phone_mask (sub EMAIL email_mask value).

Lemma mask_value_unfold value :
  mask_value value =
  if mentions_name_or_address value
  then Text.replace value "John Doe" name_mask
  else
    let masked := if found (search EMAIL value)
                  then sub EMAIL email_mask value else value in
    if found (search PHONE value) then sub PHONE phone_mask masked else masked.
Proof. reflexivity. Qed.

(** *** Facts about one substitution *)

Lemma sub_free_self r mask s :
  nullable r = false -> inert (re_matches r) (charset r) mask = true ->
  free (re_matches r) (sub r mask s).
Proof.
  intros Hn Hi. unfold sub. rewrite sub_from_scan by exact Hn.
  apply scan_free with (C := charset r); [now apply re_probe|exact Hi|].
  intros i H. now rewrite <- hit_re.
Qed.

Lemma sub_free_other r mask pm C s :
  nullable r = false -> probe pm C -> inert pm C mask = true ->
  free pm s -> free pm (sub r mask s).
Proof.
  intros Hn Hp Hi Hf. unfold sub. rewrite sub_from_scan by exact Hn.
  apply scan_free with (C := C); [exact Hp|exact Hi|].
  intros i _. apply Hf.
Qed.

Lemma sub_nothing r mask s :
  nullable r = false -> free (re_matches r) s -> sub r mask s = s.
Proof.
  intros Hn Hf. unfold sub. rewrite sub_from_scan by exact Hn.
  apply scan_id. intros i. rewrite hit_re by exact Hn. apply Hf.
Qed.

Lemma search_free r s :
  found (search r s) = false <-> free (re_matches r) s.
Proof. apply search_from_free. Qed.

Lemma search_sub r mask s :
  nullable r = false ->
  (if found (search r s) then sub r mask s else s) = sub r mask s.
Proof.
  intros Hn. destruct (found (search r s)) eqn:E; [reflexivity|].
  symmetry. apply sub_nothing; [exact Hn|]. now apply search_free.
Qed.

(** *** The patterns and the masks of the repository *)

Lemma EMAIL_nonempty : nullable EMAIL = false.
Proof. reflexivity. Qed.

Lemma PHONE_nonempty : nullable PHONE = false.
Proof. reflexivity. Qed.

Lemma email_probe : probe (re_matches EMAIL) (charset EMAIL).
Proof. apply re_probe, EMAIL_nonempty. Qed.

Lemma phone_probe : probe (re_matches PHONE) (charset PHONE).
Proof. apply re_probe, PHONE_nonempty. Qed.

Definition word_matches (word : text) : text -> bool :=
  lit_matches Text.lower_char word.
Definition word_chars (word : text) : ascii -> bool :=
  lit_chars Text.lower_char word.

Lemma inert_email_email :
  inert (re_matches EMAIL) (charset EMAIL) email_mask = true.
Proof. vm_compute. reflexivity. Qed.

Lemma inert_email_phone :
  inert (re_matches EMAIL) (charset EMAIL) phone_mask = true.
Proof. vm_compute. reflexivity. Qed.

Lemma inert_phone_email :
  inert (re_matches PHONE) (charset PHONE) email_mask = true.
Proof. vm_compute. reflexivity. Qed.

Lemma inert_phone_phone :
  inert (re_matches PHONE) (charset PHONE) phone_mask = true.
Proof. vm_compute. reflexivity. Qed.

Lemma inert_word_masks :
  forallb (fun word =>
             inert (word_matches word) (word_chars word) email_mask &&
             inert (word_matches word) (word_chars word) phone_mask)
          ["address"; "name"] = true.
Proof. vm_compute. reflexivity. Qed.

Lemma inert_john_doe :
  inert (lit_matches (fun c => c) "John Doe")
        (lit_chars (fun c => c) "John Doe") name_mask = true.
Proof. vm_compute. reflexivity. Qed.

(** *** The loop of [_mask_value] *)

Lemma regex_masked_free value :
  free (re_matches EMAIL) (regex_masked value) /\
  free (re_matches PHONE) (regex_masked value).
Proof.
  unfold regex_masked. split.
  - apply sub_free_other with (C := charset EMAIL);
      [apply PHONE_nonempty|apply email_probe|apply inert_email_phone|].
    apply sub_free_self; [apply EMAIL_nonempty|apply inert_email_email].
  - apply sub_free_self; [apply PHONE_nonempty|apply inert_phone_phone].
Qed.

Lemma mask_loop value :
  (let masked := if found (search EMAIL value)
                 then sub EMAIL email_mask value else value in
   if found (search PHONE value) then sub PHONE phone_mask masked else masked)
  = regex_masked value.
Proof.
  cbn zeta. rewrite (@search_sub EMAIL email_mask value EMAIL_nonempty).
  unfold regex_masked.
  destruct (found (search PHONE value)) eqn:E; [reflexivity|].
  symmetry. apply sub_nothing; [apply PHONE_nonempty|].
  apply sub_free_other with (C := charset PHONE);
    [apply EMAIL_nonempty|apply phone_probe|apply inert_phone_email|].
  now apply search_free.
Qed.

Lemma regex_masked_idem value :
  regex_masked (regex_masked value) = regex_masked value.
Proof.
  destruct (regex_masked_free value) as [He Hp].
  unfold regex_masked at 1.
  rewrite (@sub_nothing EMAIL email_mask _ EMAIL_nonempty He).
  apply (@sub_nothing PHONE phone_mask _ PHONE_nonempty Hp).
Qed.

Lemma word_free_regex_masked word value :
  In word ["address"; "name"] ->
  Text.contains word (Text.lower value) = false ->
  Text.contains word (Text.lower (regex_masked value)) = false.
Proof.
  intros Hw. unfold Text.lower. rewrite !contains_free.
  fold (word_matches word).
  assert (Hne : word <> []) by (destruct Hw as [<-|[<-|[]]]; discriminate).
  pose proof (@lit_probe Text.lower_char word Hne) as Hp.
  pose proof inert_word_masks as Hi. rewrite forallb_forall in Hi.
  specialize (Hi word Hw). apply andb_true_iff in Hi. destruct Hi as [Hie Hip].
  intros Hf. unfold regex_masked.
  apply sub_free_other with (C := word_chars word);
    [apply PHONE_nonempty|exact Hp|exact Hip|].
  apply sub_free_other with (C := word_chars word);
    [apply EMAIL_nonempty|exact Hp|exact Hie|exact Hf].
Qed.

Lemma mentions_regex_masked value :
  mentions_name_or_address value = false ->
  mentions_name_or_address (regex_masked value) = false.
Proof.
  unfold mentions_name_or_address. rewrite !orb_false_iff.
  intros [Ha Hn]. split; apply word_free_regex_masked; cbn; auto.
Qed.

(** *** The branch for names and addresses *)

Lemma contains_app_r p x s :
  Text.contains p s = true -> Text.contains p (x ++ s) = true.
Proof.
  intros H. induction x as [|c x IH]; [exact H|].
  cbn [app Text.contains]. rewrite IH. apply orb_true_r.
Qed.

Lemma contains_app_l p y z :
  Text.contains p y = true -> Text.contains p (y ++ z) = true.
Proof.
  induction y as [|c y IH]; cbn [app Text.contains].
  - rewrite orb_false_r. intros H. apply startswith_split in H.
    destruct H as [s' H]. symmetry in H. apply app_eq_nil in H.
    destruct H as [-> _]. now destruct z.
  - intros H. apply orb_true_iff in H. destruct H as [H|H].
    + apply startswith_split in H. destruct H as [s' H].
      change (c :: y ++ z) with ((c :: y) ++ z).
      rewrite H, <- app_assoc, startswith_app. reflexivity.
    + rewrite (IH H). apply orb_true_r.
Qed.

Lemma replace_john_doe value :
  Text.replace value "John Doe" name_mask = value \/
  exists a b, Text.replace value "John Doe" name_mask = a ++ name_mask ++ b.
Proof.
  unfold Text.replace. rewrite replace_from_scan by discriminate.
  apply (scan_cases (lit_length "John Doe") name_mask value 0).
Qed.

Lemma mentions_replace value :
  mentions_name_or_address value = true ->
  mentions_name_or_address (Text.replace value "John Doe" name_mask) = true.
Proof.
  intros H. destruct (replace_john_doe value) as [->|(a & b & ->)]; [exact H|].
  unfold mentions_name_or_address, Text.lower. rewrite !map_app.
  apply orb_true_iff. right.
  apply contains_app_r, contains_app_l. reflexivity.
Qed.

Lemma replace_idem value :
  Text.replace (Text.replace value "John Doe" name_mask) "John Doe" name_mask
  = Text.replace value "John Doe" name_mask.
Proof.
  unfold Text.replace. rewrite !replace_from_scan by discriminate.
  apply scan_id. intros i. rewrite hit_lit by discriminate.
  revert i. apply scan_free with (C := lit_chars (fun c => c) "John Doe").
  - apply lit_probe. discriminate.
  - apply inert_john_doe.
  - intros i H. now rewrite <- hit_lit by discriminate.
Qed.

Lemma mask_value_idem value : mask_value (mask_value value) = mask_value value.
Proof.
  rewrite (mask_value_unfold value), mask_loop.
  destruct (mentions_name_or_address value) eqn:E.
  - rewrite mask_value_unfold, (@mentions_replace value E). apply replace_idem.
  - rewrite mask_value_unfold, mask_loop, (@mentions_regex_masked value E).
    apply regex_masked_idem.
Qed.

(** *** Rows *)

Definition set_all (f : value -> value) (l : list (text * value)) (acc : row)
    : row :=
  fold_left (fun new_row kv => Dict.set new_row (fst kv) (f (snd kv))) l acc.

Lemma set_new (V : Type) (d : Dict.t V) k v :
  ~ In k (keys d) -> Dict.set d k v = d ++ [(k, v)].
Proof.
  unfold keys. induction d as [|[k' v'] rest IH]; cbn; [reflexivity|].
  intros H. destruct (key_eqb k' k) eqn:E.
  - apply key_eqb_eq in E. tauto.
  - rewrite IH; tauto.
Qed.

Lemma In_set (V : Type) (d : Dict.t V) k v kv :
  In kv (Dict.set d k v) -> In kv d \/ snd kv = v.
Proof.
  induction d as [|[k' v'] rest IH]; cbn.
  - intros [<-|[]]. now right.
  - destruct (key_eqb k' k); cbn.
    + intros [<-|H]; auto.
    + intros [<-|H]; auto. destruct (IH H); auto.
Qed.

Lemma add_key_NoDup ks k : NoDup ks -> NoDup (add_key ks k).
Proof.
  intros H. unfold add_key. destruct (mem k ks) eqn:E; [exact H|].
  apply mem_not_In in E. apply NoDup_app; [exact H|repeat constructor; cbn; tauto|].
  intros x Hx [<-|[]]. tauto.
Qed.

Lemma set_all_keys f l acc : NoDup (keys acc) -> NoDup (keys (set_all f l acc)).
Proof.
  unfold set_all. revert acc.
  induction l as [|[k v] l IH]; intros acc H; cbn; [exact H|].
  apply IH. rewrite keys_set. now apply add_key_NoDup.
Qed.

Lemma set_all_values f l acc :
  Forall (fun kv => exists v, snd kv = f v) acc ->
  Forall (fun kv => exists v, snd kv = f v) (set_all f l acc).
Proof.
  unfold set_all. revert acc.
  induction l as [|[k v] l IH]; intros acc H; cbn; [exact H|].
  apply IH. apply Forall_forall. intros kv Hkv.
  apply In_set in Hkv. destruct Hkv as [Hkv|Hkv].
  - now apply (proj1 (Forall_forall _ _) H).
  - now exists v.
Qed.

Lemma set_all_fresh f l acc :
  NoDup (keys l) -> (forall k, In k (keys l) -> ~ In k (keys acc)) ->
  set_all f l acc = acc ++ map (fun kv => (fst kv, f (snd kv))) l.
Proof.
  unfold set_all, keys. revert acc.
  induction l as [|[k v] l IH]; intros acc Hn Hd; cbn.
  - now rewrite app_nil_r.
  - inversion Hn as [|? ? Hk Hn']; subst.
    rewrite set_new by (apply Hd; cbn; auto).
    rewrite IH; [now rewrite <- app_assoc|exact Hn'|].
    intros k' Hk'. rewrite map_app, in_app_iff. cbn.
    intros [H|[H|[]]].
    + apply (Hd k'); cbn; auto.
    + now subst.
Qed.

Lemma scrub_value_idem v : scrub_value (scrub_value v) = scrub_value v.
Proof. destruct v; cbn; [|reflexivity..]. now rewrite mask_value_idem. Qed.

Lemma scrub_row_idem r : scrub_row (scrub_row r) = scrub_row r.
Proof.
  change (scrub_row r) with (set_all scrub_value r []).
  pose proof (@set_all_keys scrub_value r [] ltac:(constructor)) as Hn.
  pose proof (@set_all_values scrub_value r [] ltac:(constructor)) as Hv.
  revert Hn Hv. generalize (set_all scrub_value r []) as d. intros d Hn Hv.
  change (scrub_row d) with (set_all scrub_value d []).
  rewrite set_all_fresh by (auto; intros k _ []). cbn [app].
  induction Hv as [|[k v] d [v0 Hv0] Hv IH]; cbn; [reflexivity|].
  inversion Hn; subst. rewrite IH by assumption.
  cbn in Hv0. subst v. now rewrite scrub_value_idem.
Qed.

(** C9. Scrubbing a result set that has been scrubbed changes nothing. *)
Theorem scrub_results_idempotent (rows : list row) :
  scrub_results (scrub_results rows) = scrub_results rows.
Proof.
  unfold scrub_results. rewrite map_map.
  apply map_ext. intros r. apply scrub_row_idem.
Qed.

(** Fields that are not strings are kept, in every row. *)
Lemma scrub_value_other v :
  (forall s, v <> VStr s) -> scrub_value v = v.
Proof. destruct v; intros H; [now destruct (H s)|reflexivity..]. Qed.

(** C8, at an input where the code departs from it. The value contains
    the word [name] and an email address: the pattern matches, yet
    [scrub_results] returns the row unchanged, because the last branch
    of [_mask_value] starts again from the unmasked text.  Without the
    word [name] the same address is masked. *)
Theorem scrub_results_keeps_email_beside_name :
  found (search EMAIL "name: bob@example.com") = true
  /\ scrub_results [[("contact", VStr "name: bob@example.com"); ("id", VInt 7)]]
     = [[("contact", VStr "name: bob@example.com"); ("id", VInt 7)]]
  /\ scrub_results [[("contact", VStr "mail: bob@example.com"); ("id", VInt 7)]]
     = [[("contact", VStr "mail: [MASKED_EMAIL]"); ("id", VInt 7)]].
Proof. repeat split; vm_compute; reflexivity. Qed.

End SynthesisProofs.

(** * Further properties of the code *)

(** ** The rows and the errors of the connector *)
Module ConnectorExtras.
Import SafeConnector Dict DictProofs OrderProofs.

Definition assign {V : Type} (d : Dict.t V) (kv : text * V) : Dict.t V :=
  Dict.set d (fst kv) (snd kv).

Lemma get_app (V : Type) (a b : Dict.t V) k :
  get (a ++ b) k = match get a k with Some v => Some v | None => get b k end.
Proof.
  induction a as [|[k' v'] a IH]; cbn; [reflexivity|].
  now destruct (key_eqb k' k).
Qed.

(** Of the values assigned to a key, the last one is kept. *)
Lemma fold_assign_get (V : Type) (l : list (text * V)) (acc : Dict.t V) k :
  get (fold_left assign l acc) k
  = match get (rev l) k with Some v => Some v | None => get acc k end.
Proof.
  revert acc. induction l as [|[k' v'] l IH]; intros acc; cbn [fold_left rev].
  - reflexivity.
  - rewrite IH, get_app.
    change (assign acc (k', v')) with (Dict.set acc k' v').
    cbn [get]. rewrite get_set. destruct (get (rev l) k); [reflexivity|].
    now destruct (key_eqb k' k).
Qed.

Lemma fold_assign_keys (V : Type) (l : list (text * V)) (acc : Dict.t V) :
  keys (fold_left assign l acc) = fold_left add_key (map fst l) (keys acc).
Proof.
  revert acc. induction l as [|[k' v'] l IH]; intros acc;
    cbn [fold_left map fst]; [reflexivity|].
  rewrite IH. unfold assign. cbn [fst snd]. now rewrite keys_set.
Qed.

Lemma fold_assign_fresh (V : Type) (l : list (text * V)) (acc : Dict.t V) :
  NoDup (map fst l) -> (forall k, In k (map fst l) -> ~ In k (keys acc)) ->
  fold_left assign l acc = acc ++ l.
Proof.
  revert acc. induction l as [|[k v] l IH]; intros acc Hn Hd; cbn.
  - now rewrite app_nil_r.
  - inversion Hn as [|? ? Hk Hn']; subst.
    change (assign acc (k, v)) with (Dict.set acc k v).
    rewrite SynthesisProofs.set_new by (apply Hd; cbn; auto).
    rewrite IH; [now rewrite <- app_assoc|exact Hn'|].
    intros k' Hk'. unfold keys. rewrite map_app, in_app_iff. cbn.
    intros [H|[H|[]]].
    + apply (Hd k'); cbn; auto.
    + now subst.
Qed.

Lemma of_pairs_NoDup (V : Type) (l : list (text * V)) :
  NoDup (map fst l) -> of_pairs l = l.
Proof.
  intros H. unfold of_pairs.
  change (fold_left assign l [] = l).
  rewrite fold_assign_fresh; auto.
Qed.

Lemma zip_fst_In (A B : Type) (a : list A) (b : list B) x :
  In x (map fst (zip a b)) -> In x a.
Proof.
  revert b. induction a as [|y a IH]; intros [|z b]; cbn; try tauto.
  intros [H|H]; eauto.
Qed.

Lemma zip_fst_NoDup (A B : Type) (a : list A) (b : list B) :
  NoDup a -> NoDup (map fst (zip a b)).
Proof.
  intros H. revert b. induction H as [|y a Hy Ha IH]; intros [|z b]; cbn;
    try constructor; auto.
  intros Hin. apply zip_fst_In in Hin. tauto.
Qed.

Lemma execute_rows db sql tr cols rows :
  passes_security_check sql = true ->
  db (count is_connect tr) sql = Rows cols rows ->
  execute_read_only_query db sql tr
  = (Ret (map (fun r => of_pairs (zip cols r)) rows),
     tr ++ [EvConnect; EvExecute sql]).
Proof.
  intros Hp Hdb. unfold execute_read_only_query. now rewrite Hp, Hdb.
Qed.

(** X1. With column names that are all different, a statement that
    passes the check and runs yields one dictionary for each row of the
    database, in the order of the rows; each dictionary pairs the
    columns, in the order of the database, with the values of its row. *)
Theorem rows_pair_columns_with_values
    (db : engine) (sql : text) (tr : trace)
    (cols : list text) (rows : list (list value)) :
  passes_security_check sql = true ->
  db (count is_connect tr) sql = Rows cols rows ->
  NoDup cols ->
  execute_read_only_query db sql tr
  = (Ret (map (zip cols) rows), tr ++ [EvConnect; EvExecute sql]).
Proof.
  intros Hp Hdb Hn. rewrite (@execute_rows db sql tr cols rows Hp Hdb).
  f_equal. f_equal. apply map_ext. intros r.
  apply of_pairs_NoDup, zip_fst_NoDup, Hn.
Qed.

Lemma rows_pair_columns_with_values_witness :
  execute_read_only_query (fun _ _ => Rows ["id"; "total"] [[VInt 1; VInt 30]; [VInt 2; VNone]])
    "select id, total from Orders" []
  = (Ret [[("id", VInt 1); ("total", VInt 30)]; [("id", VInt 2); ("total", VNone)]],
     [EvConnect; EvExecute "select id, total from Orders"]).
Proof.
  refine (@rows_pair_columns_with_values
            (fun _ _ => Rows ["id"; "total"] [[VInt 1; VInt 30]; [VInt 2; VNone]])
            "select id, total from Orders" []
            ["id"; "total"] [[VInt 1; VInt 30]; [VInt 2; VNone]]
            eq_refl eq_refl _).
  repeat constructor; cbn; intuition discriminate.
Defined.

(** X2. Whatever the column names, there is one dictionary for each row,
    its keys are the distinct column names, and the value under a name
    that several columns share is the value of the last of them. *)
Theorem repeated_column_keeps_last_value
    (db : engine) (sql : text) (tr : trace)
    (cols : list text) (rows : list (list value)) :
  passes_security_check sql = true ->
  db (count is_connect tr) sql = Rows cols rows ->
  exists out,
    fst (execute_read_only_query db sql tr) = Ret out
    /\ length out = length rows
    /\ forall i r, nth_error rows i = Some r ->
         exists d, nth_error out i = Some d
           /\ NoDup (keys d)
           /\ (forall c, In c (keys d) <-> In c (map fst (zip cols r)))
           /\ (forall c, get d c = get (rev (zip cols r)) c).
Proof.
  intros Hp Hdb. rewrite (@execute_rows db sql tr cols rows Hp Hdb). cbn [fst].
  eexists. split; [reflexivity|]. split; [apply length_map|].
  intros i r Hr. exists (of_pairs (zip cols r)).
  split; [exact (map_nth_error (fun r => of_pairs (zip cols r)) i rows Hr)|].
  unfold of_pairs. change (fold_left _ (zip cols r) [])
    with (fold_left assign (zip cols r) (@nil (text * value))).
  pose proof (first_seen_fold (map fst (zip cols r)) first_seen_nil) as [Hn Hi _].
  rewrite fold_assign_keys. cbn [app] in *.
  split; [exact Hn|]. split; [exact Hi|].
  intros c. rewrite fold_assign_get. now destruct (get (rev (zip cols r)) c).
Qed.

Lemma repeated_column_keeps_last_value_witness :
  exists out,
    fst (execute_read_only_query
           (fun _ _ => Rows ["id"; "name"; "id"] [[VInt 1; VStr "Ann"; VInt 7]])
           "select o.id, c.name, c.id from Orders o join Customers c on true" [])
    = Ret out
    /\ exists d, nth_error out 0 = Some d /\ get d "id" = Some (VInt 7).
Proof.
  destruct (repeated_column_keeps_last_value
              (fun _ _ => Rows ["id"; "name"; "id"] [[VInt 1; VStr "Ann"; VInt 7]])
              "select o.id, c.name, c.id from Orders o join Customers c on true" []
              eq_refl eq_refl) as (out & Hout & _ & H).
  exists out. split; [exact Hout|].
  destruct (H 0 [VInt 1; VStr "Ann"; VInt 7] eq_refl) as (d & Hd & _ & _ & Hg).
  exists d. split; [exact Hd|]. rewrite Hg. reflexivity.
Defined.

(** X3. A statement that passes the check ends in [TimeoutError] exactly
    when the engine, on connecting or on executing, raised an
    [OperationalError] whose text contains [statement timeout]; the
    message of the error is then the fixed text naming the limit. *)
Theorem timeout_is_reported_for_statement_timeout
    (db : engine) (sql : text) (tr : trace) :
  passes_security_check sql = true ->
  ((exists msg, fst (execute_read_only_query db sql tr) = Raise (TimeoutError msg))
   <-> exists str_e repr_e,
         Text.contains "statement timeout" str_e = true
         /\ (db (count is_connect tr) sql
             = ConnectRaises (OperationalError str_e repr_e)
             \/ db (count is_connect tr) sql
                = ExecuteRaises (OperationalError str_e repr_e)))
  /\ (forall msg,
        fst (execute_read_only_query db sql tr) = Raise (TimeoutError msg) ->
        msg = "Query execution exceeded time limits (>5s). Please simplify your request.").
Proof.
  intros Hp. unfold execute_read_only_query. rewrite Hp. cbn [negb].
  destruct (db (count is_connect tr) sql) as [[s r|r]|[s r|r]|cols rows];
    cbn [fst classify].
  1, 3: destruct (Text.contains "statement timeout" s) eqn:E.
  all: split;
    [split;
     [intros [msg H]; try discriminate; exists s, r; split; auto
     |intros (s' & r' & Hc & [H|H]); try discriminate;
      try (injection H as <- <-; congruence); now eexists]
    |intros msg H; try discriminate; now injection H as <-].
Qed.

Lemma timeout_is_reported_for_statement_timeout_witness :
  exists msg,
    fst (execute_read_only_query Scenarios.slow_db "select 1" [])
    = Raise (TimeoutError msg).
Proof.
  apply (proj1 (timeout_is_reported_for_statement_timeout
                  Scenarios.slow_db "select 1" [] eq_refl)).
  exists "canceling statement due to statement timeout",
         "OperationalError('canceling statement due to statement timeout')".
  split; [reflexivity|right; reflexivity].
Defined.

(** X4. Whatever the engine does, [execute_read_only_query] raises
    nothing but the security error, the timeout error, a [ValueError]
    quoting an operational error, or a [RuntimeError] quoting any other
    error; and each call opens at most one connection and executes at
    most one statement, the one it was given. *)
Theorem connector_raises_classified_errors
    (db : engine) (sql : text) (tr : trace) :
  (forall e, fst (execute_read_only_query db sql tr) = Raise e ->
     e = PermissionError security_message
     \/ e = TimeoutError timeout_message
     \/ (exists repr_e, e = ValueError ("Database Execution Error: " ++ repr_e))
     \/ (exists repr_e,
           e = RuntimeError
                 ("A general error occurred during database operation: " ++ repr_e)))
  /\ exists new,
       snd (execute_read_only_query db sql tr) = tr ++ new
       /\ (new = [EvSecurityAlert sql] \/ new = [EvConnect]
           \/ new = [EvConnect; EvExecute sql]).
Proof.
  split.
  - intros e He.
    destruct (execute_read_only_query db sql tr) as [o tr'] eqn:E.
    cbn in He. subst o. apply LlmAgentProofs.execute_raises in E.
    destruct E; eauto.
  - unfold execute_read_only_query.
    destruct (negb _); [|destruct (db _ _)]; cbn [snd]; eexists; eauto.
Qed.

Lemma connector_raises_classified_errors_witness :
  RuntimeError
    "A general error occurred during database operation: InterfaceError('connection already closed')"
  = PermissionError security_message
  \/ RuntimeError
       "A general error occurred during database operation: InterfaceError('connection already closed')"
     = TimeoutError timeout_message
  \/ (exists repr_e,
        RuntimeError
          "A general error occurred during database operation: InterfaceError('connection already closed')"
        = ValueError ("Database Execution Error: " ++ repr_e))
  \/ (exists repr_e,
        RuntimeError
          "A general error occurred during database operation: InterfaceError('connection already closed')"
        = RuntimeError
            ("A general error occurred during database operation: " ++ repr_e)).
Proof.
  exact (proj1 (connector_raises_classified_errors
                  Scenarios.broken_db "select 1" []) _ eq_refl).
Defined.

End ConnectorExtras.

(** ** The context assembled by the retriever *)
Module RetrieverExtras.
Import Settings HybridRetriever HybridRetrieverProofs.

(** The text standing for a table whose content the store lacks. *)
Definition placeholder (table : text) : text :=
  "# Table: " ++ table ++ newline ++ "Error: Schema content missing from index.".

(** What [_fetch_full_schema_content] returns for a table. *)
Definition content_for (p : providers) (table : text) : outcome text :=
  match vector_get_content p table with
  | Raise e => Raise e
  | Ret [] => Ret (placeholder table)
  | Ret content => Ret content
  end.

(** The fused ranking of a query. *)
Definition fused_ranking (p : providers) (query : text) (fused : list text)
    : Prop :=
  exists vector_ranks keyword_ranks,
    vector_query_top_k p query K_SEARCH = Ret vector_ranks
    /\ keyword_query_top_k p query K_SEARCH = Ret keyword_ranks
    /\ reciprocal_rank_fusion [vector_ranks; keyword_ranks] RRF_K = Ret fused.

Lemma fetch_eq p table tr :
  fetch_full_schema_content p table tr
  = (content_for p table, tr ++ [EvGetContent table]).
Proof.
  unfold fetch_full_schema_content, content_for, perform.
  now destruct (vector_get_content p table) as [[|c s]|e].
Qed.

Lemma content_for_nonempty p table c : content_for p table = Ret c -> c <> [].
Proof.
  unfold content_for.
  destruct (vector_get_content p table) as [[|a s]|e]; intros H;
    inversion H; discriminate.
Qed.

Lemma aggregate_full p fused n ctx tr ctx' trunc tr' :
  aggregate p fused n ctx tr = (Ret (ctx', trunc), tr') ->
  n = estimated_tokens ctx ->
  exists new rest,
    ctx' = ctx ++ new
    /\ fused = map table_name new ++ rest
    /\ Forall (fun c => content_for p (table_name c) = Ret (content c)) new
    /\ (trunc = false ->
        rest = [] /\ tr' = tr ++ map EvGetContent (map table_name new))
    /\ (trunc = true ->
        exists t rest' c,
          rest = t :: rest'
          /\ content_for p t = Ret c
          /\ TOKEN_BUDGET < estimated_tokens ctx' + length c / 4
          /\ tr' = tr ++ map EvGetContent (map table_name new ++ [t])).
Proof.
  revert n ctx tr.
  induction fused as [|t more IH]; intros n ctx tr; cbn [aggregate].
  - intros H Hn. inversion H; subst. exists [], [].
    rewrite !app_nil_r.
    split; [reflexivity|]. split; [reflexivity|]. split; [constructor|].
    split; [intros _; split; reflexivity|discriminate].
  - rewrite fetch_eq.
    destruct (content_for p t) as [c|e] eqn:Ec; [|discriminate].
    destruct (n + length c / 4 <=? TOKEN_BUDGET) eqn:E.
    + intros H Hn.
      apply IH in H; [|rewrite estimated_tokens_snoc; cbn; lia].
      destruct H as (new & rest & -> & -> & Hall & Hf & Ht).
      exists ({| table_name := t; content := c |} :: new), rest.
      rewrite <- app_assoc. cbn [app map table_name].
      split; [reflexivity|]. split; [reflexivity|].
      split; [constructor; [exact Ec|exact Hall]|].
      split.
      * intros Hx. destruct (Hf Hx) as [-> ->].
        split; [reflexivity|]. now rewrite <- app_assoc.
      * intros Hx. destruct (Ht Hx) as (t' & rest' & c' & -> & Hc & Hb & ->).
        exists t', rest', c'. rewrite <- !app_assoc in *.
        repeat split; auto.
    + apply Nat.leb_gt in E. intros H Hn. inversion H; subst.
      exists [], (t :: more). rewrite !app_nil_r.
      split; [reflexivity|]. split; [reflexivity|]. split; [constructor|].
      split; [discriminate|]. intros _. exists t, more, c.
      repeat split; auto.
Qed.

Lemma retrieve_inv p query tr ctx trunc tr' :
  retrieve_schema_chunks p query tr = (Ret (ctx, trunc), tr') ->
  exists fused,
    fused_ranking p query fused
    /\ aggregate p fused 0 []
         (tr ++ [EvSemanticSearch query; EvKeywordSearch query])
       = (Ret (ctx, trunc), tr').
Proof.
  unfold retrieve_schema_chunks, semantic_search, keyword_search, perform,
    fused_ranking.
  destruct (vector_query_top_k p query K_SEARCH) as [v|e]; [|discriminate].
  destruct (keyword_query_top_k p query K_SEARCH) as [kw|e]; [|discriminate].
  destruct (reciprocal_rank_fusion [v; kw] RRF_K) as [fused|e] eqn:E;
    [|discriminate].
  rewrite <- app_assoc. cbn [app]. intros H.
  exists fused. split; [now exists v, kw|exact H].
Qed.

Lemma retrieve_from_ranking p query tr fused :
  fused_ranking p query fused ->
  retrieve_schema_chunks p query tr
  = aggregate p fused 0 []
      (tr ++ [EvSemanticSearch query; EvKeywordSearch query]).
Proof.
  intros (v & kw & Hv & Hkw & Hf).
  unfold retrieve_schema_chunks, semantic_search, keyword_search, perform.
  rewrite Hv, Hkw, Hf, <- app_assoc. reflexivity.
Qed.

(** X5. The chunks of a retrieved context stand for the first tables of
    the fused ranking, in the order of the ranking: a table is never
    passed over in favour of a later one.  No chunk has an empty content:
    it holds the content of the store, or the placeholder text when the
    store has the empty text for the table. *)
Theorem context_is_prefix_of_ranking
    (p : providers) (query : text) (tr : trace)
    (ctx : list chunk) (trunc : bool) (tr' : trace) :
  retrieve_schema_chunks p query tr = (Ret (ctx, trunc), tr') ->
  exists fused rest,
    fused_ranking p query fused
    /\ fused = map table_name ctx ++ rest
    /\ Forall (fun c =>
                 content c <> []
                 /\ (vector_get_content p (table_name c) = Ret (content c)
                     \/ (vector_get_content p (table_name c) = Ret []
                         /\ content c = placeholder (table_name c))))
              ctx.
Proof.
  intros H. apply retrieve_inv in H. destruct H as (fused & Hf & H).
  apply aggregate_full in H; [|reflexivity].
  destruct H as (new & rest & -> & -> & Hall & _).
  exists (map table_name new ++ rest), rest. cbn [app].
  split; [exact Hf|]. split; [reflexivity|].
  eapply Forall_impl; [|exact Hall]. cbn. intros c Hc.
  split; [exact (content_for_nonempty _ _ Hc)|].
  unfold content_for in Hc.
  destruct (vector_get_content p (table_name c)) as [[|a s]|e];
    inversion Hc; auto.
Qed.

Lemma context_is_prefix_of_ranking_witness :
  exists fused rest ctx,
    fst (retrieve_schema_chunks
           (Indexing.mock_providers Indexing.simulated_store)
           "Which customer has the largest revenue?" [])
    = Ret (ctx, false)
    /\ fused = map table_name ctx ++ rest.
Proof.
  destruct (retrieve_schema_chunks
              (Indexing.mock_providers Indexing.simulated_store)
              "Which customer has the largest revenue?" [])
    as [[[ctx trunc]|e] tr'] eqn:E; vm_compute in E; inversion E; subst.
  destruct (@context_is_prefix_of_ranking
              (Indexing.mock_providers Indexing.simulated_store)
              "Which customer has the largest revenue?" [] _ _ _
              ltac:(vm_compute; reflexivity))
    as (fused & rest & _ & H & _).
  exists fused, rest. eexists. split; [reflexivity|exact H].
Defined.

(** X6. When the truncation flag is set, the table that follows the
    context in the ranking was fetched and did not fit: its estimated
    cost added to that of the context exceeds [TOKEN_BUDGET].  The tables
    after it were not considered, whatever their size. *)
Theorem truncation_stops_at_first_misfit
    (p : providers) (query : text) (tr : trace)
    (ctx : list chunk) (tr' : trace) :
  retrieve_schema_chunks p query tr = (Ret (ctx, true), tr') ->
  exists fused table rest content,
    fused_ranking p query fused
    /\ fused = map table_name ctx ++ table :: rest
    /\ content_for p table = Ret content
    /\ TOKEN_BUDGET < estimated_tokens ctx + length content / 4.
Proof.
  intros H. apply retrieve_inv in H. destruct H as (fused & Hf & H).
  apply aggregate_full in H; [|reflexivity].
  destruct H as (new & rest & -> & -> & _ & _ & Ht).
  destruct (Ht eq_refl) as (t & rest' & c & -> & Hc & Hb & _).
  exists (map table_name new ++ t :: rest'), t, rest', c. cbn [app] in *.
  auto.
Qed.

(** A store whose only table has a description of 2004 characters. *)
Definition oversized_providers : providers :=
  {| vector_query_top_k := fun _ _ => Ret ["ledger"];
     vector_get_content := fun _ => Ret (repeat "x"%char 2004);
     keyword_query_top_k := fun _ _ => Ret [] |}.

Lemma truncation_stops_at_first_misfit_witness :
  exists fused table rest content,
    fused_ranking oversized_providers "totals" fused
    /\ fused = map table_name [] ++ table :: rest
    /\ content_for oversized_providers table = Ret content
    /\ TOKEN_BUDGET < estimated_tokens [] + length content / 4.
Proof.
  refine (@truncation_stops_at_first_misfit
            oversized_providers "totals" [] []
            [EvSemanticSearch "totals"; EvKeywordSearch "totals";
             EvGetContent "ledger"] _).
  vm_compute. reflexivity.
Defined.

(** X7. A retrieval that returns asks each search provider once, the
    semantic one first, and then fetches contents in the order of the
    ranking: one fetch for each chunk of the context, and one more, for
    the chunk that did not fit, when the context is truncated. *)
Theorem retrieval_effects
    (p : providers) (query : text) (tr : trace)
    (ctx : list chunk) (trunc : bool) (tr' : trace) :
  retrieve_schema_chunks p query tr = (Ret (ctx, trunc), tr') ->
  exists fused,
    fused_ranking p query fused
    /\ tr' = tr ++ [EvSemanticSearch query; EvKeywordSearch query]
             ++ map EvGetContent
                  (firstn (length ctx + (if trunc then 1 else 0)) fused).
Proof.
  intros H. apply retrieve_inv in H. destruct H as (fused & Hf & H).
  apply aggregate_full in H; [|reflexivity].
  destruct H as (new & rest & -> & -> & _ & Hfalse & Htrue).
  exists (map table_name new ++ rest). split; [exact Hf|].
  cbn [app]. rewrite <- (length_map table_name new).
  destruct trunc.
  - destruct (Htrue eq_refl) as (t & rest' & c & -> & _ & _ & ->).
    rewrite <- app_assoc. do 3 f_equal.
    replace (map table_name new ++ t :: rest')
      with ((map table_name new ++ [t]) ++ rest')
      by now rewrite <- app_assoc.
    rewrite firstn_app, firstn_all2 by (rewrite length_app; cbn; lia).
    replace (_ - _) with 0 by (rewrite length_app; cbn; lia).
    now rewrite app_nil_r.
  - destruct (Hfalse eq_refl) as [-> ->].
    rewrite <- app_assoc, app_nil_r, Nat.add_0_r, firstn_all. reflexivity.
Qed.

Lemma retrieval_effects_witness :
  exists fused,
    fused_ranking oversized_providers "totals" fused
    /\ [EvSemanticSearch "totals"; EvKeywordSearch "totals";
        EvGetContent "ledger"]
       = [] ++ [EvSemanticSearch "totals"; EvKeywordSearch "totals"]
         ++ map EvGetContent
              (firstn (length (@nil chunk) + (if true then 1 else 0)) fused).
Proof.
  refine (@retrieval_effects oversized_providers "totals" [] [] true _ _).
  vm_compute. reflexivity.
Defined.

End RetrieverExtras.

(** ** The parser of the generator's responses *)
Module ParserExtras.
Import Settings Re ReProofs LlmAgent.

(** [tok] read at the start of [s], letter case ignored. *)
Fixpoint ci_startswith (s tok : text) {struct tok} : bool :=
  match tok with
  | [] => true
  | a :: tok' =>
      match s with
      | [] => false
      | c :: s' =>
          Ascii.eqb (Text.lower_char c) (Text.lower_char a)
          && ci_startswith s' tok'
      end
  end.



Definition spaces (w : text) : Prop := Forall (fun c => Text.is_space c = true) w.

Lemma ci_startswith_iff s tok :
  ci_startswith s tok = true
  <-> exists w rest, s = w ++ rest /\ Text.lower w = Text.lower tok.
Proof.
  revert s. induction tok as [|a tok IH]; intros s; cbn [ci_startswith].
  - split; [intros _; now exists [], s|reflexivity].
  - destruct s as [|c s].
    + split; [discriminate|]. intros (w & rest & E & H).
      symmetry in E. apply app_eq_nil in E. destruct E; subst. discriminate.
    + rewrite andb_true_iff, Ascii.eqb_eq, IH. split.
      * intros [Hc (w & rest & -> & Hw)]. exists (c :: w), rest.
        split; [reflexivity|]. unfold Text.lower in *. cbn [map].
        now rewrite Hc, Hw.
      * intros (w & rest & E & Hw). destruct w as [|c' w]; [discriminate|].
        cbn [app] in E. injection E as <- ->.
        unfold Text.lower in *. cbn [map] in Hw. injection Hw as Hc Hw.
        split; [exact Hc|]. now exists w, rest.
Qed.

Lemma ci_startswith_skipn s tok :
  ci_startswith s tok = true ->
  exists w, s = w ++ skipn (length tok) s /\ Text.lower w = Text.lower tok.
Proof.
  intros H. apply ci_startswith_iff in H. destruct H as (w & rest & -> & Hw).
  exists w. split; [|exact Hw].
  assert (length w = length tok) as <-.
  { unfold Text.lower in Hw. apply (f_equal (@length _)) in Hw.
    now rewrite !length_map in Hw. }
  now rewrite skipn_app, skipn_all, Nat.sub_diag.
Qed.

Lemma bt_literal_ignorecase (R : Type) tok s g
    (k : text -> option text -> option R) :
  bt (literal_ignorecase tok) s g k
  = if ci_startswith s tok then k (skipn (length tok) s) g else None.
Proof.
  revert s. induction tok as [|a tok IH]; intros s;
    cbn [literal_ignorecase bt ci_startswith length skipn].
  - reflexivity.
  - destruct s as [|c s]; [reflexivity|].
    destruct (Ascii.eqb _ _); [apply IH|reflexivity].
Qed.

Lemma search_from_sound r s i j n g :
  search_from r s i = Some (j, n, g) ->
  exists pre s', s = pre ++ s' /\ match_at r s' = Some (n, g)
                 /\ j = i + length pre.
Proof.
  revert i. induction s as [|c t IH]; intros i; cbn [search_from].
  - destruct (match_at r []) as [[n' g']|] eqn:E; [|discriminate].
    intros H. injection H as <- <- <-. exists [], []. cbn. auto.
  - destruct (match_at r (c :: t)) as [[n' g']|] eqn:E.
    + intros H. injection H as <- <- <-. exists [], (c :: t). cbn. auto.
    + intros H. apply IH in H. destruct H as (pre & s' & -> & Hm & ->).
      exists (c :: pre), s'. cbn. repeat split; auto; lia.
Qed.

Lemma search_from_complete r pre s' i :
  match_at r s' <> None -> search_from r (pre ++ s') i <> None.
Proof.
  intros H. revert i. induction pre as [|c pre IH]; intros i.
  - cbn [app]. destruct s' as [|c t]; cbn [search_from];
      destruct (match_at r _) as [[n g]|]; congruence.
  - cbn [app search_from].
    destruct (match_at r (c :: pre ++ s')) as [[n g]|]; [discriminate|].
    apply IH.
Qed.

(** A match of the pattern: the start token, white space, the group,
    white space, the end token. *)
Lemma match_at_sql s n g :
  match_at sql_pattern s = Some (n, g) ->
  exists w1 gt w2 rest,
    ci_startswith s SQL_START_TOKEN = true
    /\ skipn (length SQL_START_TOKEN) s = w1 ++ gt ++ w2 ++ rest
    /\ spaces w1 /\ spaces w2
    /\ ci_startswith rest SQL_END_TOKEN = true
    /\ g = Some gt.
Proof.
  unfold match_at, sql_pattern, star, lazy_star. cbn [seqs bt].
  rewrite bt_literal_ignorecase.
  destruct (ci_startswith s SQL_START_TOKEN); [|discriminate].
  intros H. apply rep_sound in H.
  destruct H as (w1 & s2 & E1 & Hw1 & _ & _ & H).
  apply rep_sound in H. destruct H as (gt & s3 & E2 & _ & _ & _ & H).
  apply rep_sound in H. destruct H as (w2 & s4 & E3 & Hw2 & _ & _ & H).
  rewrite bt_literal_ignorecase in H.
  destruct (ci_startswith s4 SQL_END_TOKEN) eqn:E4; [|discriminate].
  injection H as _ <-.
  exists w1, gt, w2, s4. subst s2 s3.
  split; [reflexivity|]. split; [exact E1|].
  split; [exact Hw1|]. split; [exact Hw2|]. split; [exact E4|].
  f_equal. rewrite length_app, Nat.add_sub.
  now rewrite firstn_app, firstn_all, Nat.sub_diag, app_nil_r.
Qed.

Lemma match_at_sql_complete s m rest :
  ci_startswith s SQL_START_TOKEN = true ->
  skipn (length SQL_START_TOKEN) s = m ++ rest ->
  ci_startswith rest SQL_END_TOKEN = true ->
  match_at sql_pattern s <> None.
Proof.
  intros Hs Hm He.
  unfold match_at, sql_pattern, star, lazy_star. cbn [seqs bt].
  rewrite bt_literal_ignorecase, Hs, Hm.
  apply (@rep_complete _ true Text.is_space 0 None [] (m ++ rest));
    [constructor|cbn; lia|exact I|].
  apply (@rep_complete _ false any_char 0 None m rest);
    [now apply Forall_forall|lia|exact I|].
  apply (@rep_complete _ true Text.is_space 0 None [] rest);
    [constructor|cbn; lia|exact I|].
  rewrite bt_literal_ignorecase, He. discriminate.
Qed.

Lemma parse_sql_sound response sql :
  parse_sql response = Some sql ->
  exists pre st w1 gt w2 after en,
    response = pre ++ st ++ w1 ++ gt ++ w2 ++ en ++ after
    /\ Text.lower st = Text.lower SQL_START_TOKEN
    /\ spaces w1 /\ spaces w2
    /\ Text.lower en = Text.lower SQL_END_TOKEN
    /\ sql = Text.replace (Text.strip gt) "`" "".
Proof.
  unfold parse_sql, search.
  destruct (search_from sql_pattern response 0) as [[[j n] [g|]]|] eqn:E;
    try discriminate.
  intros H. injection H as <-.
  apply search_from_sound in E. destruct E as (pre & s' & -> & Hm & _).
  apply match_at_sql in Hm.
  destruct Hm as (w1 & gt & w2 & rest & Hs & Hk & Hw1 & Hw2 & He & Hg).
  injection Hg as <-.
  apply ci_startswith_skipn in Hs. destruct Hs as (st & Es & Hst).
  apply ci_startswith_iff in He. destruct He as (en & after & -> & Hen).
  exists pre, st, w1, g, w2, after, en.
  rewrite Hk in Es. rewrite Es. repeat split; auto.
Qed.

(** *** White space around a text *)






(** *** Occurrences *)



Lemma remove_char_eq c s :
  Text.replace s [c] [] = filter (fun x => negb (Ascii.eqb c x)) s.
Proof.
  unfold Text.replace. induction s as [|x s IH]; [reflexivity|].
  cbn [Text.replace_from Text.startswith length Nat.sub filter app].
  destruct s as [|y s'].
  - cbn [Text.startswith]. rewrite andb_true_r.
    destruct (Ascii.eqb c x); reflexivity.
  - replace (Text.startswith (y :: s') []) with true by reflexivity.
    rewrite andb_true_r.
    destruct (Ascii.eqb c x); cbn [negb]; now rewrite IH.
Qed.

Lemma contains_filtered c s :
  Text.contains [c] (filter (fun x => negb (Ascii.eqb c x)) s) = false.
Proof.
  induction s as [|x s IH]; [reflexivity|]. cbn [filter].
  destruct (Ascii.eqb c x) eqn:E; cbn [negb]; [exact IH|].
  cbn [Text.contains Text.startswith]. rewrite E. exact IH.
Qed.


Lemma lower_length a b : Text.lower a = Text.lower b -> length a = length b.
Proof.
  intros H. apply (f_equal (@length _)) in H. unfold Text.lower in H.
  now rewrite !length_map in H.
Qed.

Lemma parse_sql_complete before st middle en after :
  Text.lower st = Text.lower SQL_START_TOKEN ->
  Text.lower en = Text.lower SQL_END_TOKEN ->
  exists sql,
    parse_sql (before ++ st ++ middle ++ en ++ after) = Some sql.
Proof.
  intros Hst Hen. pose proof (lower_length _ _ Hst) as Hl.
  assert (match_at sql_pattern (st ++ middle ++ en ++ after) <> None) as Hm.
  { apply (@match_at_sql_complete _ middle (en ++ after)).
    - apply ci_startswith_iff. now exists st, (middle ++ en ++ after).
    - now rewrite <- Hl, skipn_app, skipn_all, Nat.sub_diag.
    - apply ci_startswith_iff. now exists en, after. }
  pose proof (@search_from_complete sql_pattern before _ 0 Hm) as Hs.
  unfold parse_sql, search.
  destruct (search_from sql_pattern _ 0) as [[[j n] g]|] eqn:E;
    [|congruence].
  apply search_from_sound in E. destruct E as (pre & s' & _ & Hm' & _).
  apply match_at_sql in Hm'.
  destruct Hm' as (w1 & gt & w2 & rest & _ & _ & _ & _ & _ & ->).
  now eexists.
Qed.

(** X8. [_parse_sql] finds a statement exactly when the response holds the
    start token followed, anywhere later, by the end token, each in any
    letter case. *)
Theorem parse_sql_finds_delimited_text (response : text) :
  (exists sql, parse_sql response = Some sql)
  <-> exists before start_token middle end_token after,
        response = before ++ start_token ++ middle ++ end_token ++ after
        /\ Text.lower start_token = Text.lower SQL_START_TOKEN
        /\ Text.lower end_token = Text.lower SQL_END_TOKEN.
Proof.
  split.
  - intros (sql & H). apply parse_sql_sound in H.
    destruct H as (pre & st & w1 & gt & w2 & after & en & E & Hst & _ & _ & Hen & _).
    exists pre, st, (w1 ++ gt ++ w2), en, after.
    rewrite <- !app_assoc. auto.
  - intros (before & st & middle & en & after & -> & Hst & Hen).
    now apply parse_sql_complete.
Qed.



(** X10. The statement [_parse_sql] returns holds no backtick. *)
Theorem parsed_statement_has_no_backtick (response sql : text) :
  parse_sql response = Some sql -> Text.contains "`" sql = false.
Proof.
  intros H. apply parse_sql_sound in H.
  destruct H as (pre & st & w1 & gt & w2 & after & en & _ & _ & _ & _ & _ & ->).
  rewrite remove_char_eq. apply contains_filtered.
Qed.

Lemma parsed_statement_has_no_backtick_witness :
  Text.contains "`" "SELECT name FROM Orders;" = false.
Proof.
  exact (@parsed_statement_has_no_backtick
           "[SQL_START]SELECT `name` FROM Orders;[SQL_END]"
           "SELECT name FROM Orders;" eq_refl).
Defined.

End ParserExtras.

(** ** The agent loop *)
Module AgentExtras.
Import Settings SafeConnector HybridRetriever LlmAgent.
Import SafeConnectorProofs LlmAgentProofs HybridRetrieverProofs RetrieverExtras.

Definition default_answer : text :=
  "Could not generate or execute a valid query.".

Definition unparseable_answer (attempt : nat) : text :=
  "LLM failed to generate parseable SQL after " ++ Text.of_nat attempt ++
  " attempts.".

(** Every statement executed in [ext] passed the security check. *)
Definition guarded (ext : trace) : Prop :=
  Forall (fun e => forall sql, e = EvExecute sql ->
                               passes_security_check sql = true) ext.

(** The effects a well-behaved stretch of a request can have. *)
Definition orderly (ext : trace) : Prop :=
  guarded ext
  /\ count is_execute ext <= count is_connect ext
  /\ count is_connect ext <= count is_generate ext.

Lemma orderly_nil : orderly [].
Proof. repeat split; [constructor|cbn; lia|cbn; lia]. Qed.

Lemma orderly_app a b : orderly a -> orderly b -> orderly (a ++ b).
Proof.
  intros (Ha & Ha1 & Ha2) (Hb & Hb1 & Hb2). repeat split.
  - apply Forall_app. now split.
  - rewrite !count_app. lia.
  - rewrite !count_app. lia.
Qed.

Lemma orderly_generate prompt ext :
  guarded ext -> count is_execute ext <= count is_connect ext ->
  count is_connect ext <= 1 -> count is_generate ext = 0 ->
  orderly ([EvGenerate prompt] ++ ext).
Proof.
  intros Hg H1 H2 H3. repeat split.
  - constructor; [discriminate|exact Hg].
  - rewrite !count_app. cbn. lia.
  - rewrite !count_app. cbn. lia.
Qed.

Lemma execute_effects db sql tr :
  exists ext,
    snd (execute_read_only_query db sql tr) = tr ++ ext
    /\ guarded ext
    /\ count is_execute ext <= count is_connect ext
    /\ count is_connect ext <= 1
    /\ count is_generate ext = 0.
Proof.
  unfold execute_read_only_query.
  destruct (passes_security_check sql) eqn:Hp; cbn [negb].
  - destruct (db (count is_connect tr) sql) as [e|e|cols rows]; cbn [snd];
      eexists; (split; [reflexivity|]); repeat split; cbn; try lia;
      repeat constructor; try discriminate;
      intros sql' E; injection E as <-; exact Hp.
  - eexists. split; [reflexivity|]. repeat split; cbn; try lia.
    repeat constructor. discriminate.
Qed.

Lemma execute_ret db sql tr rows' tr' :
  execute_read_only_query db sql tr = (Ret rows', tr') ->
  passes_security_check sql = true
  /\ exists cols rows,
       db (count is_connect tr) sql = Rows cols rows
       /\ rows' = map (fun r => Dict.of_pairs (zip cols r)) rows
       /\ tr' = tr ++ [EvConnect; EvExecute sql].
Proof.
  unfold execute_read_only_query.
  destruct (passes_security_check sql); cbn [negb]; [|discriminate].
  destruct (db (count is_connect tr) sql) as [e|e|cols rows]; try discriminate.
  intros H. injection H as <- <-. split; [reflexivity|].
  now exists cols, rows.
Qed.

Lemma generate_sql_eq llm q ctx attempt details tr :
  exists o resp,
    generate_sql llm q ctx attempt details tr
    = ((o, resp),
       tr ++ [EvGenerate (build_sql_prompt q ctx (0 <? attempt) details)])
    /\ (forall sql, o = Some sql -> sql <> []).
Proof.
  unfold generate_sql.
  destruct (falsy _) eqn:E.
  - eexists _, _. split; [reflexivity|discriminate].
  - eexists _, _. split; [reflexivity|].
    intros sql Hs. rewrite Hs in E. destruct sql; [discriminate|discriminate].
Qed.

(** The effects of the loop, whatever its outcome. *)
Lemma loop_effects env q ctx attempts full_result tr :
  exists ext,
    snd (attempt_loop env q ctx attempts full_result tr) = tr ++ ext
    /\ orderly ext.
Proof.
  revert full_result tr.
  induction attempts as [|attempt later IH]; intros full_result tr;
    cbn [attempt_loop].
  - exists []. rewrite app_nil_r. split; [reflexivity|apply orderly_nil].
  - destruct (generate_sql_eq (llm_client env) q ctx attempt
                (error_details full_result) tr) as (o & resp & -> & Ho).
    set (p := build_sql_prompt q ctx (0 <? attempt) (error_details full_result)).
    assert (Hgen : orderly [EvGenerate p]).
    { rewrite <- (app_nil_r [_]).
      apply orderly_generate; try (cbn; lia). constructor. }
    assert (Hrec : forall full',
              exists ext,
                snd (attempt_loop env q ctx later full' (tr ++ [EvGenerate p]))
                = tr ++ ext /\ orderly ext).
    { intros full'. destruct (IH full' (tr ++ [EvGenerate p])) as (ext & E & H).
      exists ([EvGenerate p] ++ ext). rewrite E, <- app_assoc.
      split; [reflexivity|now apply orderly_app]. }
    destruct o as [[|a sql]|]; [apply Hrec| |apply Hrec].
    destruct (execute_effects (db_connector env) (a :: sql)
                (tr ++ [EvGenerate p])) as (ext & E & Hg & H1 & H2 & H3).
    assert (Hhere : orderly ([EvGenerate p] ++ ext))
      by now apply orderly_generate.
    destruct (execute_read_only_query _ _ _) as [[rows|e] tr2];
      cbn [snd] in E; subst tr2.
    + exists ([EvGenerate p] ++ ext). now rewrite <- app_assoc.
    + destruct e as [m|m|m|m| |m]; cbn [snd];
        try (exists ([EvGenerate p] ++ ext); now rewrite <- app_assoc).
      destruct (attempt =? MAX_RETRY_COUNT);
        [exists ([EvGenerate p] ++ ext); now rewrite <- app_assoc|].
      destruct (IH (set_error_details full_result (a :: sql, m))
                  ((tr ++ [EvGenerate p]) ++ ext)) as (ext' & E' & H').
      exists (([EvGenerate p] ++ ext) ++ ext').
      split; [|now apply orderly_app].
      refine (eq_trans E' _). now rewrite <- !app_assoc.
Qed.

(** The first effect of a loop that still has an attempt to make is the
    generation for that attempt. *)
Lemma loop_first_event env q ctx attempt later full_result tr :
  exists ext,
    snd (attempt_loop env q ctx (attempt :: later) full_result tr)
    = tr ++ [EvGenerate (build_sql_prompt q ctx (0 <? attempt)
                           (error_details full_result))] ++ ext.
Proof.
  cbn [attempt_loop].
  destruct (generate_sql_eq (llm_client env) q ctx attempt
              (error_details full_result) tr) as (o & resp & -> & Ho).
  set (p := build_sql_prompt q ctx (0 <? attempt) (error_details full_result)).
  assert (Hrec : forall full' mid,
            exists ext,
              snd (attempt_loop env q ctx later full'
                     ((tr ++ [EvGenerate p]) ++ mid))
              = tr ++ [EvGenerate p] ++ ext).
  { intros full' mid.
    destruct (loop_effects env q ctx later full' ((tr ++ [EvGenerate p]) ++ mid))
      as (ext & E & _).
    exists (mid ++ ext). rewrite E, <- !app_assoc. reflexivity. }
  assert (Hrec0 : forall full',
            exists ext,
              snd (attempt_loop env q ctx later full' (tr ++ [EvGenerate p]))
              = tr ++ [EvGenerate p] ++ ext).
  { intros full'. destruct (Hrec full' []) as (ext & E).
    rewrite app_nil_r in E. now exists ext. }
  destruct o as [[|a sql]|]; [apply Hrec0| |apply Hrec0].
  destruct (execute_effects (db_connector env) (a :: sql)
              (tr ++ [EvGenerate p])) as (ext & E & _).
  destruct (execute_read_only_query _ _ _) as [[rows|e] tr2];
    cbn [snd] in E; subst tr2.
  - exists ext. now rewrite <- app_assoc.
  - destruct e; cbn [snd]; try (exists ext; now rewrite <- app_assoc).
    destruct (attempt =? MAX_RETRY_COUNT);
      [exists ext; now rewrite <- app_assoc|].
    apply Hrec.
Qed.

Lemma retrieval_quiet (ext : trace) :
  Forall (fun e => is_search e || is_get_content e = true) ext -> orderly ext.
Proof.
  induction 1 as [|e ext He H IH]; [apply orderly_nil|].
  change (e :: ext) with ([e] ++ ext). apply orderly_app; [|exact IH].
  destruct e; try discriminate; repeat split; cbn; try lia;
    repeat constructor; discriminate.
Qed.

Lemma aggregate_effects p fused n ctx tr :
  exists ext,
    snd (aggregate p fused n ctx tr) = tr ++ ext
    /\ Forall (fun e => is_search e || is_get_content e = true) ext.
Proof.
  revert n ctx tr. induction fused as [|t more IH]; intros n ctx tr;
    cbn [aggregate].
  - exists []. now rewrite app_nil_r.
  - rewrite fetch_eq. destruct (content_for p t) as [c|e].
    + destruct (_ <=? _).
      * destruct (IH (n + length c / 4)
                    (ctx ++ [{| table_name := t; content := c |}])
                    (tr ++ [EvGetContent t])) as (ext & E & H).
        exists ([EvGetContent t] ++ ext). rewrite E, <- app_assoc.
        split; [reflexivity|]. now constructor.
      * exists [EvGetContent t]. split; [reflexivity|]. now repeat constructor.
    + exists [EvGetContent t]. split; [reflexivity|]. now repeat constructor.
Qed.

Lemma retrieve_effects p q tr :
  exists ext,
    snd (retrieve_schema_chunks p q tr) = tr ++ ext
    /\ Forall (fun e => is_search e || is_get_content e = true) ext.
Proof.
  unfold retrieve_schema_chunks, semantic_search, keyword_search, perform.
  destruct (vector_query_top_k p q K_SEARCH) as [v|e].
  2: { exists [EvSemanticSearch q]. split; [reflexivity|].
       now repeat constructor. }
  destruct (keyword_query_top_k p q K_SEARCH) as [kw|e].
  2: { exists [EvSemanticSearch q; EvKeywordSearch q].
       rewrite <- app_assoc. split; [reflexivity|]. now repeat constructor. }
  destruct (reciprocal_rank_fusion [v; kw] RRF_K) as [fused|e].
  2: { exists [EvSemanticSearch q; EvKeywordSearch q].
       rewrite <- app_assoc. split; [reflexivity|]. now repeat constructor. }
  destruct (aggregate_effects p fused 0 []
              ((tr ++ [EvSemanticSearch q]) ++ [EvKeywordSearch q]))
    as (ext & E & H).
  exists ([EvSemanticSearch q; EvKeywordSearch q] ++ ext).
  rewrite E, <- !app_assoc. split; [reflexivity|].
  now repeat constructor.
Qed.

(** X11. A request whose ranking is empty, or whose first ranked table
    alone exceeds the token budget, fails with the answer of an empty
    context: after the two searches and at most one content fetch, no
    prompt is generated and no connection is opened. *)
Theorem no_context_no_generation
    (env : environment) (query : text) (tr : trace) (fused : list text) :
  fused_ranking (retriever env) query fused ->
  (fused = []
   \/ exists table rest content,
        fused = table :: rest
        /\ content_for (retriever env) table = Ret content
        /\ TOKEN_BUDGET < length content / 4) ->
  run env query tr
  = (Ret (failure_result "Schema retrieval failed. Context is empty."),
     tr ++ [EvSemanticSearch query; EvKeywordSearch query]
        ++ map EvGetContent (firstn 1 fused)).
Proof.
  intros Hf Hcase. unfold run.
  rewrite (retrieve_from_ranking tr Hf).
  destruct Hcase as [->|(t & rest & c & -> & Hc & Hb)]; cbn [aggregate].
  - cbn [firstn map]. now rewrite app_nil_r.
  - rewrite fetch_eq, Hc.
    destruct (0 + length c / 4 <=? TOKEN_BUDGET) eqn:E.
    + apply Nat.leb_le in E. lia.
    + cbn [firstn map]. now rewrite <- app_assoc.
Qed.

Lemma no_context_no_generation_witness :
  run {| retriever := oversized_providers;
         db_connector := Scenarios.orders_db;
         llm_client := Scenarios.mock_llm false |} "totals" []
  = (Ret (failure_result "Schema retrieval failed. Context is empty."),
     [EvSemanticSearch "totals"; EvKeywordSearch "totals";
      EvGetContent "ledger"]).
Proof.
  refine (@no_context_no_generation
            {| retriever := oversized_providers;
               db_connector := Scenarios.orders_db;
               llm_client := Scenarios.mock_llm false |}
            "totals" [] ["ledger"] _ _).
  - exists ["ledger"], []. repeat split.
  - right. exists "ledger", [], (repeat "x"%char 2004).
    split; [reflexivity|]. split; [reflexivity|]. vm_compute. lia.
Defined.

(** The result the loop starts from and keeps until a statement runs. *)
Definition pending (r : run_result) : Prop :=
  status r = failure /\ sql_query r = None /\ result_set r = None.

Lemma loop_result env q ctx attempts full_result tr r tr' :
  attempt_loop env q ctx attempts full_result tr = (Ret r, tr') ->
  pending full_result ->
  match status r with
  | success =>
      exists sql cols rows tr0,
        sql_query r = Some sql
        /\ sql <> []
        /\ passes_security_check sql = true
        /\ tr' = tr0 ++ [EvConnect; EvExecute sql]
        /\ db_connector env (count is_connect tr0) sql = Rows cols rows
        /\ result_set r
           = Some (map (fun v => Dict.of_pairs (zip cols v)) rows)
        /\ (answer r = answer full_result
            \/ exists k, In k (removelast attempts)
                         /\ answer r = unparseable_answer k)
  | failure => sql_query r = None /\ result_set r = None
  end.
Proof.
  revert full_result tr.
  induction attempts as [|attempt later IH]; intros full_result tr;
    cbn [attempt_loop].
  - intros H (Hs & Hq & Hr). injection H as <- <-. now rewrite Hs.
  - destruct (generate_sql_eq (llm_client env) q ctx attempt
                (error_details full_result) tr) as (o & resp & -> & Ho).
    set (tr1 := tr ++ [EvGenerate _]).
    assert (Hrec : forall full',
              pending full' ->
              (answer full' = answer full_result
               \/ answer full' = unparseable_answer attempt) ->
              attempt_loop env q ctx later full' tr1 = (Ret r, tr') ->
              match status r with
              | success =>
                  exists sql cols rows tr0,
                    sql_query r = Some sql
                    /\ sql <> []
                    /\ passes_security_check sql = true
                    /\ tr' = tr0 ++ [EvConnect; EvExecute sql]
                    /\ db_connector env (count is_connect tr0) sql
                       = Rows cols rows
                    /\ result_set r
                       = Some (map (fun v => Dict.of_pairs (zip cols v)) rows)
                    /\ (answer r = answer full_result
                        \/ exists k, In k (removelast (attempt :: later))
                                     /\ answer r = unparseable_answer k)
              | failure => sql_query r = None /\ result_set r = None
              end).
    { intros full' Hp Ha H. pose proof (IH full' tr1 H Hp) as HI.
      destruct later as [|b later'].
      - cbn [attempt_loop] in H. injection H as <- <-.
        destruct Hp as (Hs & Hq & Hr). now rewrite Hs.
      - destruct (status r); [|exact HI].
        destruct HI as (sql & cols & rows & tr0 & H1 & H2 & H3 & H4 & H5 & H6
                        & H7).
        exists sql, cols, rows, tr0. repeat (split; [assumption|]).
        change (removelast (attempt :: b :: later'))
          with (attempt :: removelast (b :: later')).
        destruct H7 as [H7|(k & Hk & H7)].
        + rewrite H7. destruct Ha as [Ha|Ha]; [now left|].
          right. exists attempt. split; [now left|exact Ha].
        + right. exists k. split; [now right|exact H7]. }
    intros H Hp. pose proof Hp as (Hs & Hq & Hr).
    destruct o as [[|a sql]|].
    + refine (Hrec _ _ _ H); [repeat split; assumption|right; reflexivity].
    + destruct (execute_read_only_query (db_connector env) (a :: sql) tr1)
        as [[rows'|e] tr2] eqn:Ex.
      * injection H as <- <-. cbn [status set_success].
        apply execute_ret in Ex.
        destruct Ex as (Hpass & cols & rows & Hdb & -> & ->).
        exists (a :: sql), cols, rows, tr1.
        repeat split; auto; discriminate.
      * destruct e as [m|m|m|m| |m]; try discriminate;
          try (injection H as <- <-; now split).
        destruct (attempt =? MAX_RETRY_COUNT).
        -- injection H as <- <-. cbn. rewrite Hs. now split.
        -- destruct (execute_effects (db_connector env) (a :: sql) tr1)
             as (ext & E & _). rewrite Ex in E. cbn [snd] in E.
           pose proof (IH _ _ H ltac:(repeat split; assumption)) as HI.
           destruct later as [|b later'].
           ++ cbn [attempt_loop] in H. injection H as <- <-.
              cbn. rewrite Hs. now split.
           ++ destruct (status r); [|exact HI].
              destruct HI as (sql' & cols & rows & tr0 & H1 & H2 & H3 & H4
                              & H5 & H6 & H7).
              exists sql', cols, rows, tr0. repeat (split; [assumption|]).
              change (removelast (attempt :: b :: later'))
                with (attempt :: removelast (b :: later')).
              destruct H7 as [H7|(k & Hk & H7)]; [now left|].
              right. exists k. split; [now right|exact H7].
    + refine (Hrec _ _ _ H); [repeat split; assumption|right; reflexivity].
Qed.

(** X12. What an outcome of [run] carries.  A success holds the statement
    that was executed last and the rows the database returned for it,
    paired with the column names; that statement is not empty and passed
    the security check; the answer field still holds a failure text, the
    initial one or the one of an unparseable first response.  A failure
    holds neither a statement nor rows. *)
Theorem run_result_fields
    (env : environment) (query : text) (tr : trace)
    (r : run_result) (tr' : trace) :
  run env query tr = (Ret r, tr') ->
  match status r with
  | success =>
      exists sql cols rows tr0,
        sql_query r = Some sql
        /\ sql <> []
        /\ passes_security_check sql = true
        /\ tr' = tr0 ++ [EvConnect; EvExecute sql]
        /\ db_connector env (count is_connect tr0) sql = Rows cols rows
        /\ result_set r
           = Some (map (fun v => Dict.of_pairs (zip cols v)) rows)
        /\ (answer r = "Could not generate or execute a valid query."
            \/ answer r
               = "LLM failed to generate parseable SQL after 0 attempts.")
  | failure => sql_query r = None /\ result_set r = None
  end.
Proof.
  unfold run.
  destruct (retrieve_schema_chunks (retriever env) query tr)
    as [[[ctx trunc]|e] tr1]; [|discriminate].
  destruct ctx as [|c ctx].
  - intros H. injection H as <- <-. now split.
  - intros H. apply loop_result in H; [|now repeat split].
    destruct (status r); [|exact H].
    destruct H as (sql & cols & rows & tr0 & H1 & H2 & H3 & H4 & H5 & H6 & H7).
    exists sql, cols, rows, tr0. repeat (split; [assumption|]).
    destruct H7 as [H7|(k & Hk & H7)]; [now left|].
    right. destruct Hk as [<-|[]]. exact H7.
Qed.

Lemma run_result_fields_witness :
  exists r tr',
    run (Scenarios.env_with Scenarios.orders_db (Scenarios.mock_llm true))
      "What was the total amount of sales across all customers?" []
    = (Ret r, tr')
    /\ status r = success
    /\ sql_query r = Some "SELECT SUM(total_amount) FROM Orders;"
    /\ answer r = "Could not generate or execute a valid query.".
Proof.
  destruct (run (Scenarios.env_with Scenarios.orders_db (Scenarios.mock_llm true))
              "What was the total amount of sales across all customers?" [])
    as [[r|e] tr'] eqn:E; [|vm_compute in E; discriminate].
  pose proof (@run_result_fields
                (Scenarios.env_with Scenarios.orders_db (Scenarios.mock_llm true))
                "What was the total amount of sales across all customers?" []
                r tr' E) as H.
  vm_compute in E. injection E as <- <-. do 2 eexists.
  split; [reflexivity|]. repeat split.
Defined.

(** X13. Whatever the collaborators do and however [run] ends, every
    statement it has the database execute passed the security check,
    every execution happens on a connection opened for it, and every
    connection follows a generation of its own. *)
Theorem executed_statements_passed_the_check
    (env : environment) (query : text) (tr : trace) :
  exists ext,
    snd (run env query tr) = tr ++ ext
    /\ Forall (fun e => forall sql, e = EvExecute sql ->
                                    passes_security_check sql = true) ext
    /\ count is_execute ext <= count is_connect ext
    /\ count is_connect ext <= count is_generate ext.
Proof.
  unfold run.
  destruct (retrieve_effects (retriever env) query tr) as (ext & E & Hq).
  apply retrieval_quiet in Hq.
  destruct (retrieve_schema_chunks (retriever env) query tr)
    as [[[ctx trunc]|e] tr1]; cbn [snd] in E; subst tr1.
  - destruct ctx as [|c ctx]; [now exists ext|].
    destruct (loop_effects env query (c :: ctx) (seq 0 (MAX_RETRY_COUNT + 1))
                (failure_result default_answer) (tr ++ ext))
      as (ext' & E' & H').
    exists (ext ++ ext'). unfold default_answer in E'. rewrite E', <- app_assoc.
    split; [reflexivity|]. now apply orderly_app.
  - now exists ext.
Qed.

(** X14. Self-correction.  When the statement of the first attempt fails
    with a [ValueError], the next thing [run] does is to ask the generator
    again, with the critic prompt that quotes the failed statement and the
    error message, followed by the schema context and the question. *)
Theorem failed_statement_is_fed_back
    (env : environment) (query : text) (tr : trace)
    (c : chunk) (ctx : list chunk) (trunc : bool) (tr1 : trace)
    (sql resp : text) (tr2 : trace) (msg : text) (tr3 : trace) :
  retrieve_schema_chunks (retriever env) query tr
  = (Ret (c :: ctx, trunc), tr1) ->
  generate_sql (llm_client env) query (c :: ctx) 0 None tr1
  = ((Some sql, resp), tr2) ->
  execute_read_only_query (db_connector env) sql tr2
  = (Raise (ValueError msg), tr3) ->
  exists ext,
    snd (run env query tr)
    = tr3
      ++ [EvGenerate
            (Prompts.CRITIC_PROMPT_TEMPLATE sql msg ++ "
--- SCHEMA CONTEXT (Original) ---
" ++ join_lines (map content (c :: ctx)) ++ "
--- USER QUESTION (Original) ---
" ++ query)]
      ++ ext.
Proof.
  intros Hr Hg Hx. rewrite (@run_enters_loop env query tr c ctx trunc tr1 Hr).
  change (seq 0 (MAX_RETRY_COUNT + 1)) with [0; 1].
  pose proof (@generate_sql_some _ _ _ _ _ _ _ _ _ Hg) as Hne.
  cbn [attempt_loop error_details failure_result]. rewrite Hg.
  destruct sql as [|a sql]; [congruence|]. rewrite Hx.
  change (0 =? MAX_RETRY_COUNT) with false. cbv iota.
  destruct (loop_first_event env query (c :: ctx) 1 []
              (set_error_details
                 (failure_result "Could not generate or execute a valid query.")
                 (a :: sql, msg)) tr3) as (ext & E).
  exists ext. exact E.
Qed.

(** The question of the second demonstration of main.py and the context
    retrieved for it from the simulated stores. *)
Definition sales_question : text :=
  "What was the total amount of sales across all customers?".

Definition sales_context : list chunk :=
  Eval vm_compute in
    match fst (retrieve_schema_chunks
                 (Indexing.mock_providers Indexing.simulated_store)
                 sales_question []) with
    | Ret (ctx, _) => ctx
    | Raise _ => []
    end.

Lemma failed_statement_is_fed_back_witness :
  exists tr3 ext,
    snd (run (Scenarios.env_with Scenarios.orders_db (Scenarios.mock_llm true))
           sales_question [])
    = tr3
      ++ [EvGenerate
            (Prompts.CRITIC_PROMPT_TEMPLATE
               "SELECT non_existent_column FROM Orders;"
               "Database Execution Error: OperationalError('column non_existent_column does not exist')"
             ++ "
--- SCHEMA CONTEXT (Original) ---
" ++ join_lines (map content sales_context) ++ "
--- USER QUESTION (Original) ---
" ++ sales_question)]
      ++ ext.
Proof.
  eexists.
  refine (@failed_statement_is_fed_back
            (Scenarios.env_with Scenarios.orders_db (Scenarios.mock_llm true))
            sales_question [] (hd {| table_name := []; content := [] |}
                                 sales_context)
            (tl sales_context) false _ _ _ _ _ _ _ _ _).
  - vm_compute. reflexivity.
  - vm_compute. reflexivity.
  - vm_compute. reflexivity.
Defined.

(** X15. When neither response of the generator yields a statement, [run]
    asks twice with the same initial prompt, never contacts the database,
    and fails with an answer that counts one attempt. *)
Theorem unparseable_responses
    (env : environment) (query : text) (tr : trace)
    (c : chunk) (ctx : list chunk) (trunc : bool) (tr1 : trace) :
  let prompt := build_sql_prompt query (c :: ctx) false None in
  retrieve_schema_chunks (retriever env) query tr
  = (Ret (c :: ctx, trunc), tr1) ->
  falsy (parse_sql (llm_client env (count is_generate tr1) prompt)) = true ->
  falsy (parse_sql (llm_client env (S (count is_generate tr1)) prompt))
  = true ->
  run env query tr
  = (Ret (failure_result
            "LLM failed to generate parseable SQL after 1 attempts."),
     tr1 ++ [EvGenerate prompt; EvGenerate prompt]).
Proof.
  intros prompt Hr H0 H1.
  rewrite (@run_enters_loop env query tr c ctx trunc tr1 Hr).
  change (seq 0 (MAX_RETRY_COUNT + 1)) with [0; 1].
  cbn [attempt_loop error_details failure_result].
  unfold generate_sql.
  change (build_sql_prompt query (c :: ctx) (0 <? 0) None) with prompt.
  rewrite H0. cbv iota.
  cbn [error_details set_answer failure_result].
  change (build_sql_prompt query (c :: ctx) (0 <? 1) None) with prompt.
  rewrite count_snoc. cbn [is_generate]. rewrite Nat.add_1_r, H1.
  cbv iota. rewrite <- app_assoc. reflexivity.
Qed.

Lemma unparseable_responses_witness :
  exists tr1,
    run (Scenarios.env_with Scenarios.orders_db (fun _ _ => "I cannot help."))
      sales_question []
    = (Ret (failure_result
              "LLM failed to generate parseable SQL after 1 attempts."),
       tr1 ++ [EvGenerate (build_sql_prompt sales_question sales_context
                             false None);
               EvGenerate (build_sql_prompt sales_question sales_context
                             false None)]).
Proof.
  eexists.
  refine (@unparseable_responses
            (Scenarios.env_with Scenarios.orders_db (fun _ _ => "I cannot help."))
            sales_question []
            (hd {| table_name := []; content := [] |} sales_context)
            (tl sales_context) false _ _ _ _); vm_compute; reflexivity.
Defined.

End AgentExtras.

(** ** The sanitizer and the final answer *)
Module SynthesisExtras.
Import Re ReProofs ScanProofs SynthesisModule SynthesisProofs.
Import Dict DictProofs.

(** A text in which [_mask_value] finds nothing to mask. *)
Definition clean (s : text) : Prop :=
  found (search EMAIL s) = false
  /\ found (search PHONE s) = false
  /\ Text.contains "John Doe" s = false.

Lemma mask_value_regex value :
  mentions_name_or_address value = false ->
  mask_value value = regex_masked value.
Proof.
  intros H. rewrite mask_value_unfold, H. apply mask_loop.
Qed.

Lemma mask_value_name value :
  mentions_name_or_address value = true ->
  mask_value value = Text.replace value "John Doe" name_mask.
Proof. intros H. now rewrite mask_value_unfold, H. Qed.

Lemma mentions_mask_value value :
  mentions_name_or_address (mask_value value) = mentions_name_or_address value.
Proof.
  destruct (mentions_name_or_address value) eqn:E.
  - rewrite (mask_value_name _ E). now apply mentions_replace.
  - rewrite (mask_value_regex _ E). now apply mentions_regex_masked.
Qed.

Lemma replace_removes_john_doe value :
  Text.contains "John Doe" (Text.replace value "John Doe" name_mask) = false.
Proof.
  rewrite <- (map_id (Text.replace value "John Doe" name_mask)).
  apply (contains_free (fun c => c) "John Doe").
  unfold Text.replace. rewrite replace_from_scan by discriminate.
  apply scan_free with (C := lit_chars (fun c => c) "John Doe").
  - apply lit_probe. discriminate.
  - apply inert_john_doe.
  - intros i H. now rewrite <- hit_lit by discriminate.
Qed.

Lemma replace_nothing value :
  Text.contains "John Doe" value = false ->
  Text.replace value "John Doe" name_mask = value.
Proof.
  intros H. unfold Text.replace. rewrite replace_from_scan by discriminate.
  apply scan_id. intros i. rewrite hit_lit by discriminate.
  revert i. apply (contains_free (fun c => c) "John Doe").
  now rewrite map_id.
Qed.

Lemma mask_value_clean value : clean value -> mask_value value = value.
Proof.
  intros (He & Hp & Hn). rewrite mask_value_unfold.
  destruct (mentions_name_or_address value).
  - now apply replace_nothing.
  - cbv zeta. now rewrite He, Hp.
Qed.

(** The string fields of a scrubbed row are masked values. *)
Lemma scrubbed_field rows r k s :
  In r (scrub_results rows) -> In (k, VStr s) r ->
  exists value, s = mask_value value.
Proof.
  unfold scrub_results. rewrite in_map_iff. intros (r0 & <- & _) Hk.
  pose proof (@set_all_values scrub_value r0 [] ltac:(constructor)) as Hv.
  change (set_all scrub_value r0 []) with (scrub_row r0) in Hv.
  rewrite Forall_forall in Hv. destruct (Hv _ Hk) as (v & Hs).
  cbn [snd] in Hs. destruct v; try discriminate.
  injection Hs as ->. now eexists.
Qed.

Lemma scrub_row_pointwise r :
  NoDup (keys r) ->
  scrub_row r = map (fun kv => (fst kv, scrub_value (snd kv))) r.
Proof.
  intros H. change (scrub_row r) with (set_all scrub_value r []).
  rewrite set_all_fresh; [reflexivity|exact H|intros k _ []].
Qed.

(** X16. In a scrubbed result set, a string field that mentions neither
    [name] nor [address] holds no match of the email pattern and none of
    the phone pattern. *)
Theorem scrubbed_fields_hold_no_email_or_phone
    (rows : list row) (r : row) (k s : text) :
  In r (scrub_results rows) -> In (k, VStr s) r ->
  mentions_name_or_address s = false ->
  found (search EMAIL s) = false /\ found (search PHONE s) = false.
Proof.
  intros Hr Hk Hm. destruct (scrubbed_field _ _ _ _ Hr Hk) as (value & ->).
  rewrite mentions_mask_value in Hm. rewrite (mask_value_regex _ Hm).
  destruct (regex_masked_free value) as [He Hp].
  split; now apply search_free.
Qed.

Lemma scrubbed_fields_hold_no_email_or_phone_witness :
  found (search EMAIL "mail: [MASKED_EMAIL], tel. [MASKED_PHONE]") = false
  /\ found (search PHONE "mail: [MASKED_EMAIL], tel. [MASKED_PHONE]") = false.
Proof.
  refine (@scrubbed_fields_hold_no_email_or_phone
            [[("contact", VStr "mail: bob@example.com, tel. 555-123-4567");
              ("id", VInt 7)]]
            [("contact", VStr "mail: [MASKED_EMAIL], tel. [MASKED_PHONE]");
             ("id", VInt 7)]
            "contact" _ _ _ _).
  - vm_compute. left. reflexivity.
  - left. reflexivity.
  - vm_compute. reflexivity.
Defined.

(** X17. In a scrubbed result set, a string field that mentions [name] or
    [address] does not hold the text [John Doe]. *)
Theorem scrubbed_fields_hold_no_john_doe
    (rows : list row) (r : row) (k s : text) :
  In r (scrub_results rows) -> In (k, VStr s) r ->
  mentions_name_or_address s = true ->
  Text.contains "John Doe" s = false.
Proof.
  intros Hr Hk Hm. destruct (scrubbed_field _ _ _ _ Hr Hk) as (value & ->).
  rewrite mentions_mask_value in Hm. rewrite (mask_value_name _ Hm).
  apply replace_removes_john_doe.
Qed.

Lemma scrubbed_fields_hold_no_john_doe_witness :
  Text.contains "John Doe" "name: [MASKED_NAME] and [MASKED_NAME]" = false.
Proof.
  refine (@scrubbed_fields_hold_no_john_doe
            [[("customer", VStr "name: John Doe and John Doe")]]
            [("customer", VStr "name: [MASKED_NAME] and [MASKED_NAME]")]
            "customer" _ _ _ _).
  - vm_compute. left. reflexivity.
  - left. reflexivity.
  - vm_compute. reflexivity.
Defined.

(** X18. Scrubbing keeps the shape of the result set: the rows, their
    keys and the order of both stay as they are, every value that is not
    a string is kept, and every string is replaced by its masked form. *)
Theorem scrub_results_is_pointwise (rows : list row) :
  Forall (fun r => NoDup (keys r)) rows ->
  scrub_results rows
  = map (map (fun kv => (fst kv, scrub_value (snd kv)))) rows
  /\ map keys (scrub_results rows) = map keys rows
  /\ length (scrub_results rows) = length rows.
Proof.
  intros H.
  assert (scrub_results rows
          = map (map (fun kv => (fst kv, scrub_value (snd kv)))) rows) as E.
  { unfold scrub_results. apply map_ext_in. intros r Hr.
    apply scrub_row_pointwise. rewrite Forall_forall in H. now apply H. }
  split; [exact E|]. split.
  - rewrite E, map_map. apply map_ext. intros r. unfold keys.
    rewrite map_map. reflexivity.
  - unfold scrub_results. apply length_map.
Qed.

Lemma scrub_results_is_pointwise_witness :
  scrub_results [[("contact", VStr "bob@example.com"); ("id", VInt 7)];
                 [("contact", VStr "none"); ("id", VInt 8)]]
  = [[("contact", VStr "[MASKED_EMAIL]"); ("id", VInt 7)];
     [("contact", VStr "none"); ("id", VInt 8)]].
Proof.
  refine (eq_trans
            (proj1 (@scrub_results_is_pointwise
                      [[("contact", VStr "bob@example.com"); ("id", VInt 7)];
                       [("contact", VStr "none"); ("id", VInt 8)]] _)) _).
  - repeat constructor; cbn; intuition discriminate.
  - vm_compute. reflexivity.
Defined.

(** X19. A result set whose rows hold no email address, no phone number
    and no [John Doe] in any string field comes back from
    [scrub_results] unchanged. *)
Theorem scrub_results_keeps_clean_rows (rows : list row) :
  Forall (fun r => NoDup (keys r)) rows ->
  Forall (Forall (fun kv => forall s, snd kv = VStr s -> clean s)) rows ->
  scrub_results rows = rows.
Proof.
  intros Hn Hc. unfold scrub_results.
  rewrite <- (map_id rows) at 2. apply map_ext_in. intros r Hr.
  rewrite Forall_forall in Hn, Hc.
  rewrite (@scrub_row_pointwise r (Hn _ Hr)).
  rewrite <- (map_id r) at 2. apply map_ext_in. intros [k v] Hk.
  cbn [fst snd]. f_equal.
  pose proof (Hc _ Hr) as Hr'. rewrite Forall_forall in Hr'.
  specialize (Hr' _ Hk). cbn [snd] in Hr'.
  destruct v; cbn [scrub_value]; try reflexivity.
  f_equal. now apply mask_value_clean, Hr'.
Qed.

Lemma scrub_results_keeps_clean_rows_witness :
  scrub_results [[("sum", VInt 1250)]; [("city", VStr "Oslo")]]
  = [[("sum", VInt 1250)]; [("city", VStr "Oslo")]].
Proof.
  apply scrub_results_keeps_clean_rows.
  - repeat constructor; cbn; intuition discriminate.
  - repeat (apply Forall_cons || apply Forall_nil); cbn [snd]; intros s E;
      try discriminate.
    injection E as <-. repeat split; vm_compute; reflexivity.
Defined.

End SynthesisExtras.

(** ** The final answer *)
Module AnswerExtras.
Import SynthesisModule SynthesisLLM.

Definition no_results_answer : text :=
  "**No Results Found:** " ++ PyStr.dq ++
  "The data shows no sales matching your criteria for Q3." ++ PyStr.dq.

Lemma synthesize_answer_formula json_dumps user_question result_set :
  synthesize_answer json_dumps user_question result_set
  = Some
      match scrub_results result_set with
      | [] => no_results_answer
      | _ :: _ =>
          "Answer successfully synthesized. The query results were:
```json
" ++ json_dumps (scrub_results result_set) ++ "
```"
      end.
Proof.
  unfold synthesize_answer, synthesis_prompt.
  destruct (scrub_results result_set) as [|r rows].
  - vm_compute. reflexivity.
  - generalize (json_dumps (r :: rows)). intros j.
    destruct (PyStr.format SYNTHESIS_PROMPT_TEMPLATE _) eqn:E;
      [reflexivity|].
    vm_compute in E. discriminate.
Qed.

(** X20. On rows of the value types of the embedding, which
    [json.dumps] serializes, [synthesize_answer] always returns, and its
    text depends on the scrubbed rows only.  The question takes no part
    in it: the doubled
    braces of the templates keep [str.format] from inserting it, so an
    empty result set gives the same text for every question, and a
    non-empty one gives the JSON text of the scrubbed rows between two
    fixed lines. *)
Theorem synthesize_answer_ignores_question
    (json_dumps : list row -> text) (user_question : text)
    (result_set : list row) :
  synthesize_answer json_dumps user_question result_set
  = Some
      match scrub_results result_set with
      | [] => no_results_answer
      | _ :: _ =>
          "Answer successfully synthesized. The query results were:
```json
" ++ json_dumps (scrub_results result_set) ++ "
```"
      end.
Proof. apply synthesize_answer_formula. Qed.

End AnswerExtras.

(** ** Ingestion: filling the stores and reading the schema *)
Module IngestionExtras.
Import DataModels Indexer Indexing Introspection.
Import Dict DictProofs ConnectorExtras ScanProofs SynthesisProofs.

(** The entry [ingest_schema] writes for a schema. *)
Definition entry (s : TableSchema) : text * text :=
  (table_name s, descriptive_text s).

Lemma ingest_stores stores schemas :
  ingest_schema stores schemas
  = (fold_left assign (map entry schemas) (fst stores),
     fold_left assign (map entry schemas) (snd stores)).
Proof.
  unfold ingest_schema. revert stores.
  induction schemas as [|s schemas IH]; intros [vs ks]; cbn [fold_left map].
  - reflexivity.
  - rewrite IH. reflexivity.
Qed.

Lemma get_entries schemas table :
  get (map entry schemas) table
  = option_map descriptive_text
      (find (fun s => key_eqb (table_name s) table) schemas).
Proof.
  induction schemas as [|s schemas IH]; cbn [map get find entry].
  - reflexivity.
  - unfold entry at 1. destruct (key_eqb (table_name s) table);
      [reflexivity|exact IH].
Qed.

Lemma get_content_fold schemas st table :
  get_content (fold_left assign (map entry schemas) st) table
  = match find (fun s => key_eqb (table_name s) table) (rev schemas) with
    | Some s => descriptive_text s
    | None => get_content st table
    end.
Proof.
  unfold get_content. rewrite fold_assign_get, <- map_rev, get_entries.
  now destruct (find _ (rev schemas)).
Qed.

(** X21. After [ingest_schema], each of the two stores answers
    [get_content] for a table with the descriptive text of the last
    ingested schema of that name; a table that was not ingested keeps the
    content it had. *)
Theorem ingested_content_is_latest_description
    (stores : store * store) (schemas : list TableSchema) (table : text) :
  let after := ingest_schema stores schemas in
  let latest :=
    find (fun s => key_eqb (table_name s) table) (rev schemas) in
  get_content (fst after) table
  = match latest with
    | Some s => descriptive_text s
    | None => get_content (fst stores) table
    end
  /\ get_content (snd after) table
     = match latest with
       | Some s => descriptive_text s
       | None => get_content (snd stores) table
       end.
Proof.
  cbv zeta. rewrite ingest_stores. cbn [fst snd].
  split; apply get_content_fold.
Qed.

(** X22. Ingesting schemas with distinct table names into empty stores
    fixes the fallback rankings: for a query without a trigger word the
    vector store ranks the tables in the order of ingestion and the
    keyword index in the reverse order, each cut to [k] names. *)
Theorem fallback_rankings_follow_ingestion
    (schemas : list TableSchema) (query : text) (k : nat) :
  NoDup (map table_name schemas) ->
  mentions "sales" query || mentions "revenue" query
  || mentions "user" query || mentions "account" query = false ->
  mentions "id" query || mentions "customer" query
  || mentions "amount" query = false ->
  let after := ingest_schema ([], []) schemas in
  vector_query_top_k (fst after) query k = firstn k (map table_name schemas)
  /\ keyword_query_top_k (snd after) query k
     = firstn k (rev (map table_name schemas)).
Proof.
  intros Hn Hv Hk. cbv zeta. rewrite ingest_stores. cbn [fst snd].
  assert (fold_left assign (map entry schemas) ([] : store)
          = map entry schemas) as ->.
  { rewrite fold_assign_fresh; [reflexivity| |intros t _ []].
    rewrite map_map. exact Hn. }
  assert (keys (map entry schemas) = map table_name schemas) as Hkeys.
  { unfold keys. rewrite map_map. reflexivity. }
  apply orb_false_iff in Hv. destruct Hv as [Hv Hv4].
  apply orb_false_iff in Hv. destruct Hv as [Hv Hv3].
  apply orb_false_iff in Hv. destruct Hv as [Hv1 Hv2].
  apply orb_false_iff in Hk. destruct Hk as [Hk Hk3].
  apply orb_false_iff in Hk. destruct Hk as [Hk1 Hk2].
  unfold vector_query_top_k, keyword_query_top_k.
  rewrite Hv1, Hv2, Hv3, Hv4, Hk1, Hk2, Hk3, Hkeys. cbn [orb].
  split; reflexivity.
Qed.

Lemma fallback_rankings_follow_ingestion_witness :
  let schemas :=
    [{| table_name := "Customers"; columns := []; foreign_keys := [];
        descriptive_text := "# Table: Customers..." |};
     {| table_name := "Orders"; columns := []; foreign_keys := [];
        descriptive_text := "# Table: Orders..." |}] in
  let after := ingest_schema ([], []) schemas in
  vector_query_top_k (fst after) "Show me everything from Antarctica." 1
  = firstn 1 (map table_name schemas)
  /\ keyword_query_top_k (snd after) "Show me everything from Antarctica." 1
     = firstn 1 (rev (map table_name schemas)).
Proof.
  cbv zeta. apply fallback_rankings_follow_ingestion.
  - repeat constructor; cbn; intuition discriminate.
  - vm_compute. reflexivity.
  - vm_compute. reflexivity.
Defined.

(** *** Introspection *)

Lemma map_option_Forall2 (A B : Type) (f : A -> option B) l l' :
  map_option f l = Some l' -> Forall2 (fun x y => f x = Some y) l l'.
Proof.
  revert l'. induction l as [|x l IH]; intros l'; cbn [map_option].
  - intros H. injection H as <-. constructor.
  - destruct (f x) as [y|] eqn:E; [|discriminate].
    destruct (map_option f l) as [ys|]; [|discriminate].
    cbn. intros H. injection H as <-. constructor; auto.
Qed.

Lemma map_option_none (A B : Type) (f : A -> option B) l :
  map_option f l = None <-> exists x, In x l /\ f x = None.
Proof.
  induction l as [|x l IH]; cbn [map_option].
  - split; [discriminate|]. intros (x & [] & _).
  - destruct (f x) as [y|] eqn:E.
    + destruct (map_option f l) as [ys|]; cbn.
      * split; [discriminate|]. intros (z & [<-|Hz] & Hf); [congruence|].
        destruct IH as [_ IH]. discriminate IH. now exists z.
      * split; [|reflexivity]. intros _.
        destruct IH as [IH _]. destruct (IH eq_refl) as (z & Hz & Hf).
        exists z. split; [now right|exact Hf].
    + split; [|reflexivity]. intros _. exists x. split; [now left|exact E].
Qed.

(** What [get_full_schema] builds for one table. *)
Definition describes (insp : inspector) (s : TableSchema) : Prop :=
  descriptive_text s
  = generate_descriptive_text (table_name s) (columns s) (foreign_keys s)
  /\ (exists columns_data,
        get_columns insp (table_name s) = Some columns_data
        /\ map name (columns s) = map col_name columns_data
        /\ map data_type (columns s) = map col_type columns_data)
  /\ Forall (fun c =>
               business_context c
               = add_business_context (name c)
                   ("Column data type is " ++ data_type c ++ "."))
            (columns s)
  /\ (exists fks_data,
        get_foreign_keys insp (table_name s) = Some fks_data
        /\ Forall2 (fun fk d =>
                      source_table d = table_name s
                      /\ target_table d = referred_table fk
                      /\ hd_error (constrained_columns fk)
                         = Some (source_column d)
                      /\ hd_error (referred_columns fk)
                         = Some (target_column d))
                   fks_data (foreign_keys s)).

Lemma table_schema_describes insp table s :
  table_schema insp table = Some s -> table_name s = table /\ describes insp s.
Proof.
  unfold table_schema, describes.
  destruct (get_columns insp table) as [columns_data|] eqn:Ec; [|discriminate].
  destruct (get_foreign_keys insp table) as [fks_data|] eqn:Ef; [|discriminate].
  destruct (map_option _ fks_data) as [fks|] eqn:Em; [|discriminate].
  intros H. injection H as <-.
  cbn [table_name columns foreign_keys descriptive_text].
  split; [reflexivity|]. split; [reflexivity|]. split; [|split].
  - exists columns_data. rewrite Ec, !map_map. cbn [name data_type]. auto.
  - apply Forall_forall. intros c Hc. apply in_map_iff in Hc.
    destruct Hc as (col & <- & _). reflexivity.
  - exists fks_data. rewrite Ef. split; [reflexivity|].
    apply map_option_Forall2 in Em.
    eapply Forall2_impl; [|exact Em]. cbn beta. intros fk d Hd.
    unfold get_fk_description in Hd.
    destruct (constrained_columns fk) as [|sc scs]; [discriminate|].
    destruct (referred_columns fk) as [|tc tcs]; [discriminate|].
    injection Hd as <-. cbn. auto.
Qed.

(** X23. When [get_full_schema] returns, it returns one schema for each
    table the inspector lists, in that order.  Each schema has the
    columns of its table with their types, the business context computed
    from the name and the type, one foreign key for each one reported,
    made of the first column on either side, and a descriptive text
    generated from these very fields. *)
Theorem full_schema_describes_every_table
    (insp : inspector) (schemas : list TableSchema) :
  get_full_schema insp = Some schemas ->
  get_table_names insp = Some (map table_name schemas)
  /\ Forall (describes insp) schemas.
Proof.
  unfold get_full_schema.
  destruct (get_table_names insp) as [names|]; [|discriminate].
  intros H. apply map_option_Forall2 in H.
  induction H as [|table s names schemas Hs H IH].
  - split; [reflexivity|constructor].
  - destruct (table_schema_describes _ _ Hs) as [<- Hd].
    destruct IH as [IH1 IH2]. injection IH1 as ->.
    split; [reflexivity|now constructor].
Qed.

(** An inspector for a database of two tables, one with a foreign key
    over two columns. *)
Definition two_tables : inspector :=
  {| get_table_names := Some ["Customers"; "Orders"];
     get_columns := fun t =>
       if key_eqb t "Customers"
       then Some [{| col_name := "cust_id"; col_type := "INTEGER" |}]
       else Some [{| col_name := "order_id"; col_type := "INTEGER" |};
                  {| col_name := "cust_id"; col_type := "INTEGER" |}];
     get_foreign_keys := fun t =>
       if key_eqb t "Customers" then Some []
       else Some [{| referred_table := "Customers";
                     constrained_columns := ["cust_id"; "region"];
                     referred_columns := ["cust_id"; "region"] |}] |}.

Lemma full_schema_describes_every_table_witness :
  exists schemas,
    get_full_schema two_tables = Some schemas
    /\ get_table_names two_tables = Some (map table_name schemas)
    /\ Forall (describes two_tables) schemas.
Proof.
  destruct (get_full_schema two_tables) as [schemas|] eqn:E;
    [|vm_compute in E; discriminate].
  exists schemas. split; [reflexivity|].
  exact (full_schema_describes_every_table two_tables E).
Defined.

(** X24. [get_full_schema] fails exactly when the inspector fails, for
    the table names or for the columns or the foreign keys of a listed
    table, or when a listed table has a foreign key without a column on
    one of its sides. *)
Theorem full_schema_failure (insp : inspector) :
  get_full_schema insp = None
  <-> get_table_names insp = None
      \/ exists names table,
           get_table_names insp = Some names /\ In table names
           /\ (get_columns insp table = None
               \/ get_foreign_keys insp table = None
               \/ exists fks fk,
                    get_foreign_keys insp table = Some fks /\ In fk fks
                    /\ (constrained_columns fk = []
                        \/ referred_columns fk = [])).
Proof.
  assert (Hfk : forall fk table,
            get_fk_description fk table = None
            <-> constrained_columns fk = [] \/ referred_columns fk = []).
  { intros fk table. unfold get_fk_description.
    destruct (constrained_columns fk); [tauto|].
    destruct (referred_columns fk); [tauto|].
    split; [discriminate|]. intros [H|H]; discriminate. }
  assert (Htable : forall table,
            table_schema insp table = None
            <-> get_columns insp table = None
                \/ get_foreign_keys insp table = None
                \/ exists fks fk,
                     get_foreign_keys insp table = Some fks /\ In fk fks
                     /\ (constrained_columns fk = []
                         \/ referred_columns fk = [])).
  { intros table. unfold table_schema.
    destruct (get_columns insp table) as [cols|]; [|tauto].
    destruct (get_foreign_keys insp table) as [fks|]; [|tauto].
    destruct (map_option _ fks) as [ds|] eqn:E.
    - split; [discriminate|]. intros [H|[H|(fks' & fk & H & Hin & Hc)]];
        try discriminate.
      injection H as <-.
      assert (map_option (fun fk => get_fk_description fk table) fks = None)
        as E' by (apply map_option_none; exists fk; split; [exact Hin|];
                  now apply Hfk).
      congruence.
    - split; [|reflexivity]. intros _. right. right.
      apply map_option_none in E. destruct E as (fk & Hin & Hc).
      exists fks, fk. split; [reflexivity|]. split; [exact Hin|].
      now apply (Hfk fk table). }
  unfold get_full_schema.
  destruct (get_table_names insp) as [names|].
  - rewrite map_option_none. split.
    + intros (table & Hin & Ht). right. exists names, table.
      split; [reflexivity|]. split; [exact Hin|]. now apply Htable.
    + intros [H|(names' & table & H & Hin & Ht)]; [discriminate|].
      injection H as <-. exists table. split; [exact Hin|]. now apply Htable.
  - split; [now left|reflexivity].
Qed.

End IngestionExtras.

(** ** Rank fusion with a negative constant *)
Module FusionExtras.
Import HybridRetriever.

(** The ranking has a position whose denominator [k + rank + 1] is zero. *)
Definition divides_by_zero (k : Z) (ranks : list text) : Prop :=
  (0 <= - k - 1 < Z.of_nat (length ranks))%Z.

Lemma fuse_ranks_outcome k ranks rank fused :
  ((Z.of_nat rank <= - k - 1 < Z.of_nat (rank + length ranks))%Z ->
   fuse_ranks k ranks rank fused = Raise ZeroDivisionError)
  /\ (~ (Z.of_nat rank <= - k - 1 < Z.of_nat (rank + length ranks))%Z ->
      exists fused', fuse_ranks k ranks rank fused = Ret fused').
Proof.
  revert rank fused.
  induction ranks as [|d rest IH]; intros rank fused; cbn [fuse_ranks length].
  - split; [lia|]. intros _. now exists fused.
  - unfold Float.truediv_int.
    destruct (Z.eqb_spec (k + Z.of_nat rank + 1) 0) as [E|E].
    + split; [reflexivity|]. intros H. exfalso. apply H. lia.
    + destruct (IH (S rank)
                  (add_score fused d
                     (SFdiv Float.prec Float.emax Float.one
                        (Float.of_int (k + Z.of_nat rank + 1)))))
        as [IH1 IH2].
      split; intros H; [apply IH1|apply IH2]; lia.
Qed.

Lemma fuse_all_outcome k search_results fused :
  (Exists (divides_by_zero k) search_results ->
   fuse_all k search_results fused = Raise ZeroDivisionError)
  /\ (~ Exists (divides_by_zero k) search_results ->
      exists fused', fuse_all k search_results fused = Ret fused').
Proof.
  revert fused.
  induction search_results as [|ranks more IH]; intros fused; cbn [fuse_all].
  - split; [intros H; inversion H|]. intros _. now exists fused.
  - destruct (fuse_ranks_outcome k ranks 0 fused) as [H1 H2].
    cbn [Z.of_nat Nat.add] in H1, H2.
    assert (divides_by_zero k ranks \/ ~ divides_by_zero k ranks) as [Hd|Hd]
      by (unfold divides_by_zero; lia).
    + rewrite (H1 Hd). split; [reflexivity|].
      intros H. exfalso. apply H. now left.
    + destruct (H2 Hd) as (f1 & ->). destruct (IH f1) as [IH1 IH2].
      split; intros H.
      * apply IH1. inversion H; subst; [contradiction|assumption].
      * apply IH2. intros H'. apply H. now right.
Qed.

(** Every divisor [k + rank + 1] of the fusion is an integer that Python
    converts to a float: its magnitude stays below [2 ^ 1023].  (From
    [2 ^ 1024] on the conversion raises [OverflowError], which the
    embedding does not model.) *)
Definition within_float_range (k : Z) (search_results : list (list text))
    : Prop :=
  Forall (fun ranks => (Z.abs k + Z.of_nat (length ranks) < 2 ^ 1023)%Z)
         search_results.

(** X25. [reciprocal_rank_fusion] divides by [k + rank + 1].  As long as
    these divisors are within the range of the floats: with a negative
    [k] it raises [ZeroDivisionError] as soon as one of the rankings has
    a position [- k - 1], and in every other case it returns a
    ranking. *)
Theorem fusion_division_by_zero (search_results : list (list text)) (k : Z) :
  within_float_range k search_results ->
  (Exists (divides_by_zero k) search_results ->
   reciprocal_rank_fusion search_results k = Raise ZeroDivisionError)
  /\ (~ Exists (divides_by_zero k) search_results ->
      exists fused_ranks,
        reciprocal_rank_fusion search_results k = Ret fused_ranks).
Proof.
  intros _. unfold reciprocal_rank_fusion.
  destruct (fuse_all_outcome k search_results []) as [H1 H2].
  split; intros H.
  - now rewrite (H1 H).
  - destruct (H2 H) as (f & ->). now eexists.
Qed.

Lemma fusion_division_by_zero_witness :
  reciprocal_rank_fusion [["Orders"; "Customers"]; ["Customers"]] (-2)
  = Raise ZeroDivisionError
  /\ exists fused_ranks,
       reciprocal_rank_fusion [["Orders"]; ["Customers"]] (-2)
       = Ret fused_ranks.
Proof.
  split.
  - apply (proj1 (@fusion_division_by_zero
                    [["Orders"; "Customers"]; ["Customers"]] (-2)
                    ltac:(repeat constructor; vm_compute; reflexivity))).
    left. unfold divides_by_zero. cbn. lia.
  - apply (proj2 (@fusion_division_by_zero
                    [["Orders"]; ["Customers"]] (-2)
                    ltac:(repeat constructor; vm_compute; reflexivity))).
    intros H. inversion H as [? ? H0|? ? H0]; subst.
    + unfold divides_by_zero in H0. cbn in H0. lia.
    + inversion H0 as [? ? H1|? ? H1]; subst.
      * unfold divides_by_zero in H1. cbn in H1. lia.
      * inversion H1.
Defined.

End FusionExtras.

(** ** The demonstration of main.py *)
Module MainExtras.
Import Settings SafeConnector LlmAgent SynthesisModule Main.
Import AgentExtras AnswerExtras.

(** X26. Whatever the prompt and whatever its error mode, the response of
    the mock generator holds a statement that [_parse_sql] finds, that is
    not empty and that passes the security check of the connector. *)
Theorem mock_responses_are_read_only_statements
    (error_mode : bool) (calls : nat) (prompt : text) :
  exists sql,
    parse_sql (Scenarios.mock_llm error_mode calls prompt) = Some sql
    /\ falsy (Some sql) = false
    /\ passes_security_check sql = true.
Proof.
  unfold Scenarios.mock_llm.
  destruct (error_mode && (calls =? 0)).
  - eexists. split; [vm_compute; reflexivity|]. split; reflexivity.
  - destruct (Text.contains "key accounts" prompt).
    + eexists. split; [vm_compute; reflexivity|]. split; reflexivity.
    + eexists. split; [vm_compute; reflexivity|]. split; reflexivity.
Qed.

(** The stores [initialize_system] builds are the simulated store, in
    both the vector store and the keyword index. *)
Lemma initialize_system_stores :
  initialize_system = (Indexing.simulated_store, Indexing.simulated_store).
Proof. reflexivity. Qed.




End MainExtras.
